(** * EulerRings: the set-expression evaluator and the visualizer around it

    A shallow embedding of [SetVisualizer] (src/main.py): the formula
    evaluator, [evaluate_expression] down to [_parse_atom], with the
    properties of it that the specification states, and the state of the
    visualizer with its plot and its event handlers.

    - A Python [str] is a list of Unicode code points.
    - A numpy boolean mask is a [list bool]; the binary operators [|], [&],
      [^] broadcast one-dimensional operands the way numpy does and raise
      when the shapes do not match.
    - A [raise ValueError(...)] is a value of [ValueError], one constructor
      per raise site; [message] renders the text the source formats.
    - The membership map ([masks], a Python dict) is a [gmap].
    - The recursion of the parser through parentheses and its [while]
      loops run on [fuel]; [_safe_evaluate] gives them enough
      ([_safe_evaluate_total], [_parse_expression_fuel]). These
      definitions leave out the recursion limit of the interpreter; the
      module [Limited] has the same methods with it, for the properties
      that reach into deep nesting, and agrees with them where the frames
      suffice ([limited__safe_evaluate_within]).
    - Coordinates are binary64 floats; [self.sets] is the list of its
      items in insertion order; a handler is a function on the state that
      returns the next state or an exception.

    The first part holds the definitions: the embedding of the source, the
    grammar of the specification, the visualizer, and the vocabulary of
    the proofs. The second part holds the lemmas, the properties of the
    specification, C1 to C10, and further properties of the source, first
    of the evaluator and then of the visualizer. *)

From stdpp Require Import gmap list strings pretty.
From Stdlib Require Import Floats.PrimFloat.

Set Default Proof Using "Type".

(** ** Python strings *)

(** A character is its code point. *)
Abbreviation char := N (only parsing).
Abbreviation str := (list N) (only parsing).

(** An ASCII literal of the source, as a Python [str]. *)
Definition lit (s : string) : str :=
  Ascii.N_of_ascii <$> String.list_ascii_of_string s.

(** A one-character literal. *)
Definition ch (s : string) : char := default 0%N (head (lit s)).

(** [c.isspace()]: the code points whose bidirectional class is WS, B or S,
    or whose category is Zs. *)
Definition isspace (c : char) : bool :=
  ((9 <=? c) && (c <=? 13) || (28 <=? c) && (c <=? 32)
   || (c =? 133) || (c =? 160) || (c =? 5760)
   || (8192 <=? c) && (c <=? 8202)
   || (c =? 8232) || (c =? 8233) || (c =? 8239) || (c =? 8287)
   || (c =? 12288))%N.

Fixpoint lstrip (s : str) : str :=
  match s with
  | c :: s' => if isspace c then lstrip s' else s
  | [] => []
  end.

Definition rstrip (s : str) : str := reverse (lstrip (reverse s)).

(** [s.strip()] *)
Definition strip (s : str) : str := rstrip (lstrip s).

(** ** Errors and outcomes *)

Inductive ValueError : Type :=
  | UnknownCharacter (c : char)
  | UnexpectedEnd
  | MissingParenthesis
  | UnexpectedToken (token : str)
  | BroadcastError (n m : nat).

(** The text of the exception. *)
Definition message (e : ValueError) : str :=
  match e with
  | UnknownCharacter c => lit "Unknown character: " ++ [c]
  | UnexpectedEnd => lit "Unexpected end of expression"
  | MissingParenthesis => lit "Missing closing parenthesis"
  | UnexpectedToken token => lit "Unexpected token: " ++ token
  | BroadcastError n m =>
      lit "operands could not be broadcast together with shapes ("
      ++ lit (pretty n) ++ lit ",) (" ++ lit (pretty m) ++ lit ",) "
  end.

(** What a call does: it returns, it raises, or the model ran out of
    [fuel] (which [_safe_evaluate] never does, see [_safe_evaluate_total]). *)
Inductive outcome (A : Type) : Type :=
  | Ok (a : A)
  | Raise (e : ValueError)
  | OutOfFuel.
Arguments Ok {A} a.
Arguments Raise {A} e.
Arguments OutOfFuel {A}.

(** [r'] is what [r] becomes with more fuel. *)
Definition approx {A} (r r' : outcome A) : Prop := r = OutOfFuel ∨ r = r'.

#[global] Instance outcome_ret : MRet outcome := @Ok.
#[global] Instance outcome_bind : MBind outcome := λ A B f x,
  match x with
  | Ok a => f a
  | Raise e => Raise e
  | OutOfFuel => OutOfFuel
  end.

(** ** numpy boolean masks *)

Abbreviation ndarray := (list bool) (only parsing).

(** A binary ufunc on two one-dimensional arrays: equal shapes combine
    elementwise, a one-element operand is stretched, anything else raises. *)
Definition broadcast (f : bool → bool → bool) (a b : ndarray) : outcome ndarray :=
  if decide (length a = length b) then Ok (zip_with f a b)
  else match a, b with
       | [x], _ => Ok (f x <$> b)
       | _, [y] => Ok ((λ x, f x y) <$> a)
       | _, _ => Raise (BroadcastError (length a) (length b))
       end.

Definition np_or : ndarray → ndarray → outcome ndarray := broadcast orb.
Definition np_and : ndarray → ndarray → outcome ndarray := broadcast andb.
Definition np_xor : ndarray → ndarray → outcome ndarray := broadcast xorb.
Definition np_invert (a : ndarray) : ndarray := negb <$> a.
Definition np_ones (n : nat) : ndarray := replicate n true.
Definition np_zeros (n : nat) : ndarray := replicate n false.

(** ** The tokenizer *)

(** The loop of [_tokenize] from index [i] on: [expr] is what is left of the
    string at [i], [tokens] the list built so far. *)
Fixpoint _tokenize_from (expr : str) (tokens : list str) : outcome (list str) :=
  match expr with
  | [] => Ok tokens
  | c :: expr' =>
      if isspace c then _tokenize_from expr' tokens
      else if bool_decide (c ∈ lit "ABC") then
        _tokenize_from expr' (tokens ++ [[c]])
      else if bool_decide (c = ch ".") then
        _tokenize_from expr' (tokens ++ [lit "NOT"])
      else if bool_decide (c = ch "U") then
        _tokenize_from expr' (tokens ++ [lit "OR"])
      else if bool_decide (c = ch "&") then
        _tokenize_from expr' (tokens ++ [lit "AND"])
      else if bool_decide (c = ch "^") then
        _tokenize_from expr' (tokens ++ [lit "XOR"])
      else if bool_decide (c = ch "-") then
        _tokenize_from expr' (tokens ++ [lit "DIFF"])
      else if bool_decide (c = ch "(") then
        _tokenize_from expr' (tokens ++ [lit "("])
      else if bool_decide (c = ch ")") then
        _tokenize_from expr' (tokens ++ [lit ")"])
      else Raise (UnknownCharacter c)
  end.

Definition _tokenize (expr : str) : outcome (list str) :=
  _tokenize_from expr [].

(** ** The parser *)

(** [pos < len(tokens) and tokens[pos] == kw] *)
Definition at_token (tokens : list str) (pos : nat) (kw : str) : bool :=
  bool_decide (tokens !! pos = Some kw).

Abbreviation parser :=
  (list str → nat → gmap (list N) (list bool) → list bool → outcome (list bool * nat))
  (only parsing).

(** [expression] is the recursive call to [_parse_expression]. *)
Definition _parse_atom (expression : parser) : parser :=
  λ tokens pos masks universal,
  match tokens !! pos with
  | None => Raise UnexpectedEnd
  | Some token =>
      if bool_decide (token = lit "(") then
        '(result, pos) ← expression tokens (pos + 1) masks universal;
        if at_token tokens pos (lit ")") then Ok (result, pos + 1)
        else Raise MissingParenthesis
      else
        match masks !! token with
        | Some mask => Ok (mask, pos + 1)
        | None => Raise (UnexpectedToken token)
        end
  end.

Definition _parse_not (expression : parser) : parser :=
  λ tokens pos masks universal,
  '(operand, pos) ← _parse_atom expression tokens pos masks universal;
  if at_token tokens pos (lit "NOT") then
    result ← np_and universal (np_invert operand);
    Ok (result, pos + 1)
  else Ok (operand, pos).

(** The loop shared by the four binary tiers:
    [while pos < len(tokens) and tokens[pos] == kw:
       pos += 1; right, pos = operand(pos); left = fold(left, right)],
    with [lhs] for [left] and [rhs] for [right]. *)
Fixpoint while_token (fuel : nat) (kw : str)
    (operand : nat → outcome (ndarray * nat))
    (fold : ndarray → ndarray → outcome ndarray)
    (tokens : list str) (lhs : ndarray) (pos : nat) : outcome (ndarray * nat) :=
  if at_token tokens pos kw then
    match fuel with
    | 0 => OutOfFuel
    | S fuel =>
        '(rhs, pos) ← operand (pos + 1);
        lhs ← fold lhs rhs;
        while_token fuel kw operand fold tokens lhs pos
    end
  else Ok (lhs, pos).

Definition _parse_and (fuel : nat) (expression : parser) : parser :=
  λ tokens pos masks universal,
  '(lhs, pos) ← _parse_not expression tokens pos masks universal;
  while_token fuel (lit "AND")
    (λ pos, _parse_not expression tokens pos masks universal)
    (λ lhs rhs, np_and lhs rhs) tokens lhs pos.

Definition _parse_xor (fuel : nat) (expression : parser) : parser :=
  λ tokens pos masks universal,
  '(lhs, pos) ← _parse_and fuel expression tokens pos masks universal;
  while_token fuel (lit "XOR")
    (λ pos, _parse_and fuel expression tokens pos masks universal)
    (λ lhs rhs, np_xor lhs rhs) tokens lhs pos.

Definition _parse_diff (fuel : nat) (expression : parser) : parser :=
  λ tokens pos masks universal,
  '(lhs, pos) ← _parse_xor fuel expression tokens pos masks universal;
  while_token fuel (lit "DIFF")
    (λ pos, _parse_xor fuel expression tokens pos masks universal)
    (λ lhs rhs, np_and lhs (np_invert rhs)) tokens lhs pos.

Definition _parse_or (fuel : nat) (expression : parser) : parser :=
  λ tokens pos masks universal,
  '(lhs, pos) ← _parse_diff fuel expression tokens pos masks universal;
  while_token fuel (lit "OR")
    (λ pos, _parse_diff fuel expression tokens pos masks universal)
    (λ lhs rhs, np_or lhs rhs) tokens lhs pos.

Fixpoint _parse_expression (fuel : nat) : parser :=
  λ tokens pos masks universal,
  match fuel with
  | 0 => OutOfFuel
  | S fuel => _parse_or fuel (_parse_expression fuel) tokens pos masks universal
  end.

(** [points] stands for [len(self.points)]. *)
Definition _safe_evaluate (points : nat) (expr : str)
    (masks : gmap (list N) (list bool)) : outcome ndarray :=
  let expr := strip expr in
  let universal_mask := np_ones points in
  tokens ← _tokenize expr;
  '(result, _) ← _parse_expression (S (length tokens)) tokens 0 masks universal_mask;
  Ok result.

(** [evaluate_expression]: [points_in_circle k] stands for
    [self.points_in_circle(self.sets[k]['circle'])], the geometry being
    outside this development. The second component is the exception the
    handler printed, if any. *)
Definition evaluate_expression (points : nat) (points_in_circle : str → ndarray)
    (expression : str) : outcome (ndarray * option ValueError) :=
  if bool_decide (expression = []) || bool_decide (strip expression = []) then
    Ok (np_zeros points, None)
  else
    let masks : gmap (list N) (list bool) :=
      <[lit "A" := points_in_circle (lit "A")]>
      (<[lit "B" := points_in_circle (lit "B")]>
      (<[lit "C" := points_in_circle (lit "C")]> ∅)) in
    match _safe_evaluate points expression masks with
    | Ok result => Ok (result, None)
    | Raise e => Ok (np_zeros points, Some e)
    | OutOfFuel => OutOfFuel
    end.

(** ** The evaluator under the recursion limit of the interpreter

    Python gives every call of a method a frame and raises
    [RecursionError] when a call would exceed the limit
    ([sys.getrecursionlimit()], 1000 unless changed, which the program does
    not do). A formula in parentheses takes the parser through seven
    calls, [_parse_expression], [_parse_or], [_parse_diff], [_parse_xor],
    [_parse_and], [_parse_not] and [_parse_atom], before it is back at
    [_parse_expression], so deep nesting runs into the limit. The
    definitions above leave the limit out; these are the same methods with
    [frames], the number of frames that the interpreter still allows at
    the call. The calls into numpy and matplotlib ([np.ones], [np.sum],
    [get_radius]) return before the parser starts and nest a few frames
    at most; the properties below that ask for frames ask for fourteen
    beyond those of the parentheses, which covers them. *)

(** The number of opening parentheses among the tokens. *)
Definition parentheses (tokens : list str) : nat :=
  length (filter (λ token, token = lit "(") tokens).

Module Limited.

(** What a call does under the limit: what it does without it, or it
    raises [RecursionError]. *)
Inductive limited (A : Type) : Type :=
  | Within (r : outcome A)
  | RecursionError.
Arguments Within {A} r.
Arguments RecursionError {A}.

#[global] Instance limited_ret : MRet limited := λ A a, Within (Ok a).
#[global] Instance limited_bind : MBind limited := λ A B f x,
  match x with
  | Within (Ok a) => f a
  | Within (Raise e) => Within (Raise e)
  | Within OutOfFuel => Within OutOfFuel
  | RecursionError => RecursionError
  end.

(** The call of a method: it takes a frame, and its body runs with the
    frames that are left. *)
Definition call {A} (frames : nat) (body : nat → limited A) : limited A :=
  match frames with
  | 0 => RecursionError
  | S frames => body frames
  end.

Abbreviation parser :=
  (nat → list str → nat → gmap (list N) (list bool) → list bool →
   limited (list bool * nat)) (only parsing).

Definition _parse_atom (expression : parser) : parser :=
  λ frames tokens pos masks universal,
  call frames (λ frames,
    match tokens !! pos with
    | None => Within (Raise UnexpectedEnd)
    | Some token =>
        if bool_decide (token = lit "(") then
          '(result, pos) ← expression frames tokens (pos + 1) masks universal;
          if at_token tokens pos (lit ")") then Within (Ok (result, pos + 1))
          else Within (Raise MissingParenthesis)
        else
          match masks !! token with
          | Some mask => Within (Ok (mask, pos + 1))
          | None => Within (Raise (UnexpectedToken token))
          end
    end).

Definition _parse_not (expression : parser) : parser :=
  λ frames tokens pos masks universal,
  call frames (λ frames,
    '(operand, pos) ← _parse_atom expression frames tokens pos masks universal;
    if at_token tokens pos (lit "NOT") then
      result ← Within (np_and universal (np_invert operand));
      Within (Ok (result, pos + 1))
    else Within (Ok (operand, pos))).

(** The loop of the binary tiers; its operand is a call. *)
Fixpoint while_token (fuel : nat) (kw : str)
    (operand : nat → limited (ndarray * nat))
    (fold : ndarray → ndarray → outcome ndarray)
    (tokens : list str) (lhs : ndarray) (pos : nat) : limited (ndarray * nat) :=
  if at_token tokens pos kw then
    match fuel with
    | 0 => Within OutOfFuel
    | S fuel =>
        '(rhs, pos) ← operand (pos + 1);
        lhs ← Within (fold lhs rhs);
        while_token fuel kw operand fold tokens lhs pos
    end
  else Within (Ok (lhs, pos)).

Definition _parse_and (fuel : nat) (expression : parser) : parser :=
  λ frames tokens pos masks universal,
  call frames (λ frames,
    '(lhs, pos) ← _parse_not expression frames tokens pos masks universal;
    while_token fuel (lit "AND")
      (λ pos, _parse_not expression frames tokens pos masks universal)
      (λ lhs rhs, np_and lhs rhs) tokens lhs pos).

Definition _parse_xor (fuel : nat) (expression : parser) : parser :=
  λ frames tokens pos masks universal,
  call frames (λ frames,
    '(lhs, pos) ← _parse_and fuel expression frames tokens pos masks universal;
    while_token fuel (lit "XOR")
      (λ pos, _parse_and fuel expression frames tokens pos masks universal)
      (λ lhs rhs, np_xor lhs rhs) tokens lhs pos).

Definition _parse_diff (fuel : nat) (expression : parser) : parser :=
  λ frames tokens pos masks universal,
  call frames (λ frames,
    '(lhs, pos) ← _parse_xor fuel expression frames tokens pos masks universal;
    while_token fuel (lit "DIFF")
      (λ pos, _parse_xor fuel expression frames tokens pos masks universal)
      (λ lhs rhs, np_and lhs (np_invert rhs)) tokens lhs pos).

Definition _parse_or (fuel : nat) (expression : parser) : parser :=
  λ frames tokens pos masks universal,
  call frames (λ frames,
    '(lhs, pos) ← _parse_diff fuel expression frames tokens pos masks universal;
    while_token fuel (lit "OR")
      (λ pos, _parse_diff fuel expression frames tokens pos masks universal)
      (λ lhs rhs, np_or lhs rhs) tokens lhs pos).

Fixpoint _parse_expression (fuel : nat) : parser :=
  λ frames tokens pos masks universal,
  match fuel with
  | 0 => Within OutOfFuel
  | S fuel =>
      call frames (λ frames,
        _parse_or fuel (_parse_expression fuel) frames tokens pos masks universal)
  end.

(** [_safe_evaluate], [frames] being what the interpreter allows to the
    calls it makes. *)
Definition _safe_evaluate (frames points : nat) (expr : str)
    (masks : gmap (list N) (list bool)) : limited ndarray :=
  let expr := strip expr in
  let universal_mask := np_ones points in
  tokens ← call frames (λ _, Within (_tokenize expr));
  '(result, _) ← _parse_expression (S (length tokens)) frames tokens 0 masks
                   universal_mask;
  Within (Ok result).

(** The exception that [evaluate_expression] catches and prints. *)
Inductive Caught : Type :=
  | Value (e : ValueError)
  | Recursion.

(** [evaluate_expression], [frames] being what the interpreter allows to
    the calls it makes: [except Exception] catches the [RecursionError] as
    it catches a [ValueError]. *)
Definition evaluate_expression (frames points : nat)
    (points_in_circle : str → ndarray) (expression : str) :
    outcome (ndarray * option Caught) :=
  if bool_decide (expression = []) || bool_decide (strip expression = []) then
    Ok (np_zeros points, None)
  else
    let masks : gmap (list N) (list bool) :=
      <[lit "A" := points_in_circle (lit "A")]>
      (<[lit "B" := points_in_circle (lit "B")]>
      (<[lit "C" := points_in_circle (lit "C")]> ∅)) in
    match call frames (λ frames, _safe_evaluate frames points expression masks) with
    | Within (Ok result) => Ok (result, None)
    | Within (Raise e) => Ok (np_zeros points, Some (Value e))
    | Within OutOfFuel => OutOfFuel
    | RecursionError => Ok (np_zeros points, Some Recursion)
    end.

End Limited.

(** ** The grammar of the specification

  [[
  Or   := Diff ( 'Or' Diff )*      Diff := Xor ( 'Diff' Xor )*
  Xor  := And ( 'Xor' And )*       And  := Not ( 'And' Not )*
  Not  := Atom [ 'Not' ]           Atom := SetRef | '(' Expression ')'
  ]]
  as syntax trees with a tier, and its folding rules. The parser builds no
  tree; the trees are what its results are compared with. *)
Module Grammar.

Inductive binop : Type := And | Xor | Diff | Or.

Inductive tree : Type :=
  | SetRef (name : str)
  | Group (e : tree)
  | Negated (e : tree)
  | Binary (op : binop) (l r : tree).

Definition keyword (op : binop) : str :=
  match op with
  | And => lit "AND" | Xor => lit "XOR" | Diff => lit "DIFF" | Or => lit "OR"
  end.

(** Tiers, tightest first: atom 0, postfix Not 1, And 2, Xor 3, Diff 4, Or 5. *)
Definition op_tier (op : binop) : nat :=
  match op with And => 2 | Xor => 3 | Diff => 4 | Or => 5 end.

Definition tier (e : tree) : nat :=
  match e with
  | SetRef _ | Group _ => 0
  | Negated _ => 1
  | Binary op _ _ => op_tier op
  end.

(** A tree of the grammar: a chain of one tier is nested to the left, its
    operands come from the next tighter tier, Not follows an atom. *)
Fixpoint grammatical (e : tree) : Prop :=
  match e with
  | SetRef name => name ≠ lit "("
  | Group e => grammatical e
  | Negated e => tier e = 0 ∧ grammatical e
  | Binary op l r =>
      tier l ≤ op_tier op ∧ tier r < op_tier op ∧ grammatical l ∧ grammatical r
  end.

(** The token sequence of a tree. *)
Fixpoint tokens_of (e : tree) : list str :=
  match e with
  | SetRef name => [name]
  | Group e => lit "(" :: tokens_of e ++ [lit ")"]
  | Negated e => tokens_of e ++ [lit "NOT"]
  | Binary op l r => tokens_of l ++ keyword op :: tokens_of r
  end.

(** The folding rule of a binary tier. *)
Definition fold (op : binop) (lhs rhs : ndarray) : outcome ndarray :=
  match op with
  | And => np_and lhs rhs
  | Xor => np_xor lhs rhs
  | Diff => np_and lhs (np_invert rhs)
  | Or => np_or lhs rhs
  end.

(** The value of a tree, operands left to right. *)
Fixpoint denote (masks : gmap (list N) (list bool)) (universal : ndarray)
    (e : tree) : outcome ndarray :=
  match e with
  | SetRef name =>
      match masks !! name with
      | Some mask => Ok mask
      | None => Raise (UnexpectedToken name)
      end
  | Group e => denote masks universal e
  | Negated e =>
      operand ← denote masks universal e;
      np_and universal (np_invert operand)
  | Binary op l r =>
      lhs ← denote masks universal l;
      rhs ← denote masks universal r;
      fold op lhs rhs
  end.

(** Whether the last token of the tree is a Not that the tree consumed. *)
Fixpoint negated_last (e : tree) : bool :=
  match e with
  | SetRef _ | Group _ => false
  | Negated _ => true
  | Binary _ _ r => negated_last r
  end.

(** A token sequence that stops where the grammar requires one more
    token: where an operand is due ([Missing]), or where a group is to be
    closed ([Unclosed]). *)
Inductive partial : Type :=
  | Missing
  | After (e : tree) (op : binop) (t : partial)
  | Open (t : partial)
  | Unclosed (e : tree).

Fixpoint partial_tokens (t : partial) : list str :=
  match t with
  | Missing => []
  | After e op t => tokens_of e ++ keyword op :: partial_tokens t
  | Open t => lit "(" :: partial_tokens t
  | Unclosed e => lit "(" :: tokens_of e
  end.

Definition partial_tier (t : partial) : nat :=
  match t with
  | After e op _ => tier e `max` op_tier op
  | _ => 0
  end.

(** The error the grammar assigns to it. *)
Fixpoint failure (t : partial) : ValueError :=
  match t with
  | Missing => UnexpectedEnd
  | After _ _ t | Open t => failure t
  | Unclosed _ => MissingParenthesis
  end.

(** Its complete parts are trees of the grammar, and what follows an
    operator belongs to a tighter tier than the operator. *)
Fixpoint partial_shape (t : partial) : Prop :=
  match t with
  | Missing => True
  | After e op t => grammatical e ∧ partial_tier t < op_tier op ∧ partial_shape t
  | Open t => partial_shape t
  | Unclosed e => grammatical e
  end.

(** The set names of a tree and of a partial stream. *)
Fixpoint names (e : tree) : list str :=
  match e with
  | SetRef name => [name]
  | Group e | Negated e => names e
  | Binary _ l r => names l ++ names r
  end.

Fixpoint partial_names (t : partial) : list str :=
  match t with
  | Missing => []
  | After e _ t => names e ++ partial_names t
  | Open t => partial_names t
  | Unclosed e => names e
  end.

(** The tokens after which an operand is due: an opening parenthesis and
    the binary operators. *)
Definition opens (t : str) : bool :=
  bool_decide (t = lit "(")
  || bool_decide (t ∈ keyword <$> [And; Xor; Diff; Or]).

(** A token sequence that stops where an operand is due: it is empty or its
    last token opens. *)
Definition operand_due (p : list str) : bool :=
  match last p with
  | None => true
  | Some t => opens t
  end.

(** Set names that are not tokens of the grammar. *)
Definition proper (l : list str) : Prop := Forall (λ name, opens name = false) l.

End Grammar.

(** ** The tiers of the parser, on one token list *)

Section tiers.
Context (tokens : list (list N)) (masks : gmap (list N) (list bool))
  (universal : list bool).

Import Grammar.

Definition op_at (L : nat) : binop :=
  match L with 2 => And | 3 => Xor | 4 => Diff | _ => Or end.

(** The parser of tier [L] inside [_parse_expression (S fuel)]. *)
Definition tier_parser (L fuel pos : nat) : outcome (ndarray * nat) :=
  match L with
  | 0 => _parse_atom (_parse_expression fuel) tokens pos masks universal
  | 1 => _parse_not (_parse_expression fuel) tokens pos masks universal
  | 2 => _parse_and fuel (_parse_expression fuel) tokens pos masks universal
  | 3 => _parse_xor fuel (_parse_expression fuel) tokens pos masks universal
  | 4 => _parse_diff fuel (_parse_expression fuel) tokens pos masks universal
  | _ => _parse_or fuel (_parse_expression fuel) tokens pos masks universal
  end.

(** The loop of binary tier [L]. *)
Definition tier_loop (L fuel : nat) (lhs : ndarray) (pos : nat) :
    outcome (ndarray * nat) :=
  while_token fuel (keyword (op_at L)) (tier_parser (L - 1) fuel)
    (fold (op_at L)) tokens lhs pos.

End tiers.

(** ** What it is for the parser to follow the grammar *)

Section grammar.
Context (masks : gmap (list N) (list bool)) (universal : list bool).

Import Grammar.

(** What may follow the tokens of [e] without being consumed by tier [L]
    or a tighter one. *)
Definition follows (L : nat) (e : tree) (rest : list (list N)) : Prop :=
  match rest with
  | [] => True
  | t :: _ =>
      (1 ≤ L → t = lit "NOT" → negated_last e = true)
      ∧ (∀ op, op_tier op < L → t ≠ keyword op)
  end.

(** What tier [L] does once it holds the value of a complete operand. *)
Definition finish (tokens : list (list N)) (L fuel : nat) (v : ndarray)
    (pos : nat) : outcome (ndarray * nat) :=
  if decide (2 ≤ L) then tier_loop tokens masks universal L fuel v pos
  else Ok (v, pos).

Definition parses (e : tree) (L : nat) : Prop :=
  ∀ fuel pre rest,
    length (pre ++ tokens_of e ++ rest) ≤ fuel + length pre →
    follows L e rest →
    tier_parser (pre ++ tokens_of e ++ rest) masks universal L fuel (length pre)
    = v ← denote masks universal e;
      finish (pre ++ tokens_of e ++ rest) L fuel v
        (length pre + length (tokens_of e)).

(** Tokens after a complete expression that no tier takes up: anything but
    a binary operator, and a Not only after a Not. *)
Definition left_over (e : tree) (rest : list (list N)) : Prop :=
  match rest with
  | [] => True
  | t :: _ => (∀ op, t ≠ keyword op) ∧ (t = lit "NOT" → negated_last e = true)
  end.

Definition valued (e : tree) : Prop := ∃ v, denote masks universal e = Ok v.

Fixpoint partial_ok (t : partial) : Prop :=
  match t with
  | Missing => True
  | After e op t =>
      grammatical e ∧ valued e ∧ partial_tier t < op_tier op ∧ partial_ok t
  | Open t => partial_ok t
  | Unclosed e => grammatical e ∧ valued e
  end.

Definition fails (t : partial) (L : nat) : Prop :=
  ∀ fuel pre,
    length (pre ++ partial_tokens t) ≤ fuel + length pre →
    tier_parser (pre ++ partial_tokens t) masks universal L fuel (length pre)
    = Raise (failure t).

End grammar.

(** ** What the parser has recognised when it returns *)

Section recognition.
Context (masks : gmap (list N) (list bool)) (universal : list bool).

Import Grammar.

(** Tier [L] went from [pos] to [pos'] over the tokens of the tree [e] and
    holds its value; the token at [pos'], if any, is none that the tier or
    a tighter one takes up. *)
Definition recognised (tokens : list (list N)) (L pos pos' : nat) (v : ndarray)
    (e : tree) : Prop :=
  grammatical e ∧ tier e ≤ L
  ∧ drop pos tokens = tokens_of e ++ drop pos' tokens
  ∧ pos' = pos + length (tokens_of e)
  ∧ denote masks universal e = Ok v
  ∧ follows (if decide (L = 0) then 0 else S L) e (drop pos' tokens).

End recognition.

(** ** Membership maps over the universe *)

(** Every mask has one entry per point (the invariant of the data model). *)
Definition membership_map (points : nat) (masks : gmap (list N) (list bool)) :
    Prop :=
  map_Forall (λ _ mask, length mask = points) masks.

(** An outcome over the universe: a vector with one entry per point, or an
    error other than numpy's. *)
Definition sized {A} (points : nat) (vector : A → ndarray) (r : outcome A) : Prop :=
  match r with
  | Ok a => length (vector a) = points
  | Raise (BroadcastError _ _) => False
  | _ => True
  end.

(** The names have an entry. *)
Definition known (masks : gmap (list N) (list bool)) (l : list (list N)) : Prop :=
  Forall (λ name, is_Some (masks !! name)) l.

(** ** The alphabet of the tokenizer *)

(** The characters [_tokenize] accepts besides whitespace. *)
Definition alphabet : str := lit "ABC.U&^-()".

Definition recognized (c : char) : bool :=
  isspace c || bool_decide (c ∈ alphabet).

(** Index and character of the first one it does not accept. *)
Definition first_unknown (expr : str) : option (nat * char) :=
  list_find (λ c, recognized c = false) expr.

(** The token [_tokenize] appends for a character of the alphabet. *)
Definition token_of (c : char) : str :=
  if bool_decide (c ∈ lit "ABC") then [c]
  else if bool_decide (c = ch ".") then lit "NOT"
  else if bool_decide (c = ch "U") then lit "OR"
  else if bool_decide (c = ch "&") then lit "AND"
  else if bool_decide (c = ch "^") then lit "XOR"
  else if bool_decide (c = ch "-") then lit "DIFF"
  else if bool_decide (c = ch "(") then lit "("
  else lit ")".

(** The characters of a formula that are not whitespace. *)
Definition visible (expr : str) : str := filter (λ c, isspace c = false) expr.

(** ** The sets a formula uses *)

(** [_get_used_sets]: [for char in expression: if char in 'ABC':
    used.add(char)], the elements being one-character strings. *)
Definition _get_used_sets (expression : str) : gset (list N) :=
  foldl (λ used char,
           if bool_decide (char ∈ lit "ABC") then used ∪ {[ [char] ]} else used)
        ∅ expression.

(** The keys of the three circles. *)
Definition set_names : list str := [lit "A"; lit "B"; lit "C"].

(** ** Formulas as sets of points *)

(** The connective of a binary operator on the membership of one point. *)
Definition connective (op : Grammar.binop) (x y : bool) : bool :=
  match op with
  | Grammar.And => x && y
  | Grammar.Xor => xorb x y
  | Grammar.Diff => x && negb y
  | Grammar.Or => x || y
  end.

(** Whether a point belongs to the set a formula describes, given whether
    it belongs to each named set. *)
Fixpoint member (inside : str → bool) (e : Grammar.tree) : bool :=
  match e with
  | Grammar.SetRef name => inside name
  | Grammar.Group e => member inside e
  | Grammar.Negated e => negb (member inside e)
  | Grammar.Binary op l r => connective op (member inside l) (member inside r)
  end.

(** Whether point [i] belongs to the set [name] according to the masks. *)
Definition inside_at (mask_of : str → ndarray) (i : nat) (name : str) : bool :=
  default false (mask_of name !! i).

(** [f] is the text of the formula [e] over the sets A, B and C. *)
Definition formula (f : str) (e : Grammar.tree) : Prop :=
  _tokenize f = Ok (Grammar.tokens_of e) ∧ Grammar.grammatical e
  ∧ Forall (λ name, name ∈ set_names) (Grammar.names e).

(** A formula in parentheses. *)
Definition paren (f : str) : str := lit "(" ++ f ++ lit ")".

(** The character of a binary operator. *)
Definition symbol (op : Grammar.binop) : str :=
  match op with
  | Grammar.And => lit "&" | Grammar.Xor => lit "^"
  | Grammar.Diff => lit "-" | Grammar.Or => lit "U"
  end.

(** ** The tiers of the parser under the recursion limit *)

Section limited_tiers.
Context (tokens : list (list N)) (masks : gmap (list N) (list bool))
  (universal : list bool).

(** The parser of tier [L] inside [Limited._parse_expression (S fuel)],
    called with [frames] left. *)
Definition limited_tier_parser (L fuel frames pos : nat) :
    Limited.limited (ndarray * nat) :=
  match L with
  | 0 => Limited._parse_atom (Limited._parse_expression fuel) frames tokens pos
           masks universal
  | 1 => Limited._parse_not (Limited._parse_expression fuel) frames tokens pos
           masks universal
  | 2 => Limited._parse_and fuel (Limited._parse_expression fuel) frames tokens pos
           masks universal
  | 3 => Limited._parse_xor fuel (Limited._parse_expression fuel) frames tokens pos
           masks universal
  | 4 => Limited._parse_diff fuel (Limited._parse_expression fuel) frames tokens pos
           masks universal
  | _ => Limited._parse_or fuel (Limited._parse_expression fuel) frames tokens pos
           masks universal
  end.

End limited_tiers.

(** [r'] is what [r] becomes with more frames. *)
Definition more_frames {A} (r r' : Limited.limited A) : Prop :=
  r = Limited.RecursionError ∨ r = r'.

(** What [Limited.evaluate_expression] answers where the limit does not
    intervene. *)
Definition uncaught (r : outcome (ndarray * option ValueError)) :
    outcome (ndarray * option Limited.Caught) :=
  match r with
  | Ok (result, e) => Ok (result, Limited.Value <$> e)
  | Raise e => Raise e
  | OutOfFuel => OutOfFuel
  end.

(** A set name in [n] pairs of parentheses. *)
Definition nested (n : nat) (name : str) : str := Nat.iter n paren name.

(** A membership map over a universe of four points. *)
Definition sample_masks : gmap (list N) (list bool) :=
  <[lit "A" := [true; true; false; false]]>
  (<[lit "B" := [true; false; true; false]]>
  (<[lit "C" := [true; false; false; true]]> ∅)).

(** * The visualizer: its state and its event handlers

    The part of [SetVisualizer] around the evaluator: the circles and
    their labels, the plot, and the handlers of the mouse, the text box
    and the reset button. Of matplotlib the state keeps what the code reads
    back or sets: the centre, radius and visibility of a circle, the
    position and visibility of a label, the scatter of the result, the
    title, the text of the text box, and the lines printed. Coordinates
    are binary64 floats, the arithmetic of Python and numpy. The grid of
    [create_point_grid] is a parameter of [__init__], and the hit test
    [Circle.contains] and the question whether [TextBox.set_val] runs the
    submit callback are parameters of the handlers that use them. *)

Module Visualizer.

(** A pair of coordinates. The integer coordinates of [SET_CONFIG] are the
    floats they convert to. *)
Abbreviation point := (float * float)%type (only parsing).

Record Circle : Type :=
  { center : point; radius : float; circle_visible : bool }.

Record Text : Type := { position : point; text_visible : bool }.

(** A value of [self.sets]: the dict with the keys ['circle'], ['dragging'],
    ['offset'] and ['text']. *)
Record SetEntry : Type :=
  { circle : Circle; dragging : bool; offset : point; text : Text }.

(** The axes of the figure: [self.ax], and those of the text box and of
    the reset button. *)
Inductive Axes : Type := MainAxes | TextBoxAxes | ButtonAxes.

Record MouseEvent : Type :=
  { inaxes : option Axes; xdata : float; ydata : float }.

Record Config : Type := { pos : point; config_radius : float; color : str }.

Definition SET_CONFIG : list (str * Config) :=
  [ (lit "A", {| pos := ((-2)%float, 0%float); config_radius := 1.5%float;
                 color := lit "darkred" |});
    (lit "B", {| pos := (2%float, 0%float); config_radius := 1.5%float;
                 color := lit "darkblue" |});
    (lit "C", {| pos := (0%float, 2%float); config_radius := 1.5%float;
                 color := lit "darkgreen" |}) ].

Definition DEFAULT_EXPRESSION : str := lit "A U B".

(** [self]. The dict [self.sets] is the list of its items in insertion
    order, the order in which [for key in self.sets] visits them. *)
Record SetVisualizer : Type :=
  { points : list point;
    text_box : str;
    result_scatter : option (list point);
    current_expression : str;
    title : str;
    sets : list (str * SetEntry);
    stdout : list str }.

Definition with_text_box (v : str) (self : SetVisualizer) : SetVisualizer :=
  {| points := points self; text_box := v;
     result_scatter := result_scatter self;
     current_expression := current_expression self; title := title self;
     sets := sets self; stdout := stdout self |}.

Definition with_result_scatter (v : option (list point)) (self : SetVisualizer) :
    SetVisualizer :=
  {| points := points self; text_box := text_box self; result_scatter := v;
     current_expression := current_expression self; title := title self;
     sets := sets self; stdout := stdout self |}.

Definition with_current_expression (v : str) (self : SetVisualizer) :
    SetVisualizer :=
  {| points := points self; text_box := text_box self;
     result_scatter := result_scatter self; current_expression := v;
     title := title self; sets := sets self; stdout := stdout self |}.

Definition with_title (v : str) (self : SetVisualizer) : SetVisualizer :=
  {| points := points self; text_box := text_box self;
     result_scatter := result_scatter self;
     current_expression := current_expression self; title := v;
     sets := sets self; stdout := stdout self |}.

Definition with_sets (v : list (str * SetEntry)) (self : SetVisualizer) :
    SetVisualizer :=
  {| points := points self; text_box := text_box self;
     result_scatter := result_scatter self;
     current_expression := current_expression self; title := title self;
     sets := v; stdout := stdout self |}.

Definition with_stdout (v : list str) (self : SetVisualizer) : SetVisualizer :=
  {| points := points self; text_box := text_box self;
     result_scatter := result_scatter self;
     current_expression := current_expression self; title := title self;
     sets := sets self; stdout := v |}.

(** ** Exceptions and the outcome of a handler *)

(** The exceptions the code can meet: the [ValueError]s of the evaluator,
    the [KeyError] of [self.sets[key]], and the [IndexError] of indexing
    the points with a mask of another length. *)
Inductive Exception : Type :=
  | Value (e : ValueError)
  | KeyError (key : str)
  | IndexError (mask_length points_length : nat).

(** [str(e)] *)
Definition text_of (e : Exception) : str :=
  match e with
  | Value e => message e
  | KeyError key => lit "'" ++ key ++ lit "'"
  | IndexError m n =>
      lit "boolean index did not match indexed array along axis 0; "
      ++ lit "size of axis is " ++ lit (pretty n)
      ++ lit " but size of corresponding boolean axis is " ++ lit (pretty m)
  end.

(** A handler returns, leaves with an exception nothing catches, or the
    model of the parser ran out of fuel. *)
Inductive run (A : Type) : Type :=
  | Returns (a : A)
  | Uncaught (e : Exception)
  | Unfinished.
Arguments Returns {A} a.
Arguments Uncaught {A} e.
Arguments Unfinished {A}.

#[global] Instance run_ret : MRet run := @Returns.
#[global] Instance run_bind : MBind run := λ A B f x,
  match x with
  | Returns a => f a
  | Uncaught e => Uncaught e
  | Unfinished => Unfinished
  end.

(** ** The dict [self.sets] *)

(** [d[key]] *)
Fixpoint getitem (key : str) (d : list (str * SetEntry)) : option SetEntry :=
  match d with
  | [] => None
  | (k, entry) :: d => if decide (k = key) then Some entry else getitem key d
  end.

(** A change of the value [d[key]] in place. *)
Fixpoint update (key : str) (f : SetEntry → SetEntry) (d : list (str * SetEntry)) :
    list (str * SetEntry) :=
  match d with
  | [] => []
  | (k, entry) :: d =>
      if decide (k = key) then (k, f entry) :: d else (k, entry) :: update key f d
  end.

(** [for key in d: body], the body changing the value [d[key]] in place. *)
Definition for_each (body : str → SetEntry → SetEntry) (d : list (str * SetEntry)) :
    list (str * SetEntry) :=
  (λ item, (item.1, body item.1 item.2)) <$> d.

(** [circle.set_visible(v); text.set_visible(v)] *)
Definition set_visible (v : bool) (entry : SetEntry) : SetEntry :=
  {| circle := {| center := center (circle entry); radius := radius (circle entry);
                  circle_visible := v |};
     dragging := dragging entry; offset := offset entry;
     text := {| position := position (text entry); text_visible := v |} |}.

(** [circle.center = p; text.set_position(p)] *)
Definition move_to (p : point) (entry : SetEntry) : SetEntry :=
  {| circle := {| center := p; radius := radius (circle entry);
                  circle_visible := circle_visible (circle entry) |};
     dragging := dragging entry; offset := offset entry;
     text := {| position := p; text_visible := text_visible (text entry) |} |}.

(** ** The geometry *)

(** [points_in_circle]: [np.sum((self.points - center) ** 2, axis=1)
    <= radius ** 2], a square being the product of the number with
    itself. For the radius Python takes the power function of the
    platform, which gives this product for 1.5, the radius of every circle
    of the program; no property below rests on the square of another
    radius. *)
Definition points_in_circle (self : SetVisualizer) (circle : Circle) : ndarray :=
  let center := center circle in
  let radius := radius circle in
  (λ p : point,
     let dx := (p.1 - center.1)%float in
     let dy := (p.2 - center.2)%float in
     (dx * dx + dy * dy <=? radius * radius)%float) <$> points self.

(** ** Evaluation in the state *)

(** [print(f'Ошибка в выражении: {e}')] *)
Definition error_prefix : str :=
  [1054; 1096; 1080; 1073; 1082; 1072; 32; 1074; 32; 1074; 1099; 1088; 1072;
   1078; 1077; 1085; 1080; 1080; 58; 32]%N.

Definition print (line : str) (self : SetVisualizer) : SetVisualizer :=
  with_stdout (stdout self ++ [line]) self.

(** [evaluate_expression] with [self] in place: the masks are those of the
    three circles, and every exception is caught, printed and answered by
    the empty result; that includes the [KeyError] of a missing set. *)
Definition evaluate_expression (self : SetVisualizer) (expression : str) :
    run (ndarray * SetVisualizer) :=
  let failed (e : Exception) : run (ndarray * SetVisualizer) :=
    Returns (np_zeros (length (points self)),
             print (error_prefix ++ text_of e) self) in
  if bool_decide (expression = []) || bool_decide (strip expression = []) then
    Returns (np_zeros (length (points self)), self)
  else
    match getitem (lit "A") (sets self) with
    | None => failed (KeyError (lit "A"))
    | Some a =>
    match getitem (lit "B") (sets self) with
    | None => failed (KeyError (lit "B"))
    | Some b =>
    match getitem (lit "C") (sets self) with
    | None => failed (KeyError (lit "C"))
    | Some c =>
        let masks : gmap (list N) (list bool) :=
          <[lit "A" := points_in_circle self (circle a)]>
          (<[lit "B" := points_in_circle self (circle b)]>
          (<[lit "C" := points_in_circle self (circle c)]> ∅)) in
        match _safe_evaluate (length (points self)) expression masks with
        | Ok result => Returns (result, self)
        | Raise e => failed (Value e)
        | OutOfFuel => Unfinished
        end
    end end end.

(** ** The plot *)

(** [_update_circle_visibility] *)
Definition _update_circle_visibility (expression : str) (self : SetVisualizer) :
    SetVisualizer :=
  let used_sets := _get_used_sets expression in
  with_sets
    (for_each (λ key entry,
                 let is_used := bool_decide (key ∈ used_sets) in
                 set_visible is_used entry) (sets self))
    self.

(** [a[mask]] for a boolean mask: the rows where the mask holds, and an
    [IndexError] when the mask has another length than [a]. *)
Definition boolean_index (a : list point) (mask : ndarray) : run (list point) :=
  if decide (length mask = length a) then
    Returns ((filter (λ pm : point * bool, pm.2 = true) (zip a mask)).*1)
  else Uncaught (IndexError (length mask) (length a)).

(** ['Визуализатор операций над множествами\nФормула: '] *)
Definition title_prefix : str :=
  [1042; 1080; 1079; 1091; 1072; 1083; 1080; 1079; 1072; 1090; 1086; 1088; 32;
   1086; 1087; 1077; 1088; 1072; 1094; 1080; 1081; 32; 1085; 1072; 1076; 32;
   1084; 1085; 1086; 1078; 1077; 1089; 1090; 1074; 1072; 1084; 1080; 10; 1060;
   1086; 1088; 1084; 1091; 1083; 1072; 58; 32]%N.

(** [' | Точек: '] *)
Definition count_prefix : str :=
  [32; 124; 32; 1058; 1086; 1095; 1077; 1082; 58; 32]%N.

(** The title [__init__] sets:
    ['Визуализатор операций над множествами\n(Перетаскивайте круги мышью!)'] *)
Definition initial_title : str :=
  [1042; 1080; 1079; 1091; 1072; 1083; 1080; 1079; 1072; 1090; 1086; 1088; 32;
   1086; 1087; 1077; 1088; 1072; 1094; 1080; 1081; 32; 1085; 1072; 1076; 32;
   1084; 1085; 1086; 1078; 1077; 1089; 1090; 1074; 1072; 1084; 1080; 10; 40;
   1055; 1077; 1088; 1077; 1090; 1072; 1089; 1082; 1080; 1074; 1072; 1081; 1090;
   1077; 32; 1082; 1088; 1091; 1075; 1080; 32; 1084; 1099; 1096; 1100; 1102; 33;
   41]%N.

(** [update_plot]; [draw_idle] leaves no trace in the state. *)
Definition update_plot (expression : option str) (self : SetVisualizer) :
    run SetVisualizer :=
  let '(expression, self) :=
    match expression with
    | None => (current_expression self, self)
    | Some expression => (expression, with_current_expression expression self)
    end in
  let self :=
    match result_scatter self with
    | Some _ => with_result_scatter None self
    | None => self
    end in
  if negb (bool_decide (expression = []))
     && negb (bool_decide (strip expression = [])) then
    let self := _update_circle_visibility expression self in
    '(result_mask, self) ← evaluate_expression self expression;
    result_points ← boolean_index (points self) result_mask;
    let point_count := length result_points in
    let self :=
      if bool_decide (0 < point_count) then
        with_result_scatter (Some result_points) self
      else self in
    let title := title_prefix ++ expression in
    let title :=
      if bool_decide (0 < point_count) then
        title ++ count_prefix ++ lit (pretty point_count)
      else title in
    Returns (with_title title self)
  else
    Returns (with_sets (for_each (λ key entry, set_visible true entry) (sets self))
               self).

(** [on_formula_submit] *)
Definition on_formula_submit (text : str) (self : SetVisualizer) :
    run SetVisualizer :=
  update_plot (Some text) self.

(** ** The mouse *)

(** The loop of [on_press] over the items of [self.sets], up to its
    [break]. *)
Fixpoint on_press_loop (contains : Circle → MouseEvent → bool) (event : MouseEvent)
    (d : list (str * SetEntry)) : list (str * SetEntry) :=
  match d with
  | [] => []
  | (key, entry) :: d =>
      let circle := circle entry in
      if contains circle event then
        (key, {| circle := circle; dragging := true;
                 offset := ((center circle).1 - xdata event,
                            (center circle).2 - ydata event)%float;
                 text := text entry |}) :: d
      else (key, entry) :: on_press_loop contains event d
  end.

(** [on_press] *)
Definition on_press (contains : Circle → MouseEvent → bool) (event : MouseEvent)
    (self : SetVisualizer) : SetVisualizer :=
  match inaxes event with
  | Some MainAxes => with_sets (on_press_loop contains event (sets self)) self
  | _ => self
  end.

(** The circle and the label of a dragged set under the pointer at
    [event]. *)
Definition dragged (event : MouseEvent) (entry : SetEntry) : SetEntry :=
  move_to ((xdata event + (offset entry).1)%float,
           (ydata event + (offset entry).2)%float) entry.

(** The loop of [on_motion] up to its [break]: the items after the first
    dragged set has moved, or nothing when no set is dragged and the plot
    is left alone. *)
Fixpoint on_motion_loop (event : MouseEvent) (d : list (str * SetEntry)) :
    option (list (str * SetEntry)) :=
  match d with
  | [] => None
  | (key, entry) :: d =>
      if dragging entry then Some ((key, dragged event entry) :: d)
      else (λ d, (key, entry) :: d) <$> on_motion_loop event d
  end.

(** [on_motion] *)
Definition on_motion (event : MouseEvent) (self : SetVisualizer) :
    run SetVisualizer :=
  match inaxes event with
  | Some MainAxes =>
      match on_motion_loop event (sets self) with
      | Some d => update_plot None (with_sets d self)
      | None => Returns self
      end
  | _ => Returns self
  end.

(** [on_release] *)
Definition on_release (event : MouseEvent) (self : SetVisualizer) : SetVisualizer :=
  with_sets
    (for_each (λ key entry,
                 {| circle := circle entry; dragging := false;
                    offset := offset entry; text := text entry |}) (sets self))
    self.

(** ** The reset button *)

(** The loop of [reset_event] over [SET_CONFIG.items()]. *)
Fixpoint reset_loop (config : list (str * Config)) (d : list (str * SetEntry)) :
    run (list (str * SetEntry)) :=
  match config with
  | [] => Returns d
  | (key, config) :: rest =>
      match getitem key d with
      | None => Uncaught (KeyError key)
      | Some _ => reset_loop rest (update key (move_to (pos config)) d)
      end
  end.

(** [self.text_box.set_val(val)]: the text box takes the text, and
    where [submits] says so for the old and the new text, it runs its
    submit callback, [on_formula_submit]. *)
Definition set_val (submits : str → str → bool) (val : str)
    (self : SetVisualizer) : run SetVisualizer :=
  let fires := submits (text_box self) val in
  let self := with_text_box val self in
  if fires then on_formula_submit val self else Returns self.

(** [reset_event] *)
Definition reset_event (submits : str → str → bool) (event : MouseEvent)
    (self : SetVisualizer) : run SetVisualizer :=
  d ← reset_loop SET_CONFIG (sets self);
  let self := with_sets d self in
  self ← set_val submits DEFAULT_EXPRESSION self;
  update_plot (Some DEFAULT_EXPRESSION) self.

(** ** Construction *)

(** [__init__], the grid being the one [create_point_grid] computes. *)
Definition __init__ (grid : list point) : run SetVisualizer :=
  let sets :=
    (λ item : str * Config,
       let config := item.2 in
       (item.1,
        {| circle := {| center := pos config; radius := config_radius config;
                        circle_visible := true |};
           dragging := false; offset := (0%float, 0%float);
           text := {| position := pos config; text_visible := true |} |}))
    <$> SET_CONFIG in
  update_plot (Some DEFAULT_EXPRESSION)
    {| points := grid; text_box := DEFAULT_EXPRESSION; result_scatter := None;
       current_expression := []; title := initial_title; sets := sets;
       stdout := [] |}.

End Visualizer.

(** ** The running program and what holds of its states *)

Section program.
Local Abbreviation formula_result := evaluate_expression (only parsing).
Import Visualizer.
Context (contains : Circle → MouseEvent → bool) (submits : str → str → bool).

(** One event: [connect_events] and [setup_ui] attach the five handlers
    to the mouse, the text box and the reset button. *)
Inductive step (self : SetVisualizer) : SetVisualizer → Prop :=
  | step_submit text self' :
      on_formula_submit text self = Returns self' → step self self'
  | step_press event : step self (on_press contains event self)
  | step_motion event self' :
      on_motion event self = Returns self' → step self self'
  | step_release event : step self (on_release event self)
  | step_reset event self' :
      reset_event submits event self = Returns self' → step self self'.

(** The states of a visualizer built on [grid]. *)
Inductive reachable (grid : list (float * float)) : SetVisualizer → Prop :=
  | reachable_init self : __init__ grid = Returns self → reachable grid self
  | reachable_step self self' :
      reachable grid self → step self self' → reachable grid self'.

(** The keys of [self.sets], in order. *)
Definition keys (self : SetVisualizer) : list str := (sets self).*1.

(** The mask of the circle of [key]. *)
Definition circle_mask (self : SetVisualizer) (key : str) : ndarray :=
  match getitem key (sets self) with
  | Some entry => points_in_circle self (circle entry)
  | None => []
  end.

(** The result of [evaluate_expression] in a state and the lines it
    prints. *)
Definition evaluation (self : SetVisualizer) (expression : str) :
    run (ndarray * list str) :=
  '(mask, self') ← Visualizer.evaluate_expression self expression;
  Returns (mask, drop (length (stdout self)) (stdout self')).

(** The rows of [a] where the mask holds. *)
Definition rows (a : list (float * float)) (mask : ndarray) : list (float * float) :=
  (filter (λ pm : float * float * bool, pm.2 = true) (zip a mask)).*1.

(** The grid points that the formula selects for the circles as they
    are. *)
Definition selected (self : SetVisualizer) (expression : str) :
    list (float * float) :=
  match formula_result (length (points self)) (circle_mask self) expression with
  | Ok (mask, _) => rows (points self) mask
  | _ => []
  end.

(** The scatter of a result: none when no point is selected. *)
Definition scatter_of (result_points : list (float * float)) :
    option (list (float * float)) :=
  match result_points with
  | [] => None
  | _ => Some result_points
  end.

(** The title [update_plot] composes for a formula and its result. *)
Definition title_of (expression : str) (result_points : list (float * float)) : str :=
  match result_points with
  | [] => title_prefix ++ expression
  | _ => (title_prefix ++ expression) ++ count_prefix
         ++ lit (pretty (length result_points))
  end.

(** Whether [update_plot] takes the formula for empty. *)
Definition blank (expression : str) : bool :=
  bool_decide (expression = []) || bool_decide (strip expression = []).

(** Whether [update_plot] shows the circle of [key] for the formula. *)
Definition visible_for (expression : str) (key : str) : bool :=
  blank expression || bool_decide (key ∈ _get_used_sets expression).

(** The label of a set sits on the centre of its circle and is visible
    when the circle is, and the radius is that of [SET_CONFIG]. *)
Definition labelled (item : str * SetEntry) : Prop :=
  position (text item.2) = center (circle item.2)
  ∧ text_visible (text item.2) = circle_visible (circle item.2)
  ∧ radius (circle item.2) = 1.5%float.

(** The sets are A, B and C in this order on the grid of the
    construction, each with its label. *)
Definition well_formed (grid : list (float * float)) (self : SetVisualizer) : Prop :=
  points self = grid ∧ keys self = set_names ∧ Forall labelled (sets self).

(** A set that was at most grabbed or released: its circle and its label
    are the same. *)
Definition same_look (entry entry' : SetEntry) : Prop :=
  circle entry' = circle entry ∧ text entry' = text entry.

(** A set that was at most moved with its label, shown or hidden. *)
Definition relabelled (entry entry' : SetEntry) : Prop :=
  radius (circle entry') = radius (circle entry)
  ∧ position (text entry') = center (circle entry')
  ∧ text_visible (text entry') = circle_visible (circle entry').

(** The plot shows the current formula for the circles as they are: the
    scatter holds the points the formula selects, and the circles shown
    are those the formula names, or all when it is empty. *)
Definition up_to_date (self : SetVisualizer) : Prop :=
  result_scatter self = scatter_of (selected self (current_expression self))
  ∧ Forall (λ item : str * SetEntry,
              circle_visible (circle item.2)
              = visible_for (current_expression self) item.1) (sets self).

(** Two dicts with the same keys whose values are related entry by entry. *)
Definition entrywise (R : SetEntry → SetEntry → Prop)
    (d d' : list (str * SetEntry)) : Prop :=
  Forall2 (λ item item' : str * SetEntry,
             item.1 = item'.1 ∧ R item.2 item'.2) d d'.

(** The set that a press at [event] has grabbed. *)
Definition grabbed (event : MouseEvent) (entry : SetEntry) : SetEntry :=
  {| circle := circle entry; dragging := true;
     offset := ((center (circle entry)).1 - xdata event,
                (center (circle entry)).2 - ydata event)%float;
     text := text entry |}.

(** The set after the release of the button. *)
Definition released (entry : SetEntry) : SetEntry :=
  {| circle := circle entry; dragging := false; offset := offset entry;
     text := text entry |}.

(** Whether a point lies in a circle, as [points_in_circle] decides it. *)
Definition inside (circle : Circle) (p : float * float) : bool :=
  let dx := (p.1 - (center circle).1)%float in
  let dy := (p.2 - (center circle).2)%float in
  (dx * dx + dy * dy <=? radius circle * radius circle)%float.

(** Whether a point lies in the circle of [key]. *)
Definition in_circle (self : SetVisualizer) (p : float * float) (key : str) : bool :=
  match getitem key (sets self) with
  | Some entry => inside (circle entry) p
  | None => false
  end.

(** Two dicts with the same keys and the same circles in the plane. *)
Definition same_circles (d d' : list (str * SetEntry)) : Prop :=
  Forall2 (λ item item' : str * SetEntry,
             item.1 = item'.1
             ∧ center (circle item.2) = center (circle item'.2)
             ∧ radius (circle item.2) = radius (circle item'.2)) d d'.

End program.

(** ** A small visualizer *)

Section sample.
Import Visualizer.

(** A grid of four points: one in A, one in B, one in C, one outside. *)
Definition sample_grid : list (float * float) :=
  [((-2)%float, 0%float); (2%float, 0.5%float); (0%float, 2%float);
   (4%float, 4%float)].

(** A hit test: the pointer is in the circle. *)
Definition sample_contains (circle : Circle) (event : MouseEvent) : bool :=
  inside circle (xdata event, ydata event).

(** A text box that submits a text that is new. *)
Definition sample_submits (old new : str) : bool := negb (bool_decide (old = new)).

Definition sample_entry (p : float * float) (visible : bool) : SetEntry :=
  {| circle := {| center := p; radius := 1.5%float; circle_visible := visible |};
     dragging := false; offset := (0%float, 0%float);
     text := {| position := p; text_visible := visible |} |}.

(** The visualizer on this grid after its construction. *)
Definition sample_state : SetVisualizer :=
  {| points := sample_grid; text_box := DEFAULT_EXPRESSION;
     result_scatter := Some [((-2)%float, 0%float); (2%float, 0.5%float)];
     current_expression := DEFAULT_EXPRESSION;
     title := (title_prefix ++ DEFAULT_EXPRESSION) ++ count_prefix ++ lit "2";
     sets := [(lit "A", sample_entry ((-2)%float, 0%float) true);
              (lit "B", sample_entry (2%float, 0%float) true);
              (lit "C", sample_entry (0%float, 2%float) false)];
     stdout := [] |}.

(** A press on the circle of A and a motion to the right of it. *)
Definition sample_press : MouseEvent :=
  {| inaxes := Some MainAxes; xdata := (-1.5)%float; ydata := 0.5%float |}.

Definition sample_motion : MouseEvent :=
  {| inaxes := Some MainAxes; xdata := 0%float; ydata := 1%float |}.

End sample.

(** ** Tactics *)

Ltac simpl_bind := cbn [mbind outcome_bind mret outcome_ret].

Ltac solve_length :=
  repeat first [rewrite length_app | rewrite length_cons | progress simpl]; lia.

(** * Properties *)

(** ** Outcomes: inversion of [bind] *)

Lemma bind_Ok_inv {A B} (x : outcome A) (f : A → outcome B) (b : B) :
  x ≫= f = Ok b → ∃ a, x = Ok a ∧ f a = Ok b.
Proof. destruct x as [a| |]; simpl; [eauto | discriminate..]. Qed.

Lemma bind_fuel_inv {A B} (x : outcome A) (f : A → outcome B) :
  x ≫= f = OutOfFuel → x = OutOfFuel ∨ ∃ a, x = Ok a ∧ f a = OutOfFuel.
Proof. destruct x as [a| |]; simpl; [eauto | discriminate | eauto]. Qed.

Lemma broadcast_fuel f a b : broadcast f a b ≠ OutOfFuel.
Proof.
  unfold broadcast. case_decide; [done|].
  destruct a as [|x [|]], b as [|y [|]]; done.
Qed.

Lemma broadcast_same f a b :
  length a = length b → broadcast f a b = Ok (zip_with f a b).
Proof. intros E. unfold broadcast. by rewrite decide_True. Qed.

Lemma at_token_spec tokens pos kw :
  at_token tokens pos kw = true ↔ tokens !! pos = Some kw.
Proof. unfold at_token. by rewrite bool_decide_eq_true. Qed.

Lemma at_token_false tokens pos kw :
  tokens !! pos ≠ Some kw → at_token tokens pos kw = false.
Proof. unfold at_token. by rewrite bool_decide_eq_false. Qed.

(** ** The tiers of the parser, on one token list *)

Section tier_facts.
Context (tokens : list (list N)) (masks : gmap (list N) (list bool))
  (universal : list bool).

Import Grammar.

Local Abbreviation tier_parser := (tier_parser tokens masks universal).
Local Abbreviation tier_loop := (tier_loop tokens masks universal).

Lemma tier_parser_binary L fuel pos :
  2 ≤ L ≤ 5 →
  tier_parser L fuel pos =
    '(lhs, pos) ← tier_parser (L - 1) fuel pos; tier_loop L fuel lhs pos.
Proof.
  intros HL. do 6 (destruct L as [|L]; [try lia; try reflexivity|]). lia.
Qed.

Lemma tier_parser_above L fuel pos :
  5 ≤ L → tier_parser L fuel pos = tier_parser 5 fuel pos.
Proof. intros HL. do 5 (destruct L as [|L]; [lia|]). reflexivity. Qed.

Lemma tier_parser_not fuel pos :
  tier_parser 1 fuel pos =
    '(operand, pos) ← tier_parser 0 fuel pos;
    if at_token tokens pos (lit "NOT") then
      result ← np_and universal (np_invert operand); Ok (result, pos + 1)
    else Ok (operand, pos).
Proof. reflexivity. Qed.

Lemma _parse_expression_S fuel pos :
  _parse_expression (S fuel) tokens pos masks universal = tier_parser 5 fuel pos.
Proof. reflexivity. Qed.

Lemma fold_fuel op lhs rhs : fold op lhs rhs ≠ OutOfFuel.
Proof. destruct op; apply broadcast_fuel. Qed.

(** *** Every tier consumes at least one token *)

Lemma while_token_advances fuel kw operand fold lhs pos v pos' :
  (∀ p v p', operand p = Ok (v, p') → p < p') →
  while_token fuel kw operand fold tokens lhs pos = Ok (v, pos') → pos ≤ pos'.
Proof.
  intros Hop. revert lhs pos.
  induction fuel as [|fuel IH]; intros lhs pos; simpl;
    destruct (at_token tokens pos kw); try discriminate;
    try (intros [= _ <-]; lia).
  intros H. apply bind_Ok_inv in H as ([rhs p1] & H1 & H).
  apply bind_Ok_inv in H as (lhs' & _ & H).
  apply Hop in H1. apply IH in H. lia.
Qed.

Lemma tiers_advance fuel :
  (∀ pos v pos', tier_parser 0 fuel pos = Ok (v, pos') → pos < pos') →
  ∀ L pos v pos', tier_parser L fuel pos = Ok (v, pos') → pos < pos'.
Proof.
  intros H0.
  assert (H1 : ∀ pos v pos', tier_parser 1 fuel pos = Ok (v, pos') → pos < pos').
  { intros pos v pos'. rewrite tier_parser_not. intros H.
    apply bind_Ok_inv in H as ([w p1] & Ha & H). apply H0 in Ha.
    destruct (at_token tokens p1 _).
    - apply bind_Ok_inv in H as (r & _ & [= _ <-]). lia.
    - injection H as _ <-. lia. }
  assert (H5 : ∀ L, L ≤ 5 →
    ∀ pos v pos', tier_parser L fuel pos = Ok (v, pos') → pos < pos').
  { intros L. induction L as [|L IHL]; intros HL; [exact H0|].
    destruct L as [|L]; [exact H1|].
    intros pos v pos'. rewrite tier_parser_binary by lia. intros H.
    apply bind_Ok_inv in H as ([w p1] & Ha & H).
    replace (S (S L) - 1) with (S L) in * by lia.
    apply IHL in Ha; [|lia]. apply while_token_advances in H; [lia|].
    intros p v0 p'. replace (S (S L) - 1) with (S L) by lia. apply IHL. lia. }
  intros L pos v pos'. destruct (decide (L ≤ 5)); [by apply H5|].
  rewrite tier_parser_above by lia. by apply H5.
Qed.

Lemma tier_parser_advances fuel L pos v pos' :
  tier_parser L fuel pos = Ok (v, pos') → pos < pos'.
Proof.
  revert L pos v pos'. induction fuel as [|fuel IHfuel];
    apply tiers_advance; intros pos v pos'; unfold tier_parser, _parse_atom;
    (destruct (tokens !! pos) as [token|]; [|discriminate]);
    (case_bool_decide;
      [|destruct (masks !! token); [|discriminate]; intros [= _ <-]; lia]).
  - discriminate.
  - rewrite _parse_expression_S. intros Hp.
    apply bind_Ok_inv in Hp as ([w p1] & Ha & Hp). apply IHfuel in Ha.
    destruct (at_token tokens p1 _); [|discriminate].
    injection Hp as _ <-. lia.
Qed.

(** *** The fuel is enough *)

Lemma while_token_fuel f f' kw operand fold lhs pos :
  (∀ p v p', operand p = Ok (v, p') → p < p') →
  length tokens ≤ f + pos → length tokens ≤ f' + pos →
  while_token f kw operand fold tokens lhs pos
  = while_token f' kw operand fold tokens lhs pos.
Proof.
  intros Hop. revert f' lhs pos.
  induction f as [|f IH]; intros f' lhs pos Hf Hf';
    destruct f' as [|f']; simpl; try reflexivity;
    destruct (at_token tokens pos kw) eqn:Hat; try reflexivity;
    try (apply at_token_spec, lookup_lt_Some in Hat; lia).
  destruct (operand (pos + 1)) as [[rhs p1]| |] eqn:H1; simpl; try reflexivity.
  apply Hop in H1. destruct (fold lhs rhs); simpl; try reflexivity.
  apply IH; lia.
Qed.

Lemma while_token_total f kw operand fold lhs pos :
  (∀ p v p', operand p = Ok (v, p') → p < p') →
  (∀ p, pos < p → operand p ≠ OutOfFuel) →
  (∀ a b, fold a b ≠ OutOfFuel) →
  length tokens ≤ f + pos →
  while_token f kw operand fold tokens lhs pos ≠ OutOfFuel.
Proof.
  intros Hop Htot Hfold. revert lhs pos Htot.
  induction f as [|f IH]; intros lhs pos Htot Hf; simpl;
    destruct (at_token tokens pos kw) eqn:Hat; try discriminate.
  - apply at_token_spec, lookup_lt_Some in Hat. lia.
  - intros H. apply bind_fuel_inv in H as [H|([rhs p1] & H1 & H)].
    { revert H. apply Htot. lia. }
    apply Hop in H1.
    apply bind_fuel_inv in H as [H|(lhs' & _ & H)]; [by apply Hfold in H|].
    revert H. apply IH; [|lia]. intros p Hp. apply Htot. lia.
Qed.

Lemma tiers_total fuel :
  (∀ pos, length tokens ≤ fuel + pos → tier_parser 0 fuel pos ≠ OutOfFuel) →
  ∀ L pos, length tokens ≤ fuel + pos → tier_parser L fuel pos ≠ OutOfFuel.
Proof.
  intros H0.
  assert (H1 : ∀ pos, length tokens ≤ fuel + pos →
                      tier_parser 1 fuel pos ≠ OutOfFuel).
  { intros pos Hf. rewrite tier_parser_not. intros H.
    apply bind_fuel_inv in H as [H|([w p1] & Ha & H)]; [by apply H0 in H|].
    destruct (at_token tokens p1 _); [|discriminate].
    apply bind_fuel_inv in H as [H|(r & _ & H)]; [|discriminate].
    by apply broadcast_fuel in H. }
  assert (H5 : ∀ L, L ≤ 5 → ∀ pos, length tokens ≤ fuel + pos →
                                    tier_parser L fuel pos ≠ OutOfFuel).
  { intros L. induction L as [|L IHL]; intros HL; [exact H0|].
    destruct L as [|L]; [exact H1|].
    intros pos Hf. rewrite tier_parser_binary by lia. intros H.
    replace (S (S L) - 1) with (S L) in * by lia.
    apply bind_fuel_inv in H as [H|([w p1] & Ha & H)].
    { revert H. apply IHL; lia. }
    apply tier_parser_advances in Ha. revert H. unfold tier_loop.
    replace (S (S L) - 1) with (S L) in * by lia.
    apply while_token_total.
    - intros p v p'. apply tier_parser_advances.
    - intros p Hp. apply IHL; lia.
    - apply fold_fuel.
    - lia. }
  intros L pos Hf. destruct (decide (L ≤ 5)); [by apply H5|].
  rewrite tier_parser_above by lia. by apply H5.
Qed.

Lemma tier_parser_total fuel L pos :
  length tokens ≤ fuel + pos → tier_parser L fuel pos ≠ OutOfFuel.
Proof.
  revert L pos. induction fuel as [|fuel IHfuel];
    apply tiers_total; intros pos Hf; unfold tier_parser, _parse_atom;
    (destruct (tokens !! pos) as [token|] eqn:Htok; [|discriminate]);
    apply lookup_lt_Some in Htok;
    (case_bool_decide; [|destruct (masks !! token); discriminate]).
  - lia.
  - rewrite _parse_expression_S. intros Hp.
    apply bind_fuel_inv in Hp as [Hp|([w p1] & Ha & Hp)].
    + revert Hp. apply IHfuel. lia.
    + destruct (at_token tokens p1 _); discriminate.
Qed.

Lemma _parse_expression_total pos :
  _parse_expression (S (length tokens)) tokens pos masks universal ≠ OutOfFuel.
Proof. rewrite _parse_expression_S. apply tier_parser_total. lia. Qed.

End tier_facts.

(** ** More fuel changes no result *)

Lemma approx_refl {A} (r : outcome A) : approx r r.
Proof. by right. Qed.

Lemma approx_bind {A B} (x x' : outcome A) (f f' : A → outcome B) :
  approx x x' → (∀ a, approx (f a) (f' a)) → approx (x ≫= f) (x' ≫= f').
Proof.
  intros [->| <-] Hf; [by left|]. destruct x as [a| |]; simpl; [apply Hf|..].
  - by right.
  - by left.
Qed.

Lemma while_token_mono f f' kw operand operand' fold tokens lhs pos :
  f ≤ f' → (∀ p, approx (operand p) (operand' p)) →
  approx (while_token f kw operand fold tokens lhs pos)
         (while_token f' kw operand' fold tokens lhs pos).
Proof.
  intros Hf Hop. revert f' Hf lhs pos.
  induction f as [|f IH]; intros f' Hf lhs pos.
  - simpl. destruct (at_token tokens pos kw) eqn:Hat; [by left|].
    right. destruct f'; simpl; by rewrite Hat.
  - destruct f' as [|f']; [lia|]. simpl.
    destruct (at_token tokens pos kw); [|apply approx_refl].
    apply approx_bind; [apply Hop|]. intros [rhs p].
    apply approx_bind; [apply approx_refl|]. intros lhs'. apply IH. lia.
Qed.

Lemma _parse_expression_mono f f' tokens pos masks universal :
  f ≤ f' →
  approx (_parse_expression f tokens pos masks universal)
         (_parse_expression f' tokens pos masks universal).
Proof.
  revert f' tokens pos masks universal.
  induction f as [|f IH]; intros f' tokens pos masks universal Hf; [by left|].
  destruct f' as [|f']; [lia|]. simpl.
  assert (Hf' : f ≤ f') by lia.
  assert (Hatom : ∀ p, approx
    (_parse_atom (_parse_expression f) tokens p masks universal)
    (_parse_atom (_parse_expression f') tokens p masks universal)).
  { intros p. unfold _parse_atom. destruct (tokens !! p); [|apply approx_refl].
    case_bool_decide; [|apply approx_refl].
    apply approx_bind; [by apply IH|]. intros [v q]. apply approx_refl. }
  assert (Hnot : ∀ p, approx
    (_parse_not (_parse_expression f) tokens p masks universal)
    (_parse_not (_parse_expression f') tokens p masks universal)).
  { intros p. unfold _parse_not. apply approx_bind; [apply Hatom|].
    intros [v q]. apply approx_refl. }
  assert (Hand : ∀ p, approx
    (_parse_and f (_parse_expression f) tokens p masks universal)
    (_parse_and f' (_parse_expression f') tokens p masks universal)).
  { intros p. unfold _parse_and. apply approx_bind; [apply Hnot|].
    intros [v q]. by apply while_token_mono. }
  assert (Hxor : ∀ p, approx
    (_parse_xor f (_parse_expression f) tokens p masks universal)
    (_parse_xor f' (_parse_expression f') tokens p masks universal)).
  { intros p. unfold _parse_xor. apply approx_bind; [apply Hand|].
    intros [v q]. by apply while_token_mono. }
  assert (Hdiff : ∀ p, approx
    (_parse_diff f (_parse_expression f) tokens p masks universal)
    (_parse_diff f' (_parse_expression f') tokens p masks universal)).
  { intros p. unfold _parse_diff. apply approx_bind; [apply Hxor|].
    intros [v q]. by apply while_token_mono. }
  unfold _parse_or. apply approx_bind; [apply Hdiff|].
  intros [v q]. by apply while_token_mono.
Qed.

(** The fuel [_safe_evaluate] gives the parser is enough: with more, the
    parser returns or raises the same. *)
Lemma _parse_expression_fuel fuel tokens pos masks universal :
  S (length tokens) ≤ fuel →
  _parse_expression fuel tokens pos masks universal
  = _parse_expression (S (length tokens)) tokens pos masks universal.
Proof.
  intros Hf.
  destruct (_parse_expression_mono (S (length tokens)) fuel tokens pos masks
              universal Hf) as [H|H]; [|done].
  by apply _parse_expression_total in H.
Qed.

(** ** The parser computes the value of every tree of the grammar *)

Section completeness.
Context (masks : gmap (list N) (list bool)) (universal : list bool).

Import Grammar.

Local Abbreviation finish := (finish masks universal).
Local Abbreviation parses := (parses masks universal).
Local Abbreviation valued := (valued masks universal).
Local Abbreviation partial_ok := (partial_ok masks universal).
Local Abbreviation fails := (fails masks universal).

Lemma lookup_after (pre mid rest : list (list N)) :
  (pre ++ mid ++ rest) !! (length pre + length mid) = head rest.
Proof.
  rewrite lookup_app_r by lia. rewrite lookup_app_r by lia.
  replace (length pre + length mid - length pre - length mid) with 0 by lia.
  by destruct rest.
Qed.

Lemma lookup_first (pre mid rest : list (list N)) x :
  (pre ++ (x :: mid) ++ rest) !! length pre = Some x.
Proof. simpl. by apply list_lookup_middle. Qed.

Lemma op_at_tier op : op_at (op_tier op) = op.
Proof. by destruct op. Qed.

Lemma op_tier_at L : 2 ≤ L ≤ 5 → op_tier (op_at L) = L.
Proof. intros HL. do 6 (destruct L as [|L]; [try lia; try reflexivity|]). lia. Qed.

Lemma op_tier_range op : 2 ≤ op_tier op ≤ 5.
Proof. destruct op; simpl; lia. Qed.

Lemma tier_range e : tier e ≤ 5.
Proof. destruct e as [| | |[]]; simpl; lia. Qed.

Lemma keyword_inj op op' : keyword op = keyword op' → op = op'.
Proof. by destruct op, op'. Qed.

Lemma keyword_not_NOT op : keyword op ≠ lit "NOT".
Proof. by destruct op. Qed.

Lemma keyword_not_close op : lit ")" ≠ keyword op.
Proof. by destruct op. Qed.

Lemma while_token_exit tokens fuel kw operand fold lhs pos :
  tokens !! pos ≠ Some kw →
  while_token fuel kw operand fold tokens lhs pos = Ok (lhs, pos).
Proof. intros H. apply at_token_false in H. destruct fuel; simpl; by rewrite H. Qed.

Lemma while_token_step tokens fuel kw operand fold lhs pos :
  tokens !! pos = Some kw →
  while_token (S fuel) kw operand fold tokens lhs pos
  = '(rhs, pos) ← operand (pos + 1);
    lhs ← fold lhs rhs;
    while_token fuel kw operand fold tokens lhs pos.
Proof. intros H. apply at_token_spec in H. simpl. by rewrite H. Qed.

(** A tier that meets a token it does not fold returns its operand. *)
Lemma finish_exit (pre rest : list (list N)) e L fuel v :
  L ≤ 5 → follows (S L) e rest →
  finish (pre ++ tokens_of e ++ rest) L fuel v (length pre + length (tokens_of e))
  = Ok (v, length pre + length (tokens_of e)).
Proof.
  intros HL Hfol. unfold finish. case_decide; [|done].
  unfold tier_loop. apply while_token_exit. rewrite lookup_after.
  destruct rest as [|t rest]; [done|]. simpl. intros [= ->].
  destruct Hfol as [_ Hfol]. apply (Hfol (op_at L)); [|done].
  rewrite op_tier_at; lia.
Qed.

Lemma follows_weaken L L' e rest : L ≤ L' → follows L' e rest → follows L e rest.
Proof.
  intros HL. destruct rest as [|t rest]; [done|]. intros [H1 H2].
  split; [intros; apply H1; [lia|done]|]. intros op Hop. apply H2. lia.
Qed.

Lemma parses_lift e L :
  tier e ≤ L → L < 5 → parses e L → parses e (S L).
Proof.
  intros He HL Hp fuel pre rest Hf Hfol.
  pose proof (Hp fuel pre rest Hf (follows_weaken L (S L) e rest ltac:(lia) Hfol))
    as Hpe.
  destruct L as [|L].
  - rewrite tier_parser_not, Hpe.
    destruct (denote masks universal e) as [v| |]; simpl; try done.
    unfold finish at 1. simpl. rewrite at_token_false; [done|].
    rewrite lookup_after. destruct rest as [|t rest]; [done|]. simpl.
    intros [= ->]. destruct Hfol as [Hfol _].
    specialize (Hfol ltac:(lia) eq_refl).
    destruct e as [| | |[]]; simpl in *; (discriminate || lia).
  - rewrite tier_parser_binary by lia.
    replace (S (S L) - 1) with (S L) by lia. rewrite Hpe.
    destruct (denote masks universal e) as [v| |]; simpl; try done.
    rewrite finish_exit by (done || lia). simpl.
    unfold finish. by rewrite decide_True by lia.
Qed.

Lemma parses_from_tier e L :
  tier e ≤ L ≤ 5 → parses e (tier e) → parses e L.
Proof.
  intros [H1 H2] Hp. induction L as [|L IH].
  - by replace 0 with (tier e) by lia.
  - destruct (decide (tier e = S L)) as [<-|]; [done|].
    apply parses_lift; [lia..|]. apply IH; lia.
Qed.

Lemma parses_SetRef name : name ≠ lit "(" → parses (SetRef name) 0.
Proof.
  intros Hname fuel pre rest _ _. simpl. unfold _parse_atom.
  rewrite list_lookup_middle by done.
  rewrite bool_decide_eq_false_2 by done.
  by destruct (masks !! name).
Qed.

Lemma parses_Group e : parses e 5 → parses (Group e) 0.
Proof.
  intros IH fuel pre rest Hf _. cbn [tokens_of denote] in *.
  specialize (IH (fuel - 1) (pre ++ [lit "("]) (lit ")" :: rest)).
  replace ((pre ++ [lit "("]) ++ tokens_of e ++ lit ")" :: rest)
    with (pre ++ (lit "(" :: tokens_of e ++ [lit ")"]) ++ rest) in IH
    by (by simplify_list_eq).
  replace (length (pre ++ [lit "("])) with (length pre + 1) in IH
    by solve_length.
  assert (Hopen : (pre ++ (lit "(" :: tokens_of e ++ [lit ")"]) ++ rest)
                    !! length pre = Some (lit "(")) by apply lookup_first.
  assert (Hclose : (pre ++ (lit "(" :: tokens_of e ++ [lit ")"]) ++ rest)
                     !! (length pre + 1 + length (tokens_of e)) = Some (lit ")")).
  { replace (pre ++ (lit "(" :: tokens_of e ++ [lit ")"]) ++ rest)
      with ((pre ++ lit "(" :: tokens_of e) ++ lit ")" :: rest)
      by (by simplify_list_eq).
    apply list_lookup_middle. solve_length. }
  assert (Hend : length pre + length (lit "(" :: tokens_of e ++ [lit ")"])
                 = length pre + 1 + length (tokens_of e) + 1).
  { solve_length. }
  assert (Hlen : length pre + 2
                 ≤ length (pre ++ (lit "(" :: tokens_of e ++ [lit ")"]) ++ rest)).
  { solve_length. }
  rewrite Hend. clear Hend.
  remember (pre ++ (lit "(" :: tokens_of e ++ [lit ")"]) ++ rest) as tokens.
  unfold tier_parser, _parse_atom. rewrite Hopen.
  rewrite bool_decide_eq_true_2 by done.
  destruct fuel as [|fuel]; [lia|].
  rewrite _parse_expression_S.
  replace (S fuel - 1) with fuel in IH by lia.
  rewrite IH; cycle 1.
  { lia. }
  { split; [done|]. intros op _. apply keyword_not_close. }
  destruct (denote masks universal e) as [v| |]; [|done..]. simpl_bind.
  unfold finish. rewrite decide_True by lia. rewrite decide_False by lia.
  unfold tier_loop. rewrite while_token_exit by (by rewrite Hclose).
  simpl_bind.
  by rewrite (proj2 (at_token_spec _ _ _) Hclose).
Qed.

Lemma parses_Negated e : parses e 0 → parses (Negated e) 1.
Proof.
  intros IH fuel pre rest Hf _. cbn [tokens_of denote] in *.
  specialize (IH fuel pre (lit "NOT" :: rest)).
  replace (pre ++ tokens_of e ++ lit "NOT" :: rest)
    with (pre ++ (tokens_of e ++ [lit "NOT"]) ++ rest) in IH
    by (by simplify_list_eq).
  assert (Hnot : (pre ++ (tokens_of e ++ [lit "NOT"]) ++ rest)
                   !! (length pre + length (tokens_of e)) = Some (lit "NOT")).
  { replace (pre ++ (tokens_of e ++ [lit "NOT"]) ++ rest)
      with ((pre ++ tokens_of e) ++ lit "NOT" :: rest) by (by simplify_list_eq).
    apply list_lookup_middle. solve_length. }
  assert (Hend : length pre + length (tokens_of e ++ [lit "NOT"])
                 = length pre + length (tokens_of e) + 1).
  { solve_length. }
  rewrite Hend. clear Hend.
  remember (pre ++ (tokens_of e ++ [lit "NOT"]) ++ rest) as tokens.
  rewrite tier_parser_not.
  rewrite IH; [|done|]; cycle 1.
  { split; [lia|]. intros op Hop. destruct op; simpl in Hop; lia. }
  destruct (denote masks universal e) as [v| |]; [|done..]. simpl_bind.
  unfold finish. rewrite !decide_False by lia.
  simpl_bind.
  rewrite (proj2 (at_token_spec _ _ _) Hnot).
  by destruct (np_and universal (np_invert v)) as [r| |].
Qed.

Lemma parses_Binary op l r :
  parses l (op_tier op) → parses r (op_tier op - 1) →
  parses (Binary op l r) (op_tier op).
Proof.
  intros IHl IHr fuel pre rest Hf Hfol. cbn [tokens_of denote] in *.
  pose proof (op_tier_range op) as Hop.
  specialize (IHl fuel pre (keyword op :: tokens_of r ++ rest)).
  replace (pre ++ tokens_of l ++ keyword op :: tokens_of r ++ rest)
    with (pre ++ (tokens_of l ++ keyword op :: tokens_of r) ++ rest) in IHl
    by (by simplify_list_eq).
  specialize (IHr fuel (pre ++ tokens_of l ++ [keyword op]) rest).
  pose proof (finish_exit (pre ++ tokens_of l ++ [keyword op]) rest r
                (op_tier op - 1) fuel) as Hexit.
  replace ((pre ++ tokens_of l ++ [keyword op]) ++ tokens_of r ++ rest)
    with (pre ++ (tokens_of l ++ keyword op :: tokens_of r) ++ rest) in IHr, Hexit
    by (by simplify_list_eq).
  replace (length (pre ++ tokens_of l ++ [keyword op]))
    with (length pre + length (tokens_of l) + 1) in IHr, Hexit
    by solve_length.
  assert (Hkw : (pre ++ (tokens_of l ++ keyword op :: tokens_of r) ++ rest)
                  !! (length pre + length (tokens_of l)) = Some (keyword op)).
  { replace (pre ++ (tokens_of l ++ keyword op :: tokens_of r) ++ rest)
      with ((pre ++ tokens_of l) ++ keyword op :: tokens_of r ++ rest)
      by (by simplify_list_eq).
    apply list_lookup_middle. solve_length. }
  assert (Hend : length pre + length (tokens_of l ++ keyword op :: tokens_of r)
                 = length pre + length (tokens_of l) + 1 + length (tokens_of r)).
  { solve_length. }
  assert (Hlen : length pre + length (tokens_of l) + 1
                 ≤ length (pre ++ (tokens_of l ++ keyword op :: tokens_of r) ++ rest)).
  { solve_length. }
  rewrite Hend. clear Hend.
  remember (pre ++ (tokens_of l ++ keyword op :: tokens_of r) ++ rest) as tokens.
  rewrite IHl; [|done|]; cycle 1.
  { split; [intros _ H; by apply keyword_not_NOT in H|].
    intros op' Hop' H. apply keyword_inj in H as ->. lia. }
  destruct (denote masks universal l) as [vl| |]; [|done..].
  simpl_bind.
  unfold finish at 1. rewrite decide_True by lia. unfold tier_loop.
  rewrite op_at_tier.
  destruct fuel as [|fuel]; [lia|].
  rewrite while_token_step by done.
  rewrite IHr; cycle 1.
  { lia. }
  { apply follows_weaken with (op_tier op); [lia|].
    destruct rest as [|t rest]; [done|]. exact Hfol. }
  destruct (denote masks universal r) as [vr| |]; [|done..].
  simpl_bind.
  rewrite Hexit; cycle 1.
  { lia. }
  { replace (S (op_tier op - 1)) with (op_tier op) by lia.
    destruct rest as [|t rest]; [done|]. exact Hfol. }
  simpl_bind.
  destruct (fold op vl vr) as [v| |]; [|done..].
  simpl_bind.
  unfold finish. rewrite decide_True by lia. unfold tier_loop.
  rewrite op_at_tier.
  apply while_token_fuel.
  - intros p w p'. apply tier_parser_advances.
  - lia.
  - lia.
Qed.

(** The parser of its tier gives every tree of the grammar its value, and
    goes on from the token after the tree. *)
Lemma parses_tree e : grammatical e → parses e (tier e).
Proof.
  induction e as [name|e IH|e IH|op l IHl r IHr]; simpl.
  - apply parses_SetRef.
  - intros He. pose proof (tier_range e).
    apply parses_Group, parses_from_tier; [lia|auto].
  - intros [Ht He]. apply parses_Negated. rewrite <- Ht. auto.
  - intros (Hl & Hr & Gl & Gr). pose proof (op_tier_range op).
    apply parses_Binary; apply parses_from_tier; auto; lia.
Qed.

Lemma left_over_follows e rest L : left_over e rest → follows L e rest.
Proof. destruct rest as [|t rest]; [done|]. intros [H1 H2]. split; auto. Qed.

Lemma _parse_expression_tree e rest :
  grammatical e → left_over e rest →
  _parse_expression (S (length (tokens_of e ++ rest))) (tokens_of e ++ rest) 0
    masks universal
  = v ← denote masks universal e; Ok (v, length (tokens_of e)).
Proof.
  intros He Hrest. rewrite _parse_expression_S.
  pose proof (parses_from_tier e 5 (conj (tier_range e) (le_n 5))
                (parses_tree e He) (length (tokens_of e ++ rest)) [] rest) as H.
  cbn [app length Nat.add] in H. rewrite H; [|lia|by apply left_over_follows].
  destruct (denote masks universal e) as [v| |]; [|done..]. simpl_bind.
  apply (finish_exit [] rest e 5); [lia|by apply left_over_follows].
Qed.

(** *** Streams that end too early *)

Lemma raise_lift tokens fuel pos err k L :
  k ≤ L →
  tier_parser tokens masks universal k fuel pos = Raise err →
  tier_parser tokens masks universal L fuel pos = Raise err.
Proof.
  intros HkL Hk.
  assert (H5 : ∀ L, k ≤ L ≤ 5 →
                    tier_parser tokens masks universal L fuel pos = Raise err).
  { clear L HkL. intros L. induction L as [|L IH]; intros HL.
    - by replace 0 with k by lia.
    - destruct (decide (k = S L)) as [<-|]; [done|].
      destruct L as [|L].
      + rewrite tier_parser_not, IH by lia. done.
      + rewrite tier_parser_binary by lia.
        replace (S (S L) - 1) with (S L) by lia. rewrite IH by lia. done. }
  destruct (decide (L ≤ 5)); [apply H5; lia|].
  destruct (decide (k ≤ 5)).
  - rewrite tier_parser_above by lia. apply H5. lia.
  - rewrite tier_parser_above by lia. by rewrite tier_parser_above in Hk by lia.
Qed.

Lemma partial_tier_range t : partial_ok t → partial_tier t ≤ 5.
Proof.
  destruct t as [|e op t| |]; simpl; try lia.
  pose proof (tier_range e). pose proof (op_tier_range op). lia.
Qed.

Lemma fails_Missing L : fails Missing L.
Proof.
  intros fuel pre _. apply raise_lift with 0; [lia|].
  simpl. unfold _parse_atom. rewrite lookup_ge_None_2; [done|].
  rewrite length_app. simpl. lia.
Qed.

Lemma fails_Open t L : fails t 5 → fails (Open t) L.
Proof.
  intros IH fuel pre Hf. apply raise_lift with 0; [lia|].
  cbn [partial_tokens failure] in *.
  specialize (IH (fuel - 1) (pre ++ [lit "("])).
  replace ((pre ++ [lit "("]) ++ partial_tokens t)
    with (pre ++ lit "(" :: partial_tokens t) in IH by (by simplify_list_eq).
  replace (length (pre ++ [lit "("])) with (length pre + 1) in IH
    by solve_length.
  assert (Hopen : (pre ++ lit "(" :: partial_tokens t) !! length pre
                  = Some (lit "(")) by (by apply list_lookup_middle).
  assert (Hlen : length pre + 1 ≤ length (pre ++ lit "(" :: partial_tokens t))
    by solve_length.
  remember (pre ++ lit "(" :: partial_tokens t) as tokens.
  unfold tier_parser, _parse_atom. rewrite Hopen.
  rewrite bool_decide_eq_true_2 by done.
  destruct fuel as [|fuel]; [lia|].
  replace (S fuel - 1) with fuel in IH by lia.
  rewrite _parse_expression_S, IH by lia. done.
Qed.

Lemma fails_Unclosed e L : grammatical e → valued e → fails (Unclosed e) L.
Proof.
  intros He [v Hv] fuel pre Hf. apply raise_lift with 0; [lia|].
  cbn [partial_tokens failure] in *.
  pose proof (parses_from_tier e 5 (conj (tier_range e) (le_n 5))
                (parses_tree e He) (fuel - 1) (pre ++ [lit "("]) []) as IH.
  pose proof (finish_exit (pre ++ [lit "("]) [] e 5 (fuel - 1) v) as Hexit.
  pose proof (lookup_after (pre ++ [lit "("]) (tokens_of e) []) as Hend.
  replace ((pre ++ [lit "("]) ++ tokens_of e ++ [])
    with (pre ++ lit "(" :: tokens_of e) in IH, Hexit, Hend
    by (by simplify_list_eq).
  replace (length (pre ++ [lit "("])) with (length pre + 1) in IH, Hexit, Hend
    by solve_length.
  assert (Hopen : (pre ++ lit "(" :: tokens_of e) !! length pre
                  = Some (lit "(")) by (by apply list_lookup_middle).
  assert (Hlen : length pre + 1 ≤ length (pre ++ lit "(" :: tokens_of e))
    by solve_length.
  remember (pre ++ lit "(" :: tokens_of e) as tokens.
  unfold tier_parser, _parse_atom. rewrite Hopen.
  rewrite bool_decide_eq_true_2 by done.
  destruct fuel as [|fuel]; [lia|].
  replace (S fuel - 1) with fuel in IH, Hexit by lia.
  rewrite _parse_expression_S, IH, Hv by (done || lia). simpl_bind.
  rewrite Hexit by (done || lia). simpl_bind.
  rewrite at_token_false; [done|]. by rewrite Hend.
Qed.

Lemma valued_Binary op l r : valued (Binary op l r) → valued l ∧ valued r.
Proof.
  intros [v Hv]. simpl in Hv.
  apply bind_Ok_inv in Hv as (vl & Hl & Hv).
  apply bind_Ok_inv in Hv as (vr & Hr & Hv). split; by eexists.
Qed.

(** The operand of [op] fails directly after [e]. *)
Lemma fails_After_at e op t :
  grammatical e → valued e → tier e ≤ op_tier op →
  fails t (op_tier op - 1) → fails (After e op t) (op_tier op).
Proof.
  intros He [v Hv] Hte Ht fuel pre Hf. cbn [partial_tokens failure] in *.
  pose proof (op_tier_range op) as Hop.
  pose proof (parses_from_tier e (op_tier op) ltac:(lia) (parses_tree e He)
                fuel pre (keyword op :: partial_tokens t)) as IH.
  specialize (Ht fuel (pre ++ tokens_of e ++ [keyword op])).
  pose proof (lookup_after pre (tokens_of e) (keyword op :: partial_tokens t))
    as Hkw.
  replace ((pre ++ tokens_of e ++ [keyword op]) ++ partial_tokens t)
    with (pre ++ tokens_of e ++ keyword op :: partial_tokens t) in Ht
    by (by simplify_list_eq).
  replace (length (pre ++ tokens_of e ++ [keyword op]))
    with (length pre + length (tokens_of e) + 1) in Ht by solve_length.
  assert (Hlen : length pre + length (tokens_of e) + 1
            ≤ length (pre ++ tokens_of e ++ keyword op :: partial_tokens t))
    by solve_length.
  remember (pre ++ tokens_of e ++ keyword op :: partial_tokens t) as tokens.
  rewrite IH, Hv; [|done|]; cycle 1.
  { split; [intros _ H; by apply keyword_not_NOT in H|].
    intros op' Hop' H. apply keyword_inj in H as ->. lia. }
  simpl_bind. unfold finish. rewrite decide_True by lia. unfold tier_loop.
  rewrite op_at_tier. destruct fuel as [|fuel]; [lia|].
  rewrite while_token_step by done. rewrite Ht by lia. done.
Qed.

Lemma fails_After e : ∀ op t L,
  grammatical e → valued e →
  fails t (op_tier op - 1) →
  tier e `max` op_tier op ≤ L → fails (After e op t) L.
Proof.
  induction e as [name|e _|e _|op' l _ r IHr]; intros op t L He Hv Ht HL;
    pose proof (op_tier_range op) as Hop;
    try (intros fuel pre Hf; apply raise_lift with (op_tier op); [lia|];
         apply fails_After_at; [done|done|simpl; lia|done|done]).
  destruct (decide (op_tier op' ≤ op_tier op)) as [Hle|Hgt].
  { intros fuel pre Hf. apply raise_lift with (op_tier op); [simpl in HL; lia|].
    by apply fails_After_at. }
  simpl in He, HL. destruct He as (Hl & Hr & Gl & Gr).
  pose proof (valued_Binary _ _ _ Hv) as [[vl Hvl] Hvr].
  pose proof (op_tier_range op') as Hop'.
  intros fuel pre Hf. apply raise_lift with (op_tier op'); [lia|].
  cbn [partial_tokens failure tokens_of] in *.
  pose proof (parses_from_tier l (op_tier op') ltac:(lia) (parses_tree l Gl)
                fuel pre (keyword op' :: tokens_of r ++ keyword op :: partial_tokens t))
    as IHl.
  specialize (IHr op t (op_tier op' - 1) Gr Hvr Ht ltac:(lia)
                fuel (pre ++ tokens_of l ++ [keyword op'])).
  pose proof (lookup_after pre (tokens_of l)
                (keyword op' :: tokens_of r ++ keyword op :: partial_tokens t))
    as Hkw.
  cbn [partial_tokens] in IHr.
  replace ((pre ++ tokens_of l ++ [keyword op'])
             ++ tokens_of r ++ keyword op :: partial_tokens t)
    with (pre ++ (tokens_of l ++ keyword op' :: tokens_of r)
              ++ keyword op :: partial_tokens t) in IHr
    by (by simplify_list_eq).
  replace (pre ++ tokens_of l ++ keyword op' :: tokens_of r
               ++ keyword op :: partial_tokens t)
    with (pre ++ (tokens_of l ++ keyword op' :: tokens_of r)
              ++ keyword op :: partial_tokens t) in IHl, Hkw
    by (by simplify_list_eq).
  replace (length (pre ++ tokens_of l ++ [keyword op']))
    with (length pre + length (tokens_of l) + 1) in IHr by solve_length.
  assert (Hlen : length pre + length (tokens_of l) + 1
            ≤ length (pre ++ (tokens_of l ++ keyword op' :: tokens_of r)
                          ++ keyword op :: partial_tokens t))
    by solve_length.
  remember (pre ++ (tokens_of l ++ keyword op' :: tokens_of r)
                ++ keyword op :: partial_tokens t) as tokens.
  rewrite IHl, Hvl; [|done|]; cycle 1.
  { split; [intros _ H; by apply keyword_not_NOT in H|].
    intros op'' Hop'' H. apply keyword_inj in H as ->. lia. }
  simpl_bind. unfold finish. rewrite decide_True by lia. unfold tier_loop.
  rewrite op_at_tier. destruct fuel as [|fuel]; [lia|].
  rewrite while_token_step by done. rewrite IHr by lia. done.
Qed.

(** A stream that ends too early raises the error of the token it lacks. *)
Lemma partial_fails t : partial_ok t → ∀ L, partial_tier t ≤ L → fails t L.
Proof.
  induction t as [|e op t IH|t IH|e]; simpl.
  - intros _ L _. apply fails_Missing.
  - intros (He & Hv & Ht & Hok) L HL. apply fails_After; try done.
    apply IH; [done|lia].
  - intros Hok L _. apply fails_Open, IH; [done|]. by apply partial_tier_range.
  - intros [He Hv] L _. by apply fails_Unclosed.
Qed.

End completeness.

(** ** Evaluating a formula whose tokens are those of a tree *)

Lemma _safe_evaluate_tree points expr masks e rest :
  _tokenize (strip expr) = Ok (Grammar.tokens_of e ++ rest) →
  Grammar.grammatical e → left_over e rest →
  _safe_evaluate points expr masks = Grammar.denote masks (np_ones points) e.
Proof.
  intros Htok He Hrest. unfold _safe_evaluate. rewrite Htok. simpl_bind.
  rewrite _parse_expression_tree by done.
  by destruct (Grammar.denote masks (np_ones points) e).
Qed.

Lemma _safe_evaluate_partial points expr masks t :
  _tokenize (strip expr) = Ok (Grammar.partial_tokens t) →
  partial_ok masks (np_ones points) t →
  _safe_evaluate points expr masks = Raise (Grammar.failure t).
Proof.
  intros Htok Hok. unfold _safe_evaluate. rewrite Htok. simpl_bind.
  rewrite _parse_expression_S.
  pose proof (partial_fails masks (np_ones points) t Hok 5
                (partial_tier_range masks (np_ones points) t Hok)
                (length (Grammar.partial_tokens t)) []) as H.
  cbn [app length Nat.add] in H. rewrite H by lia. done.
Qed.

Lemma _safe_evaluate_total points expr masks :
  _safe_evaluate points expr masks ≠ OutOfFuel.
Proof.
  unfold _safe_evaluate. intros H.
  apply bind_fuel_inv in H as [H|(tokens & _ & H)].
  - revert H. unfold _tokenize. generalize (@nil (list N)).
    induction (strip expr) as [|c s IH]; intros acc; simpl; [done|].
    repeat (case_match; [apply IH|]). done.
  - apply bind_fuel_inv in H as [H|([v p] & _ & H)]; [|done].
    by apply _parse_expression_total in H.
Qed.

(** ** The tokenizer and [strip] *)

Lemma recognized_false c :
  recognized c = false ↔ isspace c = false ∧ c ∉ alphabet.
Proof.
  unfold recognized. rewrite orb_false_iff, bool_decide_eq_false. done.
Qed.

Lemma _tokenize_from_unknown good c rest acc :
  Forall (λ x, recognized x = true) good → recognized c = false →
  _tokenize_from (good ++ c :: rest) acc = Raise (UnknownCharacter c).
Proof.
  intros Hgood Hc. revert acc.
  induction Hgood as [|x good Hx _ IH]; intros acc; simpl.
  - apply recognized_false in Hc as [-> Hc].
    assert (Hc' : c ∉ [65; 66; 67; 46; 85; 38; 94; 45; 40; 41]%N) by exact Hc.
    rewrite !not_elem_of_cons in Hc'.
    rewrite !bool_decide_eq_false_2; [done|try tauto..].
    intros H. change (lit "ABC") with [65; 66; 67]%N in H.
    rewrite !elem_of_cons in H. rewrite elem_of_nil in H. tauto.
  - destruct (isspace x) eqn:Hsp; [apply IH|].
    repeat (case_bool_decide; [apply IH|]).
    exfalso. unfold recognized in Hx. rewrite Hsp in Hx. simpl in Hx.
    apply bool_decide_eq_true in Hx.
    change alphabet with [65; 66; 67; 46; 85; 38; 94; 45; 40; 41]%N in Hx.
    change (lit "ABC") with [65; 66; 67]%N in *.
    rewrite !elem_of_cons in Hx. rewrite elem_of_nil in Hx.
    rewrite !elem_of_cons in *. rewrite elem_of_nil in *. tauto.
Qed.

Lemma first_unknown_split expr i c :
  first_unknown expr = Some (i, c) →
  ∃ good rest, expr = good ++ c :: rest ∧ length good = i
               ∧ Forall (λ x, recognized x = true) good ∧ recognized c = false.
Proof.
  unfold first_unknown. intros H. apply list_find_Some in H as (Hi & Hc & Hbefore).
  exists (take i expr), (drop (S i) expr). split_and!.
  - by rewrite take_drop_middle.
  - apply length_take_le. apply lookup_lt_Some in Hi. lia.
  - apply Forall_lookup. intros j x Hj.
    assert (j < i) by (apply lookup_lt_Some in Hj; rewrite length_take in Hj; lia).
    rewrite lookup_take_lt in Hj by done.
    specialize (Hbefore j x Hj ltac:(done)). by destruct (recognized x).
  - done.
Qed.

Lemma lstrip_keeps s c t :
  isspace c = false → ∃ s', lstrip (s ++ c :: t) = s' ++ c :: t ∧ s' `suffix_of` s.
Proof.
  intros Hc. induction s as [|x s IH]; simpl.
  - exists []. by rewrite Hc.
  - destruct (isspace x).
    + destruct IH as (s' & -> & Hs). exists s'. split; [done|].
      by apply suffix_cons_r.
    + by exists (x :: s).
Qed.

Lemma strip_keeps good c rest :
  isspace c = false →
  ∃ good' rest', strip (good ++ c :: rest) = good' ++ c :: rest'
                 ∧ good' `suffix_of` good.
Proof.
  intros Hc. unfold strip, rstrip.
  destruct (lstrip_keeps good c rest Hc) as (good' & -> & Hsuf).
  rewrite reverse_app, reverse_cons, <- app_assoc. simpl.
  destruct (lstrip_keeps (reverse rest) c (reverse good') Hc) as (s' & -> & _).
  exists good', (reverse s'). split; [|done].
  rewrite reverse_app, reverse_cons, reverse_involutive, <- app_assoc. done.
Qed.

Lemma lstrip_spaces s : Forall (λ c, isspace c = true) s → lstrip s = [].
Proof. induction 1 as [|c s Hc _ IH]; simpl; [done|]. by rewrite Hc. Qed.

Lemma strip_spaces s : Forall (λ c, isspace c = true) s → strip s = [].
Proof. intros H. unfold strip. by rewrite lstrip_spaces. Qed.

(** ** Elementwise operations on masks of one length *)

Lemma np_and_ones n v : length v = n → np_and (np_ones n) v = Ok v.
Proof.
  intros <-. unfold np_and, np_ones. rewrite broadcast_same by apply length_replicate.
  f_equal. induction v as [|x v IH]; simpl; [done|]. by rewrite IH.
Qed.

Lemma np_invert_length v : length (np_invert v) = length v.
Proof. apply length_fmap. Qed.

(** ** Values over a membership map *)

Lemma denote_membership_map points masks e :
  membership_map points masks → known masks (Grammar.names e) →
  ∃ v, Grammar.denote masks (np_ones points) e = Ok v ∧ length v = points.
Proof.
  intros Hm. induction e as [name|e IH|e IH|op l IHl r IHr]; simpl; intros Hk.
  - apply Forall_singleton in Hk as [v Hv]. rewrite Hv. exists v.
    split; [done|]. by apply (map_Forall_lookup_1 _ _ _ _ Hm Hv).
  - auto.
  - destruct (IH Hk) as (v & -> & Hlen). simpl_bind.
    exists (np_invert v). rewrite np_invert_length.
    split; [|done]. apply np_and_ones. by rewrite np_invert_length.
  - apply Forall_app in Hk as [Hl Hr].
    destruct (IHl Hl) as (vl & -> & Hvl). destruct (IHr Hr) as (vr & -> & Hvr).
    simpl_bind.
    destruct op; simpl; unfold np_and, np_xor, np_or, np_invert;
      (rewrite broadcast_same by (rewrite ?length_fmap; lia));
      eexists; (split; [reflexivity|]);
      rewrite length_zip_with, ?length_fmap; lia.
Qed.

Lemma partial_ok_membership_map points masks t :
  membership_map points masks → Grammar.partial_shape t →
  known masks (Grammar.partial_names t) → partial_ok masks (np_ones points) t.
Proof.
  intros Hm. induction t as [|e op t IH|t IH|e]; simpl.
  - done.
  - intros (He & Ht & Hs) [Hke Hkt]%Forall_app. split_and!; auto.
    destruct (denote_membership_map points masks e Hm Hke) as (v & Hv & _).
    by exists v.
  - auto.
  - intros He Hk. split; [done|].
    destruct (denote_membership_map points masks e Hm Hk) as (v & Hv & _).
    by exists v.
Qed.

(** ** Over a membership map every result is a vector over the universe *)

Lemma sized_bind {A B} points (va : A → ndarray) (vb : B → ndarray)
    (x : outcome A) (f : A → outcome B) :
  sized points va x →
  (∀ a, length (va a) = points → sized points vb (f a)) →
  sized points vb (x ≫= f).
Proof. destruct x as [a|[]|]; simpl; auto. Qed.

Lemma sized_broadcast points f a b :
  length a = points → length b = points → sized points id (broadcast f a b).
Proof.
  intros Ha Hb. rewrite broadcast_same by lia. simpl.
  rewrite length_zip_with. lia.
Qed.

Lemma sized_while_token points fuel kw operand fold tokens lhs pos :
  (∀ p, sized points fst (operand p)) →
  (∀ a b, length a = points → length b = points → sized points id (fold a b)) →
  length lhs = points →
  sized points fst (while_token fuel kw operand fold tokens lhs pos).
Proof.
  intros Hop Hfold. revert lhs pos.
  induction fuel as [|fuel IH]; intros lhs pos Hlhs; simpl;
    destruct (at_token tokens pos kw); try done.
  apply (sized_bind points fst); [apply Hop|]. intros [rhs p] Hrhs.
  apply (sized_bind points id); [by apply Hfold|]. intros lhs'. apply IH.
Qed.

Lemma sized__parse_expression points fuel tokens pos masks :
  membership_map points masks →
  sized points fst (_parse_expression fuel tokens pos masks (np_ones points)).
Proof.
  intros Hm. revert pos. induction fuel as [|fuel IH]; intros pos; [done|].
  simpl.
  assert (Hatom : ∀ p, sized points fst
    (_parse_atom (_parse_expression fuel) tokens p masks (np_ones points))).
  { intros p. unfold _parse_atom. destruct (tokens !! p) as [token|]; [|done].
    case_bool_decide.
    - apply (sized_bind points fst); [apply IH|]. intros [v q] Hv.
      by destruct (at_token tokens q _).
    - destruct (masks !! token) as [mask|] eqn:Hmask; [|done].
      apply (map_Forall_lookup_1 _ _ _ _ Hm Hmask). }
  assert (Hnot : ∀ p, sized points fst
    (_parse_not (_parse_expression fuel) tokens p masks (np_ones points))).
  { intros p. unfold _parse_not.
    apply (sized_bind points fst); [apply Hatom|]. intros [v q] Hv.
    destruct (at_token tokens q _); [|done].
    apply (sized_bind points id); [|done].
    apply sized_broadcast; [apply length_replicate|by rewrite np_invert_length]. }
  assert (Hand : ∀ p, sized points fst
    (_parse_and fuel (_parse_expression fuel) tokens p masks (np_ones points))).
  { intros p. unfold _parse_and.
    apply (sized_bind points fst); [apply Hnot|]. intros [v q] Hv.
    apply sized_while_token; [done| |done]. intros. by apply sized_broadcast. }
  assert (Hxor : ∀ p, sized points fst
    (_parse_xor fuel (_parse_expression fuel) tokens p masks (np_ones points))).
  { intros p. unfold _parse_xor.
    apply (sized_bind points fst); [apply Hand|]. intros [v q] Hv.
    apply sized_while_token; [done| |done]. intros. by apply sized_broadcast. }
  assert (Hdiff : ∀ p, sized points fst
    (_parse_diff fuel (_parse_expression fuel) tokens p masks (np_ones points))).
  { intros p. unfold _parse_diff.
    apply (sized_bind points fst); [apply Hxor|]. intros [v q] Hv.
    apply sized_while_token; [done| |done]. intros a b Ha Hb.
    apply sized_broadcast; [done|by rewrite np_invert_length]. }
  unfold _parse_or.
  apply (sized_bind points fst); [apply Hdiff|]. intros [v q] Hv.
  apply sized_while_token; [done| |done]. intros. by apply sized_broadcast.
Qed.

(** Over a membership map [_safe_evaluate] returns a vector with one entry
    per point of the universe, or raises one of the source's own errors. *)
Lemma sized__safe_evaluate points expr masks :
  membership_map points masks →
  sized points id (_safe_evaluate points expr masks).
Proof.
  intros Hm. unfold _safe_evaluate.
  destruct (_tokenize (strip expr)) as [tokens|e|] eqn:Htok; simpl_bind;
    [| |done].
  - apply (sized_bind points fst); [by apply sized__parse_expression|].
    by intros [v q].
  - revert Htok. unfold _tokenize. generalize (@nil (list N)).
    induction (strip expr) as [|c s IH]; intros acc; simpl; [done|].
    repeat (case_match; [apply IH|]). by intros [= <-].
Qed.

(** ** The prefixes of a token sequence of the grammar *)

Lemma prefix_app_cases {A} (p l1 l2 : list A) :
  p `prefix_of` l1 ++ l2 →
  p `prefix_of` l1 ∨ ∃ q, p = l1 ++ q ∧ q `prefix_of` l2.
Proof.
  intros [k Hk]. apply app_eq_inv in Hk as [(k' & -> & ->)|(k' & -> & ->)].
  - left. by exists k'.
  - right. exists k'. split; [done|]. by exists k.
Qed.

(** A prefix is the token sequence of a tree or of a partial stream. *)
Lemma prefix_complete_or_partial e :
  Grammar.grammatical e → ∀ p, p `prefix_of` Grammar.tokens_of e →
  (∃ e', Grammar.grammatical e' ∧ Grammar.tier e' ≤ Grammar.tier e
         ∧ Grammar.tokens_of e' = p ∧ Grammar.names e' ⊆ Grammar.names e)
  ∨ (∃ t, Grammar.partial_shape t ∧ Grammar.partial_tier t ≤ Grammar.tier e
          ∧ Grammar.partial_tokens t = p
          ∧ Grammar.partial_names t ⊆ Grammar.names e).
Proof.
  induction e as [name|e IH|e IH|op l IHl r IHr]; simpl.
  - intros Hname [|x p] Hp.
    + right. exists Grammar.Missing. simpl. split_and!; [done|lia|done|set_solver].
    + pose proof (prefix_cons_inv_1 _ _ _ _ Hp) as ->.
      apply prefix_cons_inv_2, prefix_nil_inv in Hp as ->.
      left. by exists (Grammar.SetRef name).
  - intros He [|x p] Hp.
    { right. exists Grammar.Missing. simpl. split_and!; [done|lia|done|set_solver]. }
    pose proof (prefix_cons_inv_1 _ _ _ _ Hp) as ->.
    apply prefix_cons_inv_2, prefix_app_cases in Hp as [Hp|(q & -> & Hq)].
    + destruct (IH He p Hp) as [(e' & He' & _ & <- & Hn)|(t & Ht & _ & <- & Hn)];
        right.
      * by exists (Grammar.Unclosed e').
      * by exists (Grammar.Open t).
    + destruct q as [|y q].
      * right. exists (Grammar.Unclosed e). simpl. by rewrite app_nil_r.
      * pose proof (prefix_cons_inv_1 _ _ _ _ Hq) as ->.
        apply prefix_cons_inv_2, prefix_nil_inv in Hq as ->.
        left. by exists (Grammar.Group e).
  - intros [Ht He] p Hp. apply prefix_app_cases in Hp as [Hp|(q & -> & Hq)].
    + destruct (IH He p Hp) as [(e' & He' & Hle & <- & Hn)|(t & Hs & Hle & <- & Hn)].
      * left. exists e'. split_and!; [done|lia|done|done].
      * right. exists t. split_and!; [done|lia|done|done].
    + destruct q as [|y q].
      * left. exists e. rewrite app_nil_r. split_and!; [done|lia|done|done].
      * pose proof (prefix_cons_inv_1 _ _ _ _ Hq) as ->.
        apply prefix_cons_inv_2, prefix_nil_inv in Hq as ->.
        left. by exists (Grammar.Negated e).
  - intros (Hl & Hr & Gl & Gr) p Hp.
    apply prefix_app_cases in Hp as [Hp|(q & -> & Hq)].
    + destruct (IHl Gl p Hp)
        as [(e' & He' & Hle & <- & Hn)|(t & Hs & Hle & <- & Hn)].
      * left. exists e'. split_and!; [done|lia|done|set_solver].
      * right. exists t. split_and!; [done|lia|done|set_solver].
    + destruct q as [|y q].
      * left. exists l. rewrite app_nil_r. split_and!; [done|lia|done|set_solver].
      * pose proof (prefix_cons_inv_1 _ _ _ _ Hq) as ->.
        apply prefix_cons_inv_2 in Hq.
        destruct (IHr Gr q Hq)
          as [(e' & He' & Hle & <- & Hn)|(t & Hs & Hle & <- & Hn)].
        -- left. exists (Grammar.Binary op l e'). simpl.
           split_and!; [lia|lia|done|done|lia|done|].
           intros x [?|?]%elem_of_app; apply elem_of_app; auto.
        -- right. exists (Grammar.After l op t). simpl.
           split_and!; [done|lia|done|lia|done|].
           intros x [?|?]%elem_of_app; apply elem_of_app; auto.
Qed.

(** The error of a partial stream, read off its last token. *)

Lemma opens_keyword op : Grammar.opens (Grammar.keyword op) = true.
Proof. by destruct op. Qed.

Lemma last_tokens_of e :
  Grammar.proper (Grammar.names e) →
  ∃ t, last (Grammar.tokens_of e) = Some t ∧ Grammar.opens t = false.
Proof.
  unfold Grammar.proper.
  induction e as [name|e IH|e IH|op l IHl r IHr]; simpl; intros Hn.
  - exists name. split; [done|]. by apply Forall_inv in Hn.
  - exists (lit ")"). split; [|done].
    by rewrite last_cons, last_snoc.
  - exists (lit "NOT"). by rewrite last_snoc.
  - apply Forall_app in Hn as [_ Hr]. destruct (IHr Hr) as (t & Ht & Hopen).
    exists t. split; [|done]. by rewrite last_app_cons, last_cons, Ht.
Qed.

Lemma operand_due_after (l q : list (list N)) t :
  Grammar.opens t = true →
  Grammar.operand_due (l ++ t :: q) = Grammar.operand_due q.
Proof.
  intros Ht. unfold Grammar.operand_due. rewrite last_app_cons, last_cons.
  by destruct (last q).
Qed.

Lemma operand_due_cons (q : list (list N)) t :
  Grammar.opens t = true → Grammar.operand_due (t :: q) = Grammar.operand_due q.
Proof. apply (operand_due_after []). Qed.

Lemma failure_operand_due t :
  Grammar.proper (Grammar.partial_names t) →
  Grammar.failure t
  = if Grammar.operand_due (Grammar.partial_tokens t) then UnexpectedEnd
    else MissingParenthesis.
Proof.
  unfold Grammar.proper.
  induction t as [|e op t IH|t IH|e]; simpl; intros Hn.
  - done.
  - apply Forall_app in Hn as [_ Hn].
    rewrite operand_due_after by apply opens_keyword. auto.
  - rewrite operand_due_cons by done. auto.
  - destruct (last_tokens_of e Hn) as (x & Hx & Hopen).
    unfold Grammar.operand_due.
    by rewrite last_cons, Hx, Hopen.
Qed.

(** The value of a tree is a vector or one of the errors of evaluation,
    never an error of the grammar. *)
Lemma denote_no_grammar_error masks universal e err :
  err = UnexpectedEnd ∨ err = MissingParenthesis →
  Grammar.denote masks universal e ≠ Raise err.
Proof.
  intros Herr.
  assert (Hb : ∀ f a b, broadcast f a b ≠ Raise err).
  { intros f a b. unfold broadcast. case_decide; [done|].
    destruct a as [|x [|]], b as [|y [|]]; try done;
      intros [= <-]; by destruct Herr. }
  induction e as [name|e IH|e IH|op l IHl r IHr]; simpl.
  - destruct (masks !! name); [done|]. intros [= <-]. by destruct Herr.
  - done.
  - destruct (Grammar.denote masks universal e); [apply Hb|done..].
  - destruct (Grammar.denote masks universal l); [|done..]. simpl_bind.
    destruct (Grammar.denote masks universal r); [|done..]. simpl_bind.
    destruct op; apply Hb.
Qed.

(** A token list on which the parser raises an error of the grammar is not
    the token sequence of a tree. *)
Lemma not_tokens_of_tree masks universal p err :
  err = UnexpectedEnd ∨ err = MissingParenthesis →
  _parse_expression (S (length p)) p 0 masks universal = Raise err →
  ∀ e, Grammar.grammatical e → Grammar.tokens_of e ≠ p.
Proof.
  intros Herr Hp e He <-.
  pose proof (_parse_expression_tree masks universal e [] He I) as H.
  rewrite app_nil_r in H. rewrite H in Hp.
  destruct (Grammar.denote masks universal e) eqn:Hd; try done.
  injection Hp as ->. by apply (denote_no_grammar_error masks universal e err).
Qed.

(** ** The recursion limit *)

Ltac simpl_limited := cbn [mbind Limited.limited_bind mret Limited.limited_ret].

Lemma more_frames_refl {A} (r : Limited.limited A) : more_frames r r.
Proof. by right. Qed.

Lemma more_frames_bind {A B} (x x' : Limited.limited A)
    (f f' : A → Limited.limited B) :
  more_frames x x' → (∀ a, more_frames (f a) (f' a)) →
  more_frames (x ≫= f) (x' ≫= f').
Proof.
  intros [->| ->] Hf; [by left|]. destruct x' as [[a| |]|]; simpl; auto.
  all: by right.
Qed.

Lemma more_frames_call {A} frames frames' (body body' : nat → Limited.limited A) :
  frames ≤ frames' →
  (∀ f f', f ≤ f' → more_frames (body f) (body' f')) →
  more_frames (Limited.call frames body) (Limited.call frames' body').
Proof.
  intros Hle Hbody. destruct frames as [|f]; [by left|].
  destruct frames' as [|f']; [lia|]. simpl. apply Hbody. lia.
Qed.

Lemma within_bind {A B} (x : outcome A) (f : A → Limited.limited B)
    (g : A → outcome B) :
  (∀ a, f a = Limited.Within (g a)) →
  Limited.Within x ≫= f = Limited.Within (x ≫= g).
Proof. intros H. destruct x as [a| |]; simpl; [apply H|done..]. Qed.

Lemma parentheses_cons token tokens :
  parentheses (token :: tokens)
  = (if bool_decide (token = lit "(") then 1 else 0) + parentheses tokens.
Proof.
  unfold parentheses. rewrite filter_cons. case_bool_decide.
  - by rewrite decide_True.
  - by rewrite decide_False.
Qed.

Lemma parentheses_app l k : parentheses (l ++ k) = parentheses l + parentheses k.
Proof. unfold parentheses. by rewrite filter_app, length_app. Qed.

Lemma parentheses_drop tokens pos pos' :
  pos ≤ pos' → parentheses (drop pos' tokens) ≤ parentheses (drop pos tokens).
Proof.
  intros Hle. replace pos' with (pos + (pos' - pos)) by lia.
  rewrite <- drop_drop.
  rewrite <- (take_drop (pos' - pos) (drop pos tokens)) at 2.
  rewrite parentheses_app. lia.
Qed.

Lemma parentheses_open tokens pos :
  tokens !! pos = Some (lit "(") →
  parentheses (drop pos tokens) = S (parentheses (drop (pos + 1) tokens)).
Proof.
  intros H. apply drop_S in H. rewrite H, parentheses_cons, Nat.add_1_r.
  by rewrite bool_decide_eq_true_2.
Qed.

Section limited_facts.
Context (tokens : list (list N)) (masks : gmap (list N) (list bool))
  (universal : list bool).

Import Grammar.

Local Abbreviation tier_parser := (tier_parser tokens masks universal).
Local Abbreviation limited_tier_parser :=
  (limited_tier_parser tokens masks universal).

Lemma limited_tier_parser_binary L fuel frames pos :
  2 ≤ L ≤ 5 →
  limited_tier_parser L fuel frames pos
  = Limited.call frames (λ frames,
      '(lhs, pos) ← limited_tier_parser (L - 1) fuel frames pos;
      Limited.while_token fuel (keyword (op_at L))
        (limited_tier_parser (L - 1) fuel frames) (fold (op_at L)) tokens lhs pos).
Proof.
  intros HL. do 6 (destruct L as [|L]; [try lia; try reflexivity|]). lia.
Qed.

Lemma limited_tier_parser_not fuel frames pos :
  limited_tier_parser 1 fuel frames pos
  = Limited.call frames (λ frames,
      '(operand, pos) ← limited_tier_parser 0 fuel frames pos;
      if at_token tokens pos (lit "NOT") then
        result ← Limited.Within (np_and universal (np_invert operand));
        Limited.Within (Ok (result, pos + 1))
      else Limited.Within (Ok (operand, pos))).
Proof. reflexivity. Qed.

(** *** With frames enough the limit does not intervene *)

Lemma limited_while_token_within n kw operand' operand fold lhs pos :
  (∀ p, pos < p → operand' p = Limited.Within (operand p)) →
  (∀ p v p', operand p = Ok (v, p') → p < p') →
  Limited.while_token n kw operand' fold tokens lhs pos
  = Limited.Within (while_token n kw operand fold tokens lhs pos).
Proof.
  intros Hop Hadv. revert lhs pos Hop.
  induction n as [|n IH]; intros lhs pos Hop; simpl;
    destruct (at_token tokens pos kw); try done.
  rewrite Hop by lia.
  destruct (operand (pos + 1)) as [[rhs p1]| |] eqn:Hrhs; simpl; [|done..].
  apply Hadv in Hrhs.
  destruct (fold lhs rhs) as [lhs'| |]; simpl; [|done..].
  apply IH. intros p Hp. apply Hop. lia.
Qed.

Lemma limited_tiers_within fuel :
  (∀ frames pos, 7 * parentheses (drop pos tokens) + 7 ≤ frames →
     Limited._parse_expression fuel frames tokens pos masks universal
     = Limited.Within (_parse_expression fuel tokens pos masks universal)) →
  ∀ L, L ≤ 5 → ∀ frames pos,
    7 * parentheses (drop pos tokens) + L + 1 ≤ frames →
    limited_tier_parser L fuel frames pos
    = Limited.Within (tier_parser L fuel pos).
Proof.
  intros Hexpr.
  assert (H0 : ∀ frames pos, 7 * parentheses (drop pos tokens) + 0 + 1 ≤ frames →
    limited_tier_parser 0 fuel frames pos = Limited.Within (tier_parser 0 fuel pos)).
  { intros [|frames] pos Hf; [lia|].
    unfold limited_tier_parser, tier_parser, Limited._parse_atom, _parse_atom.
    cbn [Limited.call].
    destruct (tokens !! pos) as [token|] eqn:Htoken; [|done].
    case_bool_decide as Hopen; [|by destruct (masks !! token)].
    subst token. rewrite Hexpr by (rewrite (parentheses_open _ _ Htoken) in Hf; lia).
    destruct (_parse_expression fuel tokens (pos + 1) masks universal)
      as [[result p]| |]; simpl; [|done..].
    by destruct (at_token tokens p _). }
  assert (H1 : ∀ frames pos, 7 * parentheses (drop pos tokens) + 1 + 1 ≤ frames →
    limited_tier_parser 1 fuel frames pos = Limited.Within (tier_parser 1 fuel pos)).
  { intros [|frames] pos Hf; [lia|].
    rewrite limited_tier_parser_not, tier_parser_not. cbn [Limited.call].
    rewrite H0 by lia.
    destruct (tier_parser 0 fuel pos) as [[operand p]| |]; simpl; [|done..].
    destruct (at_token tokens p _); [|done].
    by destruct (np_and universal (np_invert operand)). }
  intros L. induction L as [|L IHL]; intros HL; [exact H0|].
  destruct L as [|L]; [exact H1|].
  intros [|frames] pos Hf; [lia|].
  rewrite limited_tier_parser_binary, tier_parser_binary by lia.
  cbn [Limited.call]. replace (S (S L) - 1) with (S L) by lia.
  rewrite IHL by lia.
  destruct (tier_parser (S L) fuel pos) as [[lhs p1]| |] eqn:Hlhs; simpl; [|done..].
  apply tier_parser_advances in Hlhs.
  unfold tier_loop. replace (S (S L) - 1) with (S L) by lia.
  apply limited_while_token_within.
  - intros p Hp. apply IHL; [lia|].
    pose proof (parentheses_drop tokens pos p ltac:(lia)). lia.
  - intros p v p'. apply tier_parser_advances.
Qed.

Lemma limited__parse_expression_within fuel frames pos :
  7 * parentheses (drop pos tokens) + 7 ≤ frames →
  Limited._parse_expression fuel frames tokens pos masks universal
  = Limited.Within (_parse_expression fuel tokens pos masks universal).
Proof.
  revert frames pos. induction fuel as [|fuel IH]; intros frames pos Hf; [done|].
  destruct frames as [|frames]; [lia|].
  cbn [Limited._parse_expression _parse_expression Limited.call].
  apply (limited_tiers_within fuel IH 5); lia.
Qed.

(** *** More frames change nothing but a [RecursionError] *)

Lemma limited_while_token_mono n kw operand operand' fold lhs pos :
  (∀ p, more_frames (operand p) (operand' p)) →
  more_frames (Limited.while_token n kw operand fold tokens lhs pos)
    (Limited.while_token n kw operand' fold tokens lhs pos).
Proof.
  intros Hop. revert lhs pos. induction n as [|n IH]; intros lhs pos; simpl;
    destruct (at_token tokens pos kw); try apply more_frames_refl.
  apply more_frames_bind; [apply Hop|]. intros [rhs p].
  destruct (fold lhs rhs) as [lhs'| |]; [apply IH|apply more_frames_refl..].
Qed.

Lemma limited_tiers_mono fuel :
  (∀ frames frames' pos, frames ≤ frames' →
     more_frames (Limited._parse_expression fuel frames tokens pos masks universal)
       (Limited._parse_expression fuel frames' tokens pos masks universal)) →
  ∀ L, L ≤ 5 → ∀ frames frames' pos, frames ≤ frames' →
    more_frames (limited_tier_parser L fuel frames pos)
      (limited_tier_parser L fuel frames' pos).
Proof.
  intros Hexpr.
  assert (H0 : ∀ frames frames' pos, frames ≤ frames' →
    more_frames (limited_tier_parser 0 fuel frames pos)
      (limited_tier_parser 0 fuel frames' pos)).
  { intros frames frames' pos Hle.
    unfold limited_tier_parser, Limited._parse_atom.
    apply more_frames_call; [done|]. intros f f' Hf.
    destruct (tokens !! pos) as [token|]; [|apply more_frames_refl].
    case_bool_decide; [|apply more_frames_refl].
    apply more_frames_bind; [by apply Hexpr|]. intros [result p].
    apply more_frames_refl. }
  assert (H1 : ∀ frames frames' pos, frames ≤ frames' →
    more_frames (limited_tier_parser 1 fuel frames pos)
      (limited_tier_parser 1 fuel frames' pos)).
  { intros frames frames' pos Hle. rewrite !limited_tier_parser_not.
    apply more_frames_call; [done|]. intros f f' Hf.
    apply more_frames_bind; [by apply H0|]. intros [operand p].
    apply more_frames_refl. }
  intros L. induction L as [|L IHL]; intros HL; [exact H0|].
  destruct L as [|L]; [exact H1|].
  intros frames frames' pos Hle. rewrite !limited_tier_parser_binary by lia.
  apply more_frames_call; [done|]. intros f f' Hf.
  replace (S (S L) - 1) with (S L) by lia.
  apply more_frames_bind; [apply IHL; lia|]. intros [lhs p].
  apply limited_while_token_mono. intros q. apply IHL; lia.
Qed.

Lemma limited__parse_expression_mono fuel frames frames' pos :
  frames ≤ frames' →
  more_frames (Limited._parse_expression fuel frames tokens pos masks universal)
    (Limited._parse_expression fuel frames' tokens pos masks universal).
Proof.
  revert frames frames' pos. induction fuel as [|fuel IH];
    intros frames frames' pos Hle; [apply more_frames_refl|].
  cbn [Limited._parse_expression].
  apply more_frames_call; [done|]. intros f f' Hf.
  apply (limited_tiers_mono fuel IH 5); lia.
Qed.

End limited_facts.

(** *** [_safe_evaluate] and [evaluate_expression] under the limit *)

Lemma limited__safe_evaluate_within frames points expr masks :
  (∀ tokens, _tokenize (strip expr) = Ok tokens →
     7 * parentheses tokens + 7 ≤ frames) →
  1 ≤ frames →
  Limited._safe_evaluate frames points expr masks
  = Limited.Within (_safe_evaluate points expr masks).
Proof.
  intros Htokens Hframes. unfold Limited._safe_evaluate, _safe_evaluate. cbn zeta.
  destruct frames as [|f]; [lia|]. cbn [Limited.call].
  destruct (_tokenize (strip expr)) as [tokens| |] eqn:Htok; simpl_limited;
    simpl_bind; [|done..].
  rewrite limited__parse_expression_within by (by apply Htokens).
  by destruct (_parse_expression _ _ _ _ _) as [[result p]| |].
Qed.

Lemma limited__safe_evaluate_mono frames frames' points expr masks :
  frames ≤ frames' →
  more_frames (Limited._safe_evaluate frames points expr masks)
    (Limited._safe_evaluate frames' points expr masks).
Proof.
  intros Hle. unfold Limited._safe_evaluate. cbn zeta.
  apply more_frames_bind.
  { apply more_frames_call; [done|]. intros. apply more_frames_refl. }
  intros tokens. apply more_frames_bind; [|intros [result p]; apply more_frames_refl].
  by apply limited__parse_expression_mono.
Qed.

Lemma limited__safe_evaluate_cases frames points expr masks :
  Limited._safe_evaluate frames points expr masks = Limited.RecursionError
  ∨ Limited._safe_evaluate frames points expr masks
    = Limited.Within (_safe_evaluate points expr masks).
Proof.
  set (enough := match _tokenize (strip expr) with
                 | Ok tokens => 7 * parentheses tokens + 7
                 | _ => 1
                 end).
  destruct (limited__safe_evaluate_mono frames (frames `max` enough) points expr masks)
    as [H|H]; [lia|by left|].
  right. rewrite H. apply limited__safe_evaluate_within; [|subst enough; case_match; lia].
  intros tokens Htok. subst enough. rewrite Htok. lia.
Qed.

Lemma limited_evaluate_expression_within frames points points_in_circle expression :
  (∀ tokens, _tokenize (strip expression) = Ok tokens →
     7 * parentheses tokens + 8 ≤ frames) →
  2 ≤ frames →
  Limited.evaluate_expression frames points points_in_circle expression
  = uncaught (evaluate_expression points points_in_circle expression).
Proof.
  intros Htokens Hframes. unfold Limited.evaluate_expression, evaluate_expression.
  destruct (_ || _); [done|]. cbn zeta.
  destruct frames as [|f]; [lia|]. cbn [Limited.call].
  rewrite limited__safe_evaluate_within.
  - by destruct (_safe_evaluate _ _ _).
  - intros tokens Htok. specialize (Htokens tokens Htok). lia.
  - lia.
Qed.

(** ** Characters that are no tokens *)

Lemma _safe_evaluate_unknown points expr masks x :
  x ∈ expr → isspace x = false → x ∉ alphabet →
  ∃ c, c ∈ expr ∧ isspace c = false ∧ (c ∉ alphabet)
       ∧ _safe_evaluate points expr masks = Raise (UnknownCharacter c).
Proof.
  intros Hx Hsp Hal.
  destruct (list_find_elem_of (λ c, recognized c = false) expr x Hx) as [[i c] Hic].
  { by apply recognized_false. }
  pose proof Hic as (Hi & Hc & _)%list_find_Some.
  pose proof (proj1 (recognized_false c) Hc) as [Hcsp Hcal].
  exists c. split_and!; [by eapply list_elem_of_lookup_2|done..|].
  destruct (first_unknown_split expr i c Hic) as (good & rest & -> & _ & Hgood & _).
  destruct (strip_keeps good c rest Hcsp) as (good' & rest' & Hstrip & [k ->]).
  apply Forall_app in Hgood as [Hk Hgood'].
  unfold _safe_evaluate, _tokenize. rewrite Hstrip.
  by rewrite _tokenize_from_unknown.
Qed.

(** ** The properties of the specification *)

Section properties.
Import Grammar.

Local Ltac solve_left_over :=
  first [ done
        | simpl; split; [intros []; discriminate|];
          first [discriminate | intros _; reflexivity] ].

(** The formula of the goal has the tokens of [e] followed by [rest]. *)
Local Ltac by_tree e rest :=
  rewrite (_safe_evaluate_tree _ _ _ e rest);
  [ cbn [denote fold]
  | vm_compute; reflexivity
  | simpl; repeat split; (lia || done)
  | solve_left_over ].

Local Abbreviation A := (SetRef (lit "A")).
Local Abbreviation B := (SetRef (lit "B")).
Local Abbreviation C := (SetRef (lit "C")).

(** C1. The tiers bind as the calls nest, postfix Not tightest, then And,
    Xor, Diff and Or loosest: a formula whose tokens are those of a tree of
    the grammar evaluates to the value of that tree, as long as the
    interpreter has seven frames left for each of its levels of
    parentheses. So "A U B - C" is
    [m[A] | (m[B] & ~m[C])] and "A - B U C" is [(m[A] & ~m[B]) | m[C]]
    (elementwise when the masks have one length), and likewise for each
    pair of neighbouring tiers. *)
Theorem precedence_follows_call_nesting points masks a b c :
  masks !! lit "A" = Some a → masks !! lit "B" = Some b →
  masks !! lit "C" = Some c →
  (∀ frames expr e,
     grammatical e → _tokenize (strip expr) = Ok (tokens_of e) →
     7 * (parentheses (tokens_of e) + 2) ≤ frames →
     Limited._safe_evaluate frames points expr masks
     = Limited.Within (denote masks (np_ones points) e))
  ∧ _safe_evaluate points (lit "A U B - C") masks
    = (x ← np_and b (np_invert c); np_or a x)
  ∧ _safe_evaluate points (lit "A - B U C") masks
    = (x ← np_and a (np_invert b); np_or x c)
  ∧ _safe_evaluate points (lit "A - B ^ C") masks
    = (x ← np_xor b c; np_and a (np_invert x))
  ∧ _safe_evaluate points (lit "A ^ B - C") masks
    = (x ← np_xor a b; np_and x (np_invert c))
  ∧ _safe_evaluate points (lit "A ^ B & C") masks
    = (x ← np_and b c; np_xor a x)
  ∧ _safe_evaluate points (lit "A & B ^ C") masks
    = (x ← np_and a b; np_xor x c)
  ∧ _safe_evaluate points (lit "A & B.") masks
    = (x ← np_and (np_ones points) (np_invert b); np_and a x)
  ∧ (length a = length b → length b = length c →
     _safe_evaluate points (lit "A U B - C") masks
     = Ok (zip_with orb a (zip_with andb b (negb <$> c)))
     ∧ _safe_evaluate points (lit "A - B U C") masks
       = Ok (zip_with orb (zip_with andb a (negb <$> b)) c)).
Proof.
  intros HA HB HC. split_and!.
  - intros frames expr e He Htok Hf. rewrite limited__safe_evaluate_within.
    + f_equal. apply (_safe_evaluate_tree _ _ _ e []); [|done..].
      by rewrite app_nil_r.
    + intros tokens Ht. rewrite Htok in Ht. injection Ht as <-. lia.
    + lia.
  - by_tree (Binary Or A (Binary Diff B C)) (@nil (list N)).
    by rewrite HA, HB, HC.
  - by_tree (Binary Or (Binary Diff A B) C) (@nil (list N)).
    rewrite HA, HB, HC. simpl_bind. by destruct (np_and a (np_invert b)).
  - by_tree (Binary Diff A (Binary Xor B C)) (@nil (list N)).
    by rewrite HA, HB, HC.
  - by_tree (Binary Diff (Binary Xor A B) C) (@nil (list N)).
    rewrite HA, HB, HC. simpl_bind. by destruct (np_xor a b).
  - by_tree (Binary Xor A (Binary And B C)) (@nil (list N)).
    by rewrite HA, HB, HC.
  - by_tree (Binary Xor (Binary And A B) C) (@nil (list N)).
    rewrite HA, HB, HC. simpl_bind. by destruct (np_and a b).
  - by_tree (Binary And A (Negated B)) (@nil (list N)).
    by rewrite HA, HB.
  - intros Hab Hbc. split.
    + by_tree (Binary Or A (Binary Diff B C)) (@nil (list N)).
      rewrite HA, HB, HC. simpl_bind. unfold np_and, np_or, np_invert.
      rewrite broadcast_same by (rewrite length_fmap; lia). simpl_bind.
      rewrite broadcast_same; [done|].
      rewrite length_zip_with, length_fmap. lia.
    + by_tree (Binary Or (Binary Diff A B) C) (@nil (list N)).
      rewrite HA, HB, HC. simpl_bind. unfold np_and, np_or, np_invert.
      rewrite broadcast_same by (rewrite length_fmap; lia). simpl_bind.
      rewrite broadcast_same; [done|].
      rewrite length_zip_with, length_fmap. lia.
Qed.

Lemma precedence_follows_call_nesting_witness :
  sample_masks !! lit "A" = Some [true; true; false; false]
  ∧ sample_masks !! lit "B" = Some [true; false; true; false]
  ∧ sample_masks !! lit "C" = Some [true; false; false; true]
  ∧ _safe_evaluate 4 (lit "A U B - C") sample_masks
    = Ok [true; true; true; false]
  ∧ _safe_evaluate 4 (lit "A - B U C") sample_masks
    = Ok [true; true; false; true].
Proof.
  assert (HA : sample_masks !! lit "A" = Some [true; true; false; false])
    by (vm_compute; reflexivity).
  assert (HB : sample_masks !! lit "B" = Some [true; false; true; false])
    by (vm_compute; reflexivity).
  assert (HC : sample_masks !! lit "C" = Some [true; false; false; true])
    by (vm_compute; reflexivity).
  destruct (precedence_follows_call_nesting 4 sample_masks _ _ _ HA HB HC)
    as (_ & H1 & H2 & _).
  split_and!; [exact HA|exact HB|exact HC|..].
  - rewrite H1. vm_compute. reflexivity.
  - rewrite H2. vm_compute. reflexivity.
Defined.

(** The order of the docstring of [_parse_expression], with Or tighter than
    Diff, is not the one the calls implement: "A U B - C" is not
    "(A U B) - C". *)
Example docstring_order_is_not_implemented :
  _safe_evaluate 4 (lit "A U B - C") sample_masks = Ok [true; true; true; false]
  ∧ _safe_evaluate 4 (lit "(A U B) - C") sample_masks
    = Ok [false; true; true; false].
Proof. split; vm_compute; reflexivity. Qed.

(** C2. On masks of one length, "A U B" is the elementwise OR of [m[A]] and
    [m[B]], "A & B" their elementwise AND, "A ^ B" their elementwise XOR and
    "A - B" is elementwise [m[A]] AND NOT [m[B]]. *)
Theorem binary_operators_elementwise points masks a b :
  masks !! lit "A" = Some a → masks !! lit "B" = Some b →
  length a = length b →
  _safe_evaluate points (lit "A U B") masks = Ok (zip_with orb a b)
  ∧ _safe_evaluate points (lit "A & B") masks = Ok (zip_with andb a b)
  ∧ _safe_evaluate points (lit "A ^ B") masks = Ok (zip_with xorb a b)
  ∧ _safe_evaluate points (lit "A - B") masks
    = Ok (zip_with (λ x y, x && negb y) a b).
Proof.
  intros HA HB Hlen. split_and!.
  - by_tree (Binary Or A B) (@nil (list N)).
    rewrite HA, HB. simpl_bind. by apply broadcast_same.
  - by_tree (Binary And A B) (@nil (list N)).
    rewrite HA, HB. simpl_bind. by apply broadcast_same.
  - by_tree (Binary Xor A B) (@nil (list N)).
    rewrite HA, HB. simpl_bind. by apply broadcast_same.
  - by_tree (Binary Diff A B) (@nil (list N)).
    rewrite HA, HB. simpl_bind. unfold np_and, np_invert.
    rewrite broadcast_same by (by rewrite length_fmap).
    by rewrite zip_with_fmap_r.
Qed.

Lemma binary_operators_elementwise_witness :
  sample_masks !! lit "A" = Some [true; true; false; false]
  ∧ sample_masks !! lit "B" = Some [true; false; true; false]
  ∧ length [true; true; false; false] = length [true; false; true; false]
  ∧ _safe_evaluate 4 (lit "A U B") sample_masks = Ok [true; true; true; false]
  ∧ _safe_evaluate 4 (lit "A & B") sample_masks = Ok [true; false; false; false]
  ∧ _safe_evaluate 4 (lit "A ^ B") sample_masks = Ok [false; true; true; false]
  ∧ _safe_evaluate 4 (lit "A - B") sample_masks = Ok [false; true; false; false].
Proof.
  assert (HA : sample_masks !! lit "A" = Some [true; true; false; false])
    by (vm_compute; reflexivity).
  assert (HB : sample_masks !! lit "B" = Some [true; false; true; false])
    by (vm_compute; reflexivity).
  assert (Hlen : length [true; true; false; false]
                 = length [true; false; true; false]) by reflexivity.
  split_and!; [exact HA|exact HB|exact Hlen|..];
    apply (binary_operators_elementwise 4 sample_masks _ _ HA HB Hlen).
Defined.

(** C3. "A." is the elementwise complement of "A": the postfix Not is
    applied once, to the atom before it, as [universal & ~operand], which
    on a mask over the universe is its complement. *)
Theorem postfix_not_complements points masks a :
  masks !! lit "A" = Some a → length a = points →
  _safe_evaluate points (lit "A") masks = Ok a
  ∧ _safe_evaluate points (lit "A.") masks = Ok (negb <$> a)
  ∧ (∀ expression tokens pos operand pos',
       _parse_atom expression tokens pos masks (np_ones points)
       = Ok (operand, pos') →
       tokens !! pos' = Some (lit "NOT") →
       _parse_not expression tokens pos masks (np_ones points)
       = (result ← np_and (np_ones points) (np_invert operand);
          Ok (result, pos' + 1)))
  ∧ (∀ operand, length operand = points →
       np_and (np_ones points) (np_invert operand) = Ok (negb <$> operand)).
Proof.
  intros HA Hlen. split_and!.
  - by_tree (SetRef (lit "A")) (@nil (list N)). by rewrite HA.
  - by_tree (Negated A) (@nil (list N)). rewrite HA. simpl_bind.
    apply np_and_ones. by rewrite np_invert_length.
  - intros expression tokens pos operand pos' Hatom Hnot.
    unfold _parse_not. rewrite Hatom. simpl_bind.
    by rewrite (proj2 (at_token_spec _ _ _) Hnot).
  - intros operand Hop. apply np_and_ones. by rewrite np_invert_length.
Qed.

Lemma postfix_not_complements_witness :
  sample_masks !! lit "A" = Some [true; true; false; false]
  ∧ length [true; true; false; false] = 4
  ∧ _safe_evaluate 4 (lit "A") sample_masks = Ok [true; true; false; false]
  ∧ _safe_evaluate 4 (lit "A.") sample_masks = Ok [false; false; true; true].
Proof.
  assert (HA : sample_masks !! lit "A" = Some [true; true; false; false])
    by (vm_compute; reflexivity).
  assert (Hlen : length [true; true; false; false] = 4) by reflexivity.
  destruct (postfix_not_complements 4 sample_masks _ HA Hlen) as (H1 & H2 & _).
  split_and!; [exact HA|exact Hlen|exact H1|exact H2].
Defined.

(** C4, as the source has it: "A.." is not rejected. The second Not is
    left unconsumed and the formula evaluates as "A." does, to the
    complement of [m[A]]. *)
Theorem double_not_evaluates_as_single points masks a :
  masks !! lit "A" = Some a → length a = points →
  _safe_evaluate points (lit "A..") masks = Ok (negb <$> a)
  ∧ _safe_evaluate points (lit "A..") masks
    = _safe_evaluate points (lit "A.") masks
  ∧ _parse_expression 4 [lit "A"; lit "NOT"; lit "NOT"] 0 masks (np_ones points)
    = Ok (negb <$> a, 2).
Proof.
  intros HA Hlen.
  assert (Hnot : denote masks (np_ones points) (Negated A) = Ok (negb <$> a)).
  { cbn [denote]. rewrite HA. simpl_bind.
    apply np_and_ones. by rewrite np_invert_length. }
  split_and!.
  - by_tree (Negated A) [lit "NOT"]. exact Hnot.
  - by_tree (Negated A) [lit "NOT"]. by_tree (Negated A) (@nil (list N)). done.
  - etransitivity.
    { apply (_parse_expression_tree masks (np_ones points) (Negated A)
               [lit "NOT"]); [simpl; repeat split; (lia || done)|solve_left_over]. }
    by rewrite Hnot.
Qed.

Lemma double_not_evaluates_as_single_witness :
  sample_masks !! lit "A" = Some [true; true; false; false]
  ∧ length [true; true; false; false] = 4
  ∧ _safe_evaluate 4 (lit "A..") sample_masks = Ok [false; false; true; true].
Proof.
  assert (HA : sample_masks !! lit "A" = Some [true; true; false; false])
    by (vm_compute; reflexivity).
  assert (Hlen : length [true; true; false; false] = 4) by reflexivity.
  split_and!; [exact HA|exact Hlen|].
  apply (double_not_evaluates_as_single 4 sample_masks _ HA Hlen).
Defined.

(** Against C4 as stated: "A.." returns a vector. *)
Lemma double_not_is_not_rejected :
  _safe_evaluate 4 (lit "A..") sample_masks = Ok [false; false; true; true].
Proof. vm_compute. reflexivity. Qed.




(** C6, as the source has it: at an atom position a token other than "("
    is looked up in the membership map; it resolves to its mask, and a
    token without an entry, a set name as much as an operator, raises the
    one "Unexpected token" error. A name with a character that is neither
    whitespace nor one of the ten of the alphabet, such as D, does not
    reach the parser: the tokenizer raises "Unknown character" on the
    formula, whatever the membership map holds, also when the map has an
    entry for the name. *)
Theorem atom_resolution expression tokens pos masks universal token points c :
  tokens !! pos = Some token → token ≠ lit "(" → c ∈ lit "ABC" →
  _parse_atom expression tokens pos masks universal
  = match masks !! token with
    | Some mask => Ok (mask, pos + 1)
    | None => Raise (UnexpectedToken token)
    end
  ∧ _safe_evaluate points [c] masks
    = match masks !! [c] with
      | Some mask => Ok mask
      | None => Raise (UnexpectedToken [c])
      end
  ∧ message (UnexpectedToken token) = lit "Unexpected token: " ++ token
  ∧ (∀ name x masks',
       x ∈ name → isspace x = false → x ∉ alphabet →
       ∃ c', c' ∈ name ∧ isspace c' = false ∧ (c' ∉ alphabet)
             ∧ _safe_evaluate points name masks' = Raise (UnknownCharacter c')
             ∧ message (UnknownCharacter c') = lit "Unknown character: " ++ [c'])
  ∧ (∀ x masks',
       isspace x = false → x ∉ alphabet →
       _safe_evaluate points [x] masks' = Raise (UnknownCharacter x)).
Proof.
  intros Htok Hopen Hc. split_and!.
  5:{ intros x masks' Hsp Hal.
      destruct (_safe_evaluate_unknown points [x] masks' x) as (c' & Hin & _ & _ & H);
        [apply list_elem_of_here|done..|].
      apply list_elem_of_singleton in Hin. by subst c'. }
  4:{ intros name x masks' Hx Hsp Hal.
      destruct (_safe_evaluate_unknown points name masks' x Hx Hsp Hal)
        as (c' & Hin & Hsp' & Hal' & H).
      by exists c'. }
  - unfold _parse_atom. rewrite Htok. by rewrite bool_decide_eq_false_2.
  - change (lit "ABC") with [65; 66; 67]%N in Hc.
    rewrite !elem_of_cons, elem_of_nil in Hc.
    rewrite (_safe_evaluate_tree _ _ _ (SetRef [c]) []).
    + simpl. by destruct (masks !! [c]).
    + destruct Hc as [->|[->|[->|[]]]]; vm_compute; reflexivity.
    + destruct Hc as [->|[->|[->|[]]]]; simpl; discriminate.
    + done.
  - reflexivity.
Qed.

Lemma atom_resolution_witness :
  [lit "B"] !! 0 = Some (lit "B") ∧ lit "B" ≠ lit "(" ∧ ch "B" ∈ lit "ABC"
  ∧ _safe_evaluate 4 (lit "B") sample_masks = Ok [true; false; true; false]
  ∧ _safe_evaluate 4 (lit "B") (delete (lit "B") sample_masks)
    = Raise (UnexpectedToken (lit "B"))
  ∧ _safe_evaluate 4 (lit "D") (<[lit "D" := [true; true; true; true]]> sample_masks)
    = Raise (UnknownCharacter (ch "D")).
Proof.
  assert (H1 : [lit "B"] !! 0 = Some (lit "B")) by reflexivity.
  assert (H2 : lit "B" ≠ lit "(") by discriminate.
  assert (H3 : ch "B" ∈ lit "ABC")
    by (apply list_elem_of_further, list_elem_of_here).
  split_and!; [exact H1|exact H2|exact H3|..].
  - destruct (atom_resolution (_parse_expression 1) [lit "B"] 0 sample_masks
                (np_ones 4) (lit "B") 4 (ch "B") H1 H2 H3) as (_ & H & _).
    exact H.
  - destruct (atom_resolution (_parse_expression 1) [lit "B"] 0
                (delete (lit "B") sample_masks)
                (np_ones 4) (lit "B") 4 (ch "B") H1 H2 H3) as (_ & H & _).
    exact H.
  - destruct (atom_resolution (_parse_expression 1) [lit "B"] 0 sample_masks
                (np_ones 4) (lit "B") 4 (ch "B") H1 H2 H3) as (_ & _ & _ & _ & H).
    apply (H (ch "D")); [reflexivity|].
    intros Hin. apply list_elem_of_In in Hin. simpl in Hin.
    repeat (destruct Hin as [Hin|Hin]; [discriminate Hin|]). exact Hin.
Defined.

(** Against C6 as stated: a set name without an entry raises the error that
    an operator at an atom position raises. *)
Lemma unknown_set_is_unexpected_token :
  delete (lit "B") sample_masks !! lit "B" = None
  ∧ _safe_evaluate 4 (lit "B") (delete (lit "B") sample_masks)
    = Raise (UnexpectedToken (lit "B"))
  ∧ _safe_evaluate 4 (lit "U") (delete (lit "B") sample_masks)
    = Raise (UnexpectedToken (lit "OR"))
  ∧ message (UnexpectedToken (lit "B")) = lit "Unexpected token: B".
Proof. split_and!; vm_compute; reflexivity. Qed.

(** C7, as the source has it: a formula with a character that is neither
    whitespace nor in the alphabet fails in the tokenizer, at the first such
    character, with the "Unknown character" error, which carries that
    character and nothing else; [_safe_evaluate] raises it for every
    membership map, and [evaluate_expression] reports it and returns the
    all-false vector. *)
Theorem unknown_character_raises expr x :
  x ∈ expr → isspace x = false → x ∉ alphabet →
  ∃ i c,
    first_unknown expr = Some (i, c) ∧ expr !! i = Some c
    ∧ isspace c = false ∧ (c ∉ alphabet)
    ∧ _tokenize expr = Raise (UnknownCharacter c)
    ∧ (∀ points masks,
         _safe_evaluate points expr masks = Raise (UnknownCharacter c))
    ∧ (∀ points points_in_circle,
         evaluate_expression points points_in_circle expr
         = Ok (np_zeros points, Some (UnknownCharacter c)))
    ∧ message (UnknownCharacter c) = lit "Unknown character: " ++ [c].
Proof.
  intros Hx Hsp Hal.
  destruct (list_find_elem_of (λ c, recognized c = false) expr x Hx) as [[i c] Hic].
  { by apply recognized_false. }
  exists i, c.
  pose proof Hic as (Hi & Hc & _)%list_find_Some.
  apply recognized_false in Hc as Hc'. destruct Hc' as [Hcsp Hcal].
  destruct (first_unknown_split expr i c Hic) as (good & rest & -> & _ & Hgood & _).
  destruct (strip_keeps good c rest Hcsp) as (good' & rest' & Hstrip & [k ->]).
  apply Forall_app in Hgood as [Hk Hgood'].
  assert (Heval : ∀ points masks,
    _safe_evaluate points ((k ++ good') ++ c :: rest) masks
    = Raise (UnknownCharacter c)).
  { intros points masks. unfold _safe_evaluate, _tokenize. rewrite Hstrip.
    by rewrite _tokenize_from_unknown. }
  split_and!; try done.
  - unfold _tokenize. apply _tokenize_from_unknown; [|done].
    by apply Forall_app.
  - intros points points_in_circle. unfold evaluate_expression.
    rewrite Heval, Hstrip.
    rewrite bool_decide_eq_false_2 by (by destruct (k ++ good')).
    rewrite bool_decide_eq_false_2 by (by destruct good'). done.
Qed.

Lemma unknown_character_raises_witness :
  ch "#" ∈ lit "A U B #" ∧ isspace (ch "#") = false ∧ (ch "#" ∉ alphabet)
  ∧ ∃ i c, first_unknown (lit "A U B #") = Some (i, c)
           ∧ _safe_evaluate 4 (lit "A U B #") sample_masks
             = Raise (UnknownCharacter c).
Proof.
  assert (H1 : ch "#" ∈ lit "A U B #").
  { do 6 apply list_elem_of_further. apply list_elem_of_here. }
  assert (H2 : isspace (ch "#") = false) by reflexivity.
  assert (H3 : ch "#" ∉ alphabet).
  { intros H. apply list_elem_of_In in H. simpl in H.
    repeat (destruct H as [H|H]; [discriminate H|]). exact H. }
  split_and!; [exact H1|exact H2|exact H3|].
  destruct (unknown_character_raises (lit "A U B #") (ch "#") H1 H2 H3)
    as (i & c & Hi & _ & _ & _ & _ & Heval & _).
  exists i, c. split; [exact Hi|apply Heval].
Defined.

(** Against C7 as stated: the error does not tell the position of the
    character; "#" and "A U B #" raise the same exception. *)
Lemma unknown_character_has_no_position :
  ¬ ∃ position_of : ValueError → nat,
      ∀ expr i c, first_unknown expr = Some (i, c) →
        ∃ e, _tokenize expr = Raise e ∧ position_of e = i.
Proof.
  intros [position_of H].
  destruct (H (lit "#") 0 (ch "#") eq_refl) as (e0 & He0 & H0).
  destruct (H (lit "A U B #") 6 (ch "#") eq_refl) as (e6 & He6 & H6).
  vm_compute in He0, He6. injection He0 as <-. injection He6 as <-.
  rewrite H0 in H6. discriminate H6.
Qed.




(** C9. An empty or whitespace-only formula is not an error:
    [evaluate_expression] returns the all-false vector of the universe's
    length without consulting the membership map or the parser (which, on
    no tokens, would raise "Unexpected end of expression"). *)
Theorem blank_formula_is_all_false points points_in_circle expression :
  Forall (λ c, isspace c = true) expression →
  evaluate_expression points points_in_circle expression
  = Ok (np_zeros points, None)
  ∧ length (np_zeros points) = points
  ∧ Forall (λ b, b = false) (np_zeros points)
  ∧ ∀ masks, _safe_evaluate points expression masks = Raise UnexpectedEnd.
Proof.
  intros Hsp. split_and!.
  - unfold evaluate_expression. rewrite (strip_spaces _ Hsp).
    rewrite (bool_decide_eq_true_2 ([] = [])) by done.
    by rewrite orb_true_r.
  - apply length_replicate.
  - apply Forall_replicate. done.
  - intros masks. unfold _safe_evaluate. by rewrite (strip_spaces _ Hsp).
Qed.

Lemma blank_formula_is_all_false_witness :
  Forall (λ c, isspace c = true) (lit "  ")
  ∧ evaluate_expression 4 (λ _, []) (lit "  ")
    = Ok ([false; false; false; false], None)
  ∧ evaluate_expression 4 (λ _, []) [] = Ok ([false; false; false; false], None).
Proof.
  assert (H : Forall (λ c, isspace c = true) (lit "  ")).
  { repeat constructor. }
  split_and!; [exact H|..].
  - exact (proj1 (blank_formula_is_all_false 4 (λ _, []) (lit "  ") H)).
  - exact (proj1 (blank_formula_is_all_false 4 (λ _, []) [] (Forall_nil_2 _))).
Defined.

(** C10. Parentheses override the tiers: there is a membership map on which
    "(A U B) & C" and "A U (B & C)" differ, the second being what
    "A U B & C" gives without parentheses. *)
Theorem grouping_overrides_precedence :
  ∃ masks v1 v2,
    _safe_evaluate 4 (lit "(A U B) & C") masks = Ok v1
    ∧ _safe_evaluate 4 (lit "A U (B & C)") masks = Ok v2
    ∧ _safe_evaluate 4 (lit "A U B & C") masks = Ok v2
    ∧ v1 ≠ v2.
Proof.
  exists sample_masks, [true; false; false; false], [true; true; false; false].
  split_and!; [vm_compute; reflexivity..|discriminate].
Qed.

End properties.


(** * Further properties of the source *)

(** ** The tokenizer, one character at a time *)

Lemma _tokenize_from_cons c expr tokens :
  _tokenize_from (c :: expr) tokens
  = if isspace c then _tokenize_from expr tokens
    else if bool_decide (c ∈ alphabet) then
      _tokenize_from expr (tokens ++ [token_of c])
    else Raise (UnknownCharacter c).
Proof.
  cbn [_tokenize_from]. destruct (isspace c); [done|].
  destruct (decide (c ∈ alphabet)) as [Hc|Hc].
  - rewrite (bool_decide_eq_true_2 (c ∈ alphabet)) by done.
    change alphabet with [65; 66; 67; 46; 85; 38; 94; 45; 40; 41]%N in Hc.
    rewrite !elem_of_cons, elem_of_nil in Hc.
    destruct Hc as [->|[->|[->|[->|[->|[->|[->|[->|[->|[->|[]]]]]]]]]]];
      reflexivity.
  - rewrite (bool_decide_eq_false_2 (c ∈ alphabet)) by done.
    change alphabet with [65; 66; 67; 46; 85; 38; 94; 45; 40; 41]%N in Hc.
    change (lit "ABC") with [65; 66; 67]%N.
    rewrite !elem_of_cons, elem_of_nil in Hc.
    rewrite !bool_decide_eq_false_2; [done|..];
      rewrite ?elem_of_cons, ?elem_of_nil; intros ?; apply Hc; tauto.
Qed.

Lemma visible_cons c s :
  visible (c :: s) = if isspace c then visible s else c :: visible s.
Proof.
  unfold visible. rewrite filter_cons. destruct (isspace c); by case_decide.
Qed.

Lemma visible_app s t : visible (s ++ t) = visible s ++ visible t.
Proof. apply filter_app. Qed.

Lemma visible_spaces s : visible s = [] ↔ Forall (λ c, isspace c = true) s.
Proof.
  induction s as [|c s IH]; [by split|]. rewrite visible_cons, Forall_cons.
  destruct (isspace c); [|by split; [|intros []]]. rewrite IH. tauto.
Qed.

Lemma visible_lstrip s : visible (lstrip s) = visible s.
Proof.
  induction s as [|c s IH]; [done|]. simpl. rewrite visible_cons.
  destruct (isspace c) eqn:Hc; [done|]. by rewrite visible_cons, Hc.
Qed.

Lemma visible_reverse s : visible (reverse s) = reverse (visible s).
Proof.
  induction s as [|c s IH]; [done|].
  rewrite reverse_cons, visible_app, IH, !visible_cons.
  destruct (isspace c); simpl; [by rewrite app_nil_r|by rewrite reverse_cons].
Qed.

Lemma visible_strip s : visible (strip s) = visible s.
Proof.
  unfold strip, rstrip.
  by rewrite visible_reverse, visible_lstrip, visible_reverse, reverse_involutive,
    visible_lstrip.
Qed.

Lemma strip_blank s : strip s = [] ↔ visible s = [].
Proof.
  split.
  - intros H. by rewrite <- visible_strip, H.
  - intros H. by apply strip_spaces, visible_spaces.
Qed.

Lemma _tokenize_from_visible expr tokens :
  _tokenize_from expr tokens = _tokenize_from (visible expr) tokens.
Proof.
  revert tokens. induction expr as [|c expr IH]; intros tokens; [done|].
  rewrite visible_cons, _tokenize_from_cons. destruct (isspace c) eqn:Hc; [done|].
  rewrite _tokenize_from_cons, Hc. by case_bool_decide.
Qed.

Lemma _tokenize_from_acc expr tokens :
  _tokenize_from expr tokens = (more ← _tokenize expr; Ok (tokens ++ more)).
Proof.
  unfold _tokenize. revert tokens.
  induction expr as [|c expr IH]; intros tokens.
  { simpl. by rewrite app_nil_r. }
  rewrite !_tokenize_from_cons. destruct (isspace c); [done|].
  case_bool_decide; [|done].
  rewrite (IH (tokens ++ _)), (IH ([] ++ _)).
  destruct (_tokenize_from expr []); simpl; [|done..].
  by rewrite <- app_assoc.
Qed.

Lemma _tokenize_from_app s t acc :
  _tokenize_from (s ++ t) acc = (acc ← _tokenize_from s acc; _tokenize_from t acc).
Proof.
  revert acc. induction s as [|c s IH]; intros acc; [done|].
  rewrite <- app_comm_cons, !_tokenize_from_cons.
  destruct (isspace c); [done|]. by case_bool_decide.
Qed.

Lemma _tokenize_app s t :
  _tokenize (s ++ t) = (l ← _tokenize s; r ← _tokenize t; Ok (l ++ r)).
Proof.
  unfold _tokenize. rewrite _tokenize_from_app.
  destruct (_tokenize_from s []); simpl; [|done..]. apply _tokenize_from_acc.
Qed.

Lemma _tokenize_recognized expr :
  Forall (λ c, recognized c = true) expr →
  _tokenize expr = Ok (token_of <$> visible expr).
Proof.
  induction 1 as [|c expr Hc _ IH]; [done|].
  unfold _tokenize. rewrite _tokenize_from_cons, visible_cons.
  unfold recognized in Hc. destruct (isspace c); [done|].
  simpl in Hc. rewrite Hc, _tokenize_from_acc, IH. done.
Qed.

Lemma _tokenize_Ok_recognized expr tokens :
  _tokenize expr = Ok tokens → Forall (λ c, recognized c = true) expr.
Proof.
  unfold _tokenize. generalize (@nil (list N)). 
  induction expr as [|c expr IH]; intros acc; [done|].
  rewrite _tokenize_from_cons.
  destruct (isspace c) eqn:Hs.
  - intros H. constructor; [|by eapply IH]. unfold recognized. by rewrite Hs.
  - case_bool_decide as Hc; [|done]. intros H. constructor; [|by eapply IH].
    unfold recognized. rewrite bool_decide_eq_true_2 by done. apply orb_true_r.
Qed.

(** X1. [_tokenize] returns exactly on the strings made of whitespace and
    the ten characters of the alphabet, and what it returns is one token
    per character that is not whitespace, in the order of the string. *)
Theorem _tokenize_Ok_iff expr tokens :
  _tokenize expr = Ok tokens
  ↔ Forall (λ c, recognized c = true) expr ∧ tokens = token_of <$> visible expr.
Proof.
  split.
  - intros H. pose proof (_tokenize_Ok_recognized _ _ H) as Hr.
    rewrite (_tokenize_recognized _ Hr) in H. by injection H as <-.
  - intros [Hr ->]. by apply _tokenize_recognized.
Qed.

(** ** Whitespace *)

Lemma _tokenize_strip expr : _tokenize (strip expr) = _tokenize expr.
Proof.
  unfold _tokenize.
  by rewrite _tokenize_from_visible, visible_strip, <- _tokenize_from_visible.
Qed.

Lemma _safe_evaluate_visible points expr masks :
  _safe_evaluate points expr masks = _safe_evaluate points (visible expr) masks.
Proof.
  unfold _safe_evaluate. cbn zeta. rewrite !_tokenize_strip. unfold _tokenize.
  by rewrite (_tokenize_from_visible expr).
Qed.

(** X2. Whitespace carries no meaning anywhere in a formula: two formulas
    with the same characters apart from whitespace evaluate to the same
    result, error included; the [strip] of [_safe_evaluate] changes
    nothing. *)
Theorem whitespace_is_ignored points points_in_circle e1 e2 :
  visible e1 = visible e2 →
  evaluate_expression points points_in_circle e1
  = evaluate_expression points points_in_circle e2.
Proof.
  intros H. unfold evaluate_expression.
  assert (Hb : ∀ e, bool_decide (e = []) || bool_decide (strip e = [])
                    = bool_decide (visible e = [])).
  { intros e. apply eq_true_iff_eq.
    rewrite orb_true_iff, !bool_decide_eq_true, strip_blank.
    split; [intros [->|]|]; auto. }
  rewrite !Hb, H. case_bool_decide; [done|].
  by rewrite (_safe_evaluate_visible _ e1), (_safe_evaluate_visible _ e2), H.
Qed.

Lemma whitespace_is_ignored_witness :
  evaluate_expression 4 (λ k, default [] (sample_masks !! k)) (lit " A U  B ")
  = evaluate_expression 4 (λ k, default [] (sample_masks !! k)) (lit "AUB").
Proof. apply whitespace_is_ignored. reflexivity. Defined.

(** ** Soundness: the parser returns on formulas of the grammar only *)

Section soundness.
Context (tokens : list (list N)) (masks : gmap (list N) (list bool))
  (universal : list bool).

Import Grammar.

Local Abbreviation tier_parser := (tier_parser tokens masks universal).
Local Abbreviation recognised := (recognised masks universal tokens).

Lemma follows_Binary L op l r rest :
  follows L r rest → follows L (Binary op l r) rest.
Proof. by destruct rest. Qed.

Lemma follows_0 e rest : follows 0 e rest.
Proof. destruct rest; [done|]. split; [lia|]. intros op. lia. Qed.

Lemma drop_token pos t (rest : list (list N)) :
  drop pos tokens = t :: rest → tokens !! pos = Some t ∧ rest = drop (S pos) tokens.
Proof.
  intros H. assert (Ht : tokens !! pos = Some t).
  { rewrite <- (Nat.add_0_r pos), <- lookup_drop, H. done. }
  split; [done|]. apply drop_S in Ht. congruence.
Qed.

Lemma while_token_sound L fuel n pos e lhs pos1 v pos' :
  2 ≤ L ≤ 5 →
  (∀ p w p', tier_parser (L - 1) fuel p = Ok (w, p') →
     ∃ e, recognised (L - 1) p p' w e) →
  grammatical e → tier e ≤ L →
  drop pos tokens = tokens_of e ++ drop pos1 tokens →
  pos1 = pos + length (tokens_of e) →
  denote masks universal e = Ok lhs →
  follows L e (drop pos1 tokens) →
  while_token n (keyword (op_at L)) (tier_parser (L - 1) fuel) (fold (op_at L))
    tokens lhs pos1 = Ok (v, pos') →
  ∃ e', recognised L pos pos' v e'.
Proof.
  intros HL Hop. revert e lhs pos1.
  induction n as [|n IH]; intros e lhs pos1 Hg Ht Hd Hp Hv Hf; simpl;
    destruct (at_token tokens pos1 _) eqn:Hat; try discriminate.
  - intros [= <- <-]. exists e. split_and!; try done.
    rewrite decide_False by lia.
    unfold follows in *. destruct (drop pos1 tokens) as [|t rest] eqn:Hrest; [done|].
    apply drop_token in Hrest as [Hlook _]. destruct Hf as [Hnot Hops].
    split; [intros _; apply Hnot; lia|]. intros op Hop_tier Heq.
    destruct (decide (op_tier op < L)) as [|Hge]; [by eapply Hops|].
    assert (op_at L = op) as Hop_at.
    { replace L with (op_tier op) by lia. apply op_at_tier. }
    rewrite Hop_at, <- Heq in Hat. unfold at_token in Hat.
    by rewrite bool_decide_eq_true_2 in Hat.
  - intros H. apply bind_Ok_inv in H as ([rhs p2] & Hrhs & H).
    apply bind_Ok_inv in H as (lhs' & Hfold & H).
    apply Hop in Hrhs as (er & Hgr & Htr & Hdr & Hpr & Hvr & Hfr).
    rewrite decide_False in Hfr by lia.
    replace (S (L - 1)) with L in Hfr by lia.
    apply at_token_spec in Hat. apply drop_S in Hat.
    apply (IH (Binary (op_at L) e er) lhs' p2); simpl.
    + rewrite op_tier_at by done. split_and!; [done|lia|done..].
    + rewrite op_tier_at by done. done.
    + rewrite Hd, Hat, <- Nat.add_1_r, Hdr, <- !app_assoc. done.
    + rewrite length_app. simpl. lia.
    + rewrite Hv. simpl_bind. rewrite Hvr. simpl_bind. done.
    + by apply follows_Binary.
    + done.
  - intros [= <- <-]. exists e. split_and!; try done.
    rewrite decide_False by lia.
    unfold follows in *. destruct (drop pos1 tokens) as [|t rest] eqn:Hrest; [done|].
    apply drop_token in Hrest as [Hlook _]. destruct Hf as [Hnot Hops].
    split; [intros _; apply Hnot; lia|]. intros op Hop_tier Heq.
    destruct (decide (op_tier op < L)) as [|Hge]; [by eapply Hops|].
    assert (op_at L = op) as Hop_at.
    { replace L with (op_tier op) by lia. apply op_at_tier. }
    rewrite Hop_at, <- Heq in Hat. unfold at_token in Hat.
    by rewrite bool_decide_eq_true_2 in Hat.
Qed.

Lemma tiers_sound fuel :
  (∀ pos v pos', tier_parser 0 fuel pos = Ok (v, pos') →
     ∃ e, recognised 0 pos pos' v e) →
  ∀ L, L ≤ 5 → ∀ pos v pos', tier_parser L fuel pos = Ok (v, pos') →
    ∃ e, recognised L pos pos' v e.
Proof.
  intros H0.
  assert (H1 : ∀ pos v pos', tier_parser 1 fuel pos = Ok (v, pos') →
    ∃ e, recognised 1 pos pos' v e).
  { intros pos v pos'. rewrite tier_parser_not. intros H.
    apply bind_Ok_inv in H as ([w p1] & Ha & H).
    apply H0 in Ha as (e & Hg & Ht & Hd & Hp & Hv & _).
    destruct (at_token tokens p1 _) eqn:Hat.
    - apply bind_Ok_inv in H as (r & Hr & [= <- <-]).
      apply at_token_spec in Hat. apply drop_S in Hat.
      exists (Negated e). split_and!; simpl.
      + split; [lia|done].
      + done.
      + rewrite Hd, Hat, <- Nat.add_1_r, <- app_assoc. done.
      + rewrite length_app. simpl. lia.
      + rewrite Hv. simpl_bind. done.
      + unfold follows. destruct (drop (p1 + 1) tokens); [done|].
        split; [done|]. intros op Hop. pose proof (op_tier_range op). lia.
    - injection H as <- <-. exists e. split_and!; try done; [lia|].
      simpl. unfold follows.
      destruct (drop p1 tokens) as [|t rest] eqn:Hrest; [done|].
      apply drop_token in Hrest as [Hlook _]. split.
      + intros _ ->. unfold at_token in Hat.
        by rewrite bool_decide_eq_true_2 in Hat.
      + intros op Hop. pose proof (op_tier_range op). lia. }
  intros L. induction L as [|L IHL]; intros HL; [exact H0|].
  destruct L as [|L]; [exact H1|].
  intros pos v pos'. rewrite tier_parser_binary by lia. intros H.
  apply bind_Ok_inv in H as ([w p1] & Ha & H).
  replace (S (S L) - 1) with (S L) in Ha by lia.
  apply IHL in Ha as (e & Hg & Ht & Hd & Hp & Hv & Hf); [|lia].
  simpl in Hf.
  eapply (while_token_sound (S (S L))); [lia| |exact Hg|lia|exact Hd|exact Hp
    |exact Hv|exact Hf|exact H].
  replace (S (S L) - 1) with (S L) by lia. apply IHL. lia.
Qed.

Lemma atom_sound fuel :
  (∀ pos v pos', _parse_expression fuel tokens pos masks universal = Ok (v, pos') →
     ∃ e, recognised 5 pos pos' v e) →
  ∀ pos v pos', tier_parser 0 fuel pos = Ok (v, pos') →
    ∃ e, recognised 0 pos pos' v e.
Proof.
  intros IH pos v pos'. unfold tier_parser, _parse_atom.
  destruct (tokens !! pos) as [token|] eqn:Htoken; [|discriminate].
  apply drop_S in Htoken. case_bool_decide as Hopen.
  - intros H. apply bind_Ok_inv in H as ([w p1] & He & H).
    destruct (at_token tokens p1 _) eqn:Hat; [|discriminate].
    injection H as <- <-. apply at_token_spec in Hat. apply drop_S in Hat.
    apply IH in He as (e & Hg & _ & Hd & Hp & Hv & _).
    exists (Group e). split_and!; simpl; try done.
    + rewrite Htoken, Hopen, <- Nat.add_1_r, Hd, Hat, <- Nat.add_1_r, <- app_assoc.
      done.
    + rewrite length_app. simpl. lia.
    + apply follows_0.
  - destruct (masks !! token) as [mask|] eqn:Hmask; [|discriminate].
    intros [= <- <-]. exists (SetRef token). split_and!; simpl; try done.
    + by rewrite <- Nat.add_1_r in Htoken.
    + by rewrite Hmask.
    + apply follows_0.
Qed.

Lemma _parse_expression_recognised fuel pos v pos' :
  _parse_expression fuel tokens pos masks universal = Ok (v, pos') →
  ∃ e, recognised 5 pos pos' v e.
Proof.
  revert pos v pos'. induction fuel as [|fuel IH]; intros pos v pos';
    [discriminate|].
  rewrite _parse_expression_S. apply tiers_sound; [|lia]. by apply atom_sound.
Qed.

End soundness.

Lemma follows_left_over e rest : follows 6 e rest → left_over e rest.
Proof.
  destruct rest as [|t rest]; [done|]. intros [Hnot Hops]. split.
  - intros op. apply Hops. pose proof (op_tier_range op). lia.
  - intros Ht. apply Hnot; [lia|done].
Qed.

(** X3. Whenever [_parse_expression] returns, the tokens it went over are
    those of a formula of the grammar, the value it returns is the value of
    that formula, and the token it stopped at is none that continues the
    formula: the parser accepts nothing outside the grammar. *)
Theorem _parse_expression_sound fuel tokens pos masks universal v pos' :
  _parse_expression fuel tokens pos masks universal = Ok (v, pos') →
  ∃ e, Grammar.grammatical e
     ∧ drop pos tokens = Grammar.tokens_of e ++ drop pos' tokens
     ∧ pos' = pos + length (Grammar.tokens_of e)
     ∧ Grammar.denote masks universal e = Ok v
     ∧ left_over e (drop pos' tokens).
Proof.
  intros H.
  apply _parse_expression_recognised in H as (e & Hg & _ & Hd & Hp & Hv & Hf).
  exists e. split_and!; try done. by apply follows_left_over.
Qed.

Lemma _parse_expression_sound_witness :
  ∃ e, Grammar.grammatical e
     ∧ drop 1 [lit "("; lit "A"; lit "OR"; lit "B"; lit ")"]
       = Grammar.tokens_of e ++ drop 4 [lit "("; lit "A"; lit "OR"; lit "B"; lit ")"]
     ∧ 4 = 1 + length (Grammar.tokens_of e)
     ∧ Grammar.denote sample_masks (np_ones 4) e = Ok [true; true; true; false]
     ∧ left_over e (drop 4 [lit "("; lit "A"; lit "OR"; lit "B"; lit ")"]).
Proof.
  apply (_parse_expression_sound 5 [lit "("; lit "A"; lit "OR"; lit "B"; lit ")"]
           1 sample_masks (np_ones 4) [true; true; true; false] 4).
  vm_compute. reflexivity.
Defined.

Lemma _safe_evaluate_Ok_tree points expr masks v :
  _safe_evaluate points expr masks = Ok v
  ↔ ∃ e rest, _tokenize expr = Ok (Grammar.tokens_of e ++ rest)
      ∧ Grammar.grammatical e ∧ left_over e rest
      ∧ Grammar.denote masks (np_ones points) e = Ok v.
Proof.
  split.
  - unfold _safe_evaluate. cbn zeta. rewrite _tokenize_strip. intros H.
    apply bind_Ok_inv in H as (tokens & Htok & H).
    apply bind_Ok_inv in H as ([w pos'] & Hparse & [= ->]).
    apply _parse_expression_recognised in Hparse
      as (e & Hg & _ & Hd & _ & Hv & Hf).
    exists e, (drop pos' tokens). rewrite <- Hd. simpl.
    split_and!; try done. by apply follows_left_over.
  - intros (e & rest & Htok & Hg & Hrest & Hv). rewrite <- Hv.
    apply (_safe_evaluate_tree _ _ _ e rest); [|done..].
    by rewrite _tokenize_strip.
Qed.

(** X4. Whenever [_safe_evaluate] returns a value, with whatever frames
    the interpreter has left, the tokens of the formula begin with a
    formula of the grammar that has this value and is followed by nothing
    that continues it; and it does return the value of such a formula when
    the interpreter has seven frames left for each opening parenthesis
    among the tokens (and fourteen more). *)
Theorem _safe_evaluate_Ok_formula frames points expr masks v :
  (Limited._safe_evaluate frames points expr masks = Limited.Within (Ok v) →
   ∃ e rest, _tokenize expr = Ok (Grammar.tokens_of e ++ rest)
     ∧ Grammar.grammatical e ∧ left_over e rest
     ∧ Grammar.denote masks (np_ones points) e = Ok v)
  ∧ (∀ e rest,
       _tokenize expr = Ok (Grammar.tokens_of e ++ rest) →
       Grammar.grammatical e → left_over e rest →
       Grammar.denote masks (np_ones points) e = Ok v →
       7 * (parentheses (Grammar.tokens_of e ++ rest) + 2) ≤ frames →
       Limited._safe_evaluate frames points expr masks = Limited.Within (Ok v)).
Proof.
  split.
  - intros H.
    destruct (limited__safe_evaluate_cases frames points expr masks) as [H'|H'];
      rewrite H' in H; [done|].
    injection H as H. by apply _safe_evaluate_Ok_tree.
  - intros e rest Htok Hg Hrest Hv Hf.
    rewrite limited__safe_evaluate_within.
    + f_equal. apply _safe_evaluate_Ok_tree. by exists e, rest.
    + intros tokens Ht. rewrite _tokenize_strip, Htok in Ht.
      injection Ht as <-. lia.
    + lia.
Qed.

Lemma _safe_evaluate_Ok_formula_witness :
  Limited._safe_evaluate 100 4 (lit "(A - B) )") sample_masks
  = Limited.Within (Ok [false; true; false; false]).
Proof.
  apply (proj2 (_safe_evaluate_Ok_formula 100 4 (lit "(A - B) )") sample_masks
                  [false; true; false; false])
           (Grammar.Group (Grammar.Binary Grammar.Diff (Grammar.SetRef (lit "A"))
                             (Grammar.SetRef (lit "B")))) [lit ")"]).
  - vm_compute. reflexivity.
  - simpl. repeat split; (done || lia).
  - simpl. split; [intros []; discriminate|discriminate].
  - vm_compute. reflexivity.
  - vm_compute. lia.
Defined.

(** ** The result has one entry per point *)

Lemma evaluate_expression_membership_map points (points_in_circle : list N → list bool) :
  (∀ key, key ∈ [lit "A"; lit "B"; lit "C"] →
     length (points_in_circle key) = points) →
  membership_map points
    (<[lit "A" := points_in_circle (lit "A")]>
    (<[lit "B" := points_in_circle (lit "B")]>
    (<[lit "C" := points_in_circle (lit "C")]> ∅))).
Proof.
  intros H. unfold membership_map.
  repeat (apply map_Forall_insert_2; [apply H; set_solver|]).
  apply map_Forall_empty.
Qed.

(** X5. When the three masks of the circles have one entry per point,
    [evaluate_expression] returns for every formula, its result has one
    entry per point, and the error it prints, if any, is one of the four of
    the tokenizer and the parser, never a shape error of numpy. *)
Theorem evaluate_expression_sized points points_in_circle expression :
  (∀ key, key ∈ [lit "A"; lit "B"; lit "C"] →
     length (points_in_circle key) = points) →
  ∃ v err, evaluate_expression points points_in_circle expression = Ok (v, err)
    ∧ length v = points ∧ ∀ n m, err ≠ Some (BroadcastError n m).
Proof.
  intros H. unfold evaluate_expression.
  destruct (_ || _).
  { exists (np_zeros points), None. split_and!; [done|apply length_replicate|done]. }
  cbn zeta.
  pose proof (sized__safe_evaluate points expression _
                (evaluate_expression_membership_map _ _ H)) as Hs.
  pose proof (_safe_evaluate_total points expression
    (<[lit "A" := points_in_circle (lit "A")]>
    (<[lit "B" := points_in_circle (lit "B")]>
    (<[lit "C" := points_in_circle (lit "C")]> ∅)))) as Ht.
  destruct (_safe_evaluate _ _ _) as [v|e|]; [| |done].
  - exists v, None. done.
  - exists (np_zeros points), (Some e).
    split_and!; [done|apply length_replicate|]. intros n m [= ->]. done.
Qed.

Lemma evaluate_expression_sized_witness :
  ∃ v err,
    evaluate_expression 4 (λ key, default (np_zeros 4) (sample_masks !! key))
      (lit "A ^ (B") = Ok (v, err)
    ∧ length v = 4 ∧ ∀ n m, err ≠ Some (BroadcastError n m).
Proof.
  apply evaluate_expression_sized. intros key Hkey.
  apply list_elem_of_In in Hkey. simpl in Hkey.
  destruct Hkey as [<-|[<-|[<-|[]]]]; reflexivity.
Defined.

(** ** The circles a formula does not name *)

Lemma while_token_ext n kw operand operand' fold tokens lhs pos :
  (∀ p, operand p = operand' p) →
  while_token n kw operand fold tokens lhs pos
  = while_token n kw operand' fold tokens lhs pos.
Proof.
  intros Hop. revert lhs pos. induction n as [|n IH]; intros lhs pos; simpl;
    [done|].
  destruct (at_token tokens pos kw); [|done]. rewrite Hop.
  destruct (operand' (pos + 1)) as [[rhs p]| |]; simpl; [|done..].
  destruct (fold lhs rhs); simpl; [|done..]. apply IH.
Qed.

Lemma _parse_expression_ext fuel tokens pos masks masks' universal :
  (∀ token, token ∈ tokens → masks !! token = masks' !! token) →
  _parse_expression fuel tokens pos masks universal
  = _parse_expression fuel tokens pos masks' universal.
Proof.
  intros Hm. revert pos. induction fuel as [|fuel IH]; intros pos; [done|].
  cbn [_parse_expression].
  assert (Hatom : ∀ p, _parse_atom (_parse_expression fuel) tokens p masks universal
                     = _parse_atom (_parse_expression fuel) tokens p masks' universal).
  { intros p. unfold _parse_atom.
    destruct (tokens !! p) as [token|] eqn:Htoken; [|done].
    case_bool_decide; [by rewrite IH|].
    rewrite (Hm token); [done|]. by eapply list_elem_of_lookup_2. }
  assert (Hnot : ∀ p, _parse_not (_parse_expression fuel) tokens p masks universal
                    = _parse_not (_parse_expression fuel) tokens p masks' universal).
  { intros p. unfold _parse_not. by rewrite Hatom. }
  assert (Hand : ∀ p, _parse_and fuel (_parse_expression fuel) tokens p masks universal
                    = _parse_and fuel (_parse_expression fuel) tokens p masks' universal).
  { intros p. unfold _parse_and. rewrite Hnot.
    destruct (_parse_not _ _ _ _ _) as [[lhs q]| |]; simpl; [|done..].
    by apply while_token_ext. }
  assert (Hxor : ∀ p, _parse_xor fuel (_parse_expression fuel) tokens p masks universal
                    = _parse_xor fuel (_parse_expression fuel) tokens p masks' universal).
  { intros p. unfold _parse_xor. rewrite Hand.
    destruct (_parse_and _ _ _ _ _ _) as [[lhs q]| |]; simpl; [|done..].
    by apply while_token_ext. }
  assert (Hdiff : ∀ p, _parse_diff fuel (_parse_expression fuel) tokens p masks universal
                     = _parse_diff fuel (_parse_expression fuel) tokens p masks' universal).
  { intros p. unfold _parse_diff. rewrite Hxor.
    destruct (_parse_xor _ _ _ _ _ _) as [[lhs q]| |]; simpl; [|done..].
    by apply while_token_ext. }
  unfold _parse_or. rewrite Hdiff.
  destruct (_parse_diff _ _ _ _ _ _) as [[lhs q]| |]; simpl; [|done..].
  by apply while_token_ext.
Qed.

Lemma _tokenize_elem expr tokens token :
  _tokenize expr = Ok tokens → token ∈ tokens →
  ∃ c, c ∈ expr ∧ c ∈ alphabet ∧ token = token_of c.
Proof.
  intros Htok Hin. pose proof (_tokenize_Ok_recognized _ _ Htok) as Hr.
  rewrite (_tokenize_recognized _ Hr) in Htok. injection Htok as <-.
  apply list_elem_of_fmap in Hin as (c & -> & Hc).
  apply list_elem_of_filter in Hc as [Hs Hc]. exists c. split_and!; [done| |done].
  rewrite Forall_forall in Hr. specialize (Hr c Hc). unfold recognized in Hr.
  rewrite Hs in Hr. by apply bool_decide_eq_true in Hr.
Qed.

Lemma _get_used_sets_elem expression key :
  key ∈ _get_used_sets expression
  ↔ ∃ c, key = [c] ∧ c ∈ expression ∧ c ∈ lit "ABC".
Proof.
  unfold _get_used_sets.
  assert (H : ∀ (used : gset (list N)),
    key ∈ foldl (λ used char,
                   if bool_decide (char ∈ lit "ABC") then used ∪ {[ [char] ]}
                   else used) used expression
    ↔ key ∈ used ∨ ∃ c, key = [c] ∧ c ∈ expression ∧ c ∈ lit "ABC").
  { induction expression as [|x expression IH]; intros used; simpl.
    - split; [auto|]. intros [?|(c & _ & Hc & _)]; [done|]. by apply elem_of_nil in Hc.
    - rewrite IH. case_bool_decide as Hx.
      + rewrite elem_of_union, elem_of_singleton. split.
        * intros [[?| ->]|(c & -> & Hc & Habc)]; [by left|right..].
          -- exists x. split_and!; [done|apply list_elem_of_here|done].
          -- exists c. split_and!; [done|by apply list_elem_of_further|done].
        * intros [?|(c & -> & Hc & Habc)]; [by left; left|].
          apply elem_of_cons in Hc as [->|Hc]; [by left; right|].
          right. by exists c.
      + split.
        * intros [?|(c & -> & Hc & Habc)]; [by left|right].
          exists c. split_and!; [done|by apply list_elem_of_further|done].
        * intros [?|(c & -> & Hc & Habc)]; [by left|].
          apply elem_of_cons in Hc as [->|Hc]; [done|]. right. by exists c. }
  rewrite H. split; [intros [Hk|?]; [|done]|by right]. by apply elem_of_empty in Hk.
Qed.

Lemma circle_masks_lookup (points_in_circle : list N → list bool) key :
  (<[lit "A" := points_in_circle (lit "A")]>
  (<[lit "B" := points_in_circle (lit "B")]>
  (<[lit "C" := points_in_circle (lit "C")]> (∅ : gmap (list N) (list bool))))) !! key
  = if bool_decide (key ∈ set_names) then Some (points_in_circle key) else None.
Proof.
  unfold set_names.
  destruct (decide (key = lit "A")) as [->|HA]; [by rewrite lookup_insert_eq|].
  rewrite lookup_insert_ne by done.
  destruct (decide (key = lit "B")) as [->|HB]; [by rewrite lookup_insert_eq|].
  rewrite lookup_insert_ne by done.
  destruct (decide (key = lit "C")) as [->|HC]; [by rewrite lookup_insert_eq|].
  rewrite lookup_insert_ne, lookup_empty by done.
  rewrite bool_decide_eq_false_2; [done|].
  rewrite !elem_of_cons, elem_of_nil. tauto.
Qed.

Lemma token_of_set_name c :
  c ∈ alphabet → token_of c ∈ set_names → c ∈ lit "ABC" ∧ token_of c = [c].
Proof.
  intros Hc. change alphabet with [65; 66; 67; 46; 85; 38; 94; 45; 40; 41]%N in Hc.
  rewrite !elem_of_cons, elem_of_nil in Hc.
  destruct Hc as [->|[->|[->|[->|[->|[->|[->|[->|[->|[->|[]]]]]]]]]]]; intros H;
    apply list_elem_of_In in H; vm_compute in H;
    try (exfalso; intuition discriminate);
    (split; [|reflexivity]); apply list_elem_of_In; vm_compute; tauto.
Qed.

(** X6. The result of a formula depends on the circles it names only: when
    two placements of the circles give the same masks for the letters that
    [_get_used_sets] finds in the formula, [evaluate_expression] gives the
    same result for both, so a circle that [_update_circle_visibility]
    hides has no part in the picture. *)
Theorem unused_sets_do_not_matter points mask_of mask_of' expression :
  (∀ key, key ∈ _get_used_sets expression → mask_of key = mask_of' key) →
  evaluate_expression points mask_of expression
  = evaluate_expression points mask_of' expression.
Proof.
  intros Hused. unfold evaluate_expression. destruct (_ || _); [done|].
  cbn zeta. unfold _safe_evaluate. cbn zeta. rewrite _tokenize_strip.
  destruct (_tokenize expression) as [tokens| |] eqn:Htok; simpl_bind; [|done..].
  rewrite (_parse_expression_ext _ tokens 0 _
    (<[lit "A" := mask_of' (lit "A")]>
    (<[lit "B" := mask_of' (lit "B")]>
    (<[lit "C" := mask_of' (lit "C")]> ∅)))); [done|].
  intros token Htoken. rewrite !circle_masks_lookup.
  case_bool_decide as Hname; [|done]. f_equal.
  destruct (_tokenize_elem _ _ _ Htok Htoken) as (c & Hc & Halpha & ->).
  destruct (token_of_set_name c Halpha Hname) as [Habc ->].
  apply Hused, _get_used_sets_elem. by exists c.
Qed.

Lemma unused_sets_do_not_matter_witness :
  evaluate_expression 4 (λ key, default [] (sample_masks !! key)) (lit "A - B")
  = evaluate_expression 4
      (λ key, if bool_decide (key = lit "C") then [false; true; true; false]
              else default [] (sample_masks !! key)) (lit "A - B").
Proof.
  apply unused_sets_do_not_matter. intros key Hkey.
  apply _get_used_sets_elem in Hkey as (c & -> & Hc & _).
  apply list_elem_of_In in Hc. vm_compute in Hc.
  destruct Hc as [<-|[<-|[<-|[<-|[<-|[]]]]]]; reflexivity.
Defined.

(** ** Formulas as sets of points *)

Lemma tokens_of_nonempty e : Grammar.tokens_of e ≠ [].
Proof.
  induction e as [name|e IH|e IH|op l IHl r IHr]; simpl; try done.
  - by destruct (Grammar.tokens_of e).
  - by destruct (Grammar.tokens_of l).
Qed.

Lemma _tokenize_nonblank expr token tokens :
  _tokenize expr = Ok (token :: tokens) →
  bool_decide (expr = []) || bool_decide (strip expr = []) = false.
Proof.
  intros Htok. apply orb_false_iff.
  split; apply bool_decide_eq_false; intros Hblank.
  - by subst expr.
  - apply strip_blank in Hblank.
    pose proof (_tokenize_Ok_recognized _ _ Htok) as Hr.
    rewrite (_tokenize_recognized _ Hr), Hblank in Htok. done.
Qed.

Lemma evaluate_expression_tree points points_in_circle expr e rest :
  _tokenize expr = Ok (Grammar.tokens_of e ++ rest) →
  Grammar.grammatical e → left_over e rest →
  evaluate_expression points points_in_circle expr
  = match Grammar.denote
            (<[lit "A" := points_in_circle (lit "A")]>
            (<[lit "B" := points_in_circle (lit "B")]>
            (<[lit "C" := points_in_circle (lit "C")]> ∅))) (np_ones points) e with
    | Ok result => Ok (result, None)
    | Raise err => Ok (np_zeros points, Some err)
    | OutOfFuel => OutOfFuel
    end.
Proof.
  intros Htok Hg Hrest. unfold evaluate_expression.
  destruct (Grammar.tokens_of e ++ rest) as [|token tokens] eqn:Htokens.
  { apply app_eq_nil in Htokens as [Htokens _]. by apply tokens_of_nonempty in Htokens. }
  rewrite (_tokenize_nonblank _ _ _ Htok). cbn zeta.
  rewrite <- Htokens in Htok.
  rewrite (_safe_evaluate_tree _ _ _ e rest); [done| |done..].
  by rewrite _tokenize_strip.
Qed.

Lemma member_ext inside inside' e :
  (∀ name, name ∈ Grammar.names e → inside name = inside' name) →
  member inside e = member inside' e.
Proof.
  induction e as [name|e IH|e IH|op l IHl r IHr]; simpl; intros H.
  - apply H, list_elem_of_here.
  - auto.
  - by rewrite IH.
  - rewrite IHl, IHr; [done|..]; intros name Hname; apply H, elem_of_app; auto.
Qed.

Lemma denote_pointwise points masks e :
  membership_map points masks → known masks (Grammar.names e) →
  ∃ v, Grammar.denote masks (np_ones points) e = Ok v ∧ length v = points
     ∧ ∀ i, i < points →
         v !! i = Some (member (inside_at (λ name, default [] (masks !! name)) i) e).
Proof.
  intros Hm. induction e as [name|e IH|e IH|op l IHl r IHr]; simpl; intros Hk.
  - apply Forall_inv in Hk as [v Hv]. rewrite Hv. exists v.
    pose proof (map_Forall_lookup_1 _ _ _ _ Hm Hv) as Hlen. simpl in Hlen.
    split_and!; [done..|]. intros i Hi. unfold inside_at. rewrite Hv. simpl.
    destruct (lookup_lt_is_Some_2 v i) as [b Hb]; [lia|]. by rewrite Hb.
  - auto.
  - destruct (IH Hk) as (v & -> & Hlen & Hv). simpl_bind.
    exists (np_invert v). rewrite np_invert_length.
    split_and!; [apply np_and_ones; by rewrite np_invert_length|done|].
    intros i Hi. unfold np_invert. by rewrite list_lookup_fmap, Hv.
  - apply Forall_app in Hk as [Hl Hr].
    destruct (IHl Hl) as (vl & -> & Hvl & Hpl).
    destruct (IHr Hr) as (vr & -> & Hvr & Hpr). simpl_bind.
    destruct op; simpl; unfold np_and, np_xor, np_or, np_invert;
      (rewrite broadcast_same by (rewrite ?length_fmap; lia));
      eexists; (split_and!; [reflexivity|rewrite length_zip_with, ?length_fmap; lia|]);
      intros i Hi; rewrite lookup_zip_with, ?list_lookup_fmap, Hpl, Hpr by done;
      reflexivity.
Qed.

Lemma formula_pointwise points points_in_circle f e :
  (∀ key, key ∈ set_names → length (points_in_circle key) = points) →
  formula f e →
  ∃ v, evaluate_expression points points_in_circle f = Ok (v, None)
     ∧ length v = points
     ∧ ∀ i, i < points → v !! i = Some (member (inside_at points_in_circle i) e).
Proof.
  intros Hsized (Htok & Hg & Hnames).
  rewrite (evaluate_expression_tree _ _ _ e []); [|by rewrite app_nil_r|done..].
  destruct (denote_pointwise points _ e
              (evaluate_expression_membership_map _ _ Hsized)) as (v & -> & Hlen & Hv).
  { eapply Forall_impl; [exact Hnames|]. intros name Hname. simpl.
    rewrite circle_masks_lookup, bool_decide_eq_true_2 by done. by eexists. }
  exists v. split_and!; [done..|]. intros i Hi. rewrite (Hv i Hi). f_equal.
  apply member_ext. intros name Hname. unfold inside_at.
  rewrite circle_masks_lookup, bool_decide_eq_true_2; [done|].
  rewrite Forall_forall in Hnames. by apply Hnames.
Qed.

Lemma formulas_agree points points_in_circle f1 e1 f2 e2 :
  (∀ key, key ∈ set_names → length (points_in_circle key) = points) →
  formula f1 e1 → formula f2 e2 →
  (∀ inside, member inside e1 = member inside e2) →
  evaluate_expression points points_in_circle f1
  = evaluate_expression points points_in_circle f2.
Proof.
  intros Hsized H1 H2 Heq.
  destruct (formula_pointwise _ _ _ _ Hsized H1) as (v1 & -> & Hlen1 & Hv1).
  destruct (formula_pointwise _ _ _ _ Hsized H2) as (v2 & -> & Hlen2 & Hv2).
  do 2 f_equal. apply list_eq. intros i.
  destruct (decide (i < points)) as [Hi|Hi].
  - by rewrite Hv1, Hv2, Heq.
  - rewrite !lookup_ge_None_2; [done|lia..].
Qed.

Lemma formula_Group f e :
  formula f e → formula (paren f) (Grammar.Group e).
Proof.
  intros (Htok & Hg & Hnames). split_and!; [|done..].
  unfold paren. rewrite !_tokenize_app, Htok. reflexivity.
Qed.

Lemma formula_Negated f e :
  formula f e → Grammar.tier e = 0 → formula (f ++ lit ".") (Grammar.Negated e).
Proof.
  intros (Htok & Hg & Hnames) Ht. split_and!; [|done..].
  rewrite !_tokenize_app, Htok. reflexivity.
Qed.

Lemma formula_Binary op f l g r :
  formula f l → formula g r →
  Grammar.tier l ≤ Grammar.op_tier op → Grammar.tier r < Grammar.op_tier op →
  formula (f ++ symbol op ++ g) (Grammar.Binary op l r).
Proof.
  intros (Hf & Hgl & Hnl) (Hg & Hgr & Hnr) Hl Hr. split_and!.
  - rewrite !_tokenize_app, Hf, Hg. by destruct op.
  - done.
  - simpl. by apply Forall_app.
Qed.

Lemma parentheses_Group e :
  parentheses (Grammar.tokens_of (Grammar.Group e))
  = S (parentheses (Grammar.tokens_of e)).
Proof.
  cbn [Grammar.tokens_of]. rewrite parentheses_cons, parentheses_app.
  rewrite bool_decide_eq_true_2 by done. change (parentheses [lit ")"]) with 0. lia.
Qed.

Lemma parentheses_Negated e :
  parentheses (Grammar.tokens_of (Grammar.Negated e))
  = parentheses (Grammar.tokens_of e).
Proof.
  cbn [Grammar.tokens_of]. rewrite parentheses_app.
  change (parentheses [lit "NOT"]) with 0. lia.
Qed.

Lemma parentheses_Binary op l r :
  parentheses (Grammar.tokens_of (Grammar.Binary op l r))
  = parentheses (Grammar.tokens_of l) + parentheses (Grammar.tokens_of r).
Proof.
  cbn [Grammar.tokens_of]. rewrite parentheses_app, parentheses_cons.
  rewrite bool_decide_eq_false_2 by (by destruct op). done.
Qed.

Lemma limited_formula frames points points_in_circle f e :
  formula f e → 7 * (parentheses (Grammar.tokens_of e) + 2) ≤ frames →
  Limited.evaluate_expression frames points points_in_circle f
  = uncaught (evaluate_expression points points_in_circle f).
Proof.
  intros (Htok & _) Hf. apply limited_evaluate_expression_within; [|lia].
  intros tokens Ht. rewrite _tokenize_strip, Htok in Ht. injection Ht as <-. lia.
Qed.

Lemma limited_formulas_agree frames points points_in_circle f1 e1 f2 e2 :
  (∀ key, key ∈ set_names → length (points_in_circle key) = points) →
  formula f1 e1 → formula f2 e2 →
  7 * (parentheses (Grammar.tokens_of e1) + 2) ≤ frames →
  7 * (parentheses (Grammar.tokens_of e2) + 2) ≤ frames →
  (∀ inside, member inside e1 = member inside e2) →
  Limited.evaluate_expression frames points points_in_circle f1
  = Limited.evaluate_expression frames points points_in_circle f2.
Proof.
  intros Hsized H1 H2 Hf1 Hf2 Heq.
  rewrite (limited_formula _ _ _ f1 e1), (limited_formula _ _ _ f2 e2) by done.
  f_equal. by apply (formulas_agree _ _ f1 e1 f2 e2).
Qed.

(** X7. The picture of a formula over A, B and C is the set the formula
    describes: when the masks of the circles have one entry per grid point
    and the interpreter has seven frames left for each opening parenthesis
    of the formula (and fourteen more), [evaluate_expression] prints no
    error and marks a point exactly when the Boolean combination the
    formula stands for holds of the point's memberships in the three
    circles. *)
Theorem evaluate_expression_pointwise frames points points_in_circle f e :
  (∀ key, key ∈ set_names → length (points_in_circle key) = points) →
  formula f e →
  7 * (parentheses (Grammar.tokens_of e) + 2) ≤ frames →
  ∃ v, Limited.evaluate_expression frames points points_in_circle f = Ok (v, None)
     ∧ length v = points
     ∧ ∀ i, i < points → v !! i = Some (member (inside_at points_in_circle i) e).
Proof.
  intros Hsized Hformula Hf. rewrite (limited_formula _ _ _ f e) by done.
  destruct (formula_pointwise points points_in_circle f e Hsized Hformula)
    as (v & -> & Hlen & Hv).
  by exists v.
Qed.

Lemma sample_masks_sized key :
  key ∈ set_names → length (default (np_zeros 4) (sample_masks !! key)) = 4.
Proof.
  intros Hkey. apply list_elem_of_In in Hkey. simpl in Hkey.
  destruct Hkey as [<-|[<-|[<-|[]]]]; reflexivity.
Defined.

Lemma sample_formula :
  formula (lit "(A U B) - C.")
    (Grammar.Binary Grammar.Diff
       (Grammar.Group (Grammar.Binary Grammar.Or (Grammar.SetRef (lit "A"))
                         (Grammar.SetRef (lit "B"))))
       (Grammar.Negated (Grammar.SetRef (lit "C")))).
Proof.
  split_and!; [reflexivity|simpl; split_and!; (done || lia)|].
  repeat constructor; apply list_elem_of_In; simpl; tauto.
Defined.

Lemma evaluate_expression_pointwise_witness :
  ∃ v, Limited.evaluate_expression 100 4
         (λ key, default (np_zeros 4) (sample_masks !! key))
         (lit "(A U B) - C.") = Ok (v, None)
     ∧ length v = 4
     ∧ ∀ i, i < 4 →
         v !! i = Some (member
           (inside_at (λ key, default (np_zeros 4) (sample_masks !! key)) i)
           (Grammar.Binary Grammar.Diff
              (Grammar.Group (Grammar.Binary Grammar.Or (Grammar.SetRef (lit "A"))
                                (Grammar.SetRef (lit "B"))))
              (Grammar.Negated (Grammar.SetRef (lit "C"))))).
Proof.
  apply evaluate_expression_pointwise;
    [exact sample_masks_sized|exact sample_formula|vm_compute; lia].
Defined.

(** X8. Two formulas over A, B and C that describe the same Boolean
    combination of the three sets give the same result, wherever the
    circles are, when the interpreter has seven frames left for each
    opening parenthesis of either (and fourteen more). *)
Theorem equivalent_formulas_agree frames points points_in_circle f1 e1 f2 e2 :
  (∀ key, key ∈ set_names → length (points_in_circle key) = points) →
  formula f1 e1 → formula f2 e2 →
  7 * (parentheses (Grammar.tokens_of e1) + 2) ≤ frames →
  7 * (parentheses (Grammar.tokens_of e2) + 2) ≤ frames →
  (∀ inside, member inside e1 = member inside e2) →
  Limited.evaluate_expression frames points points_in_circle f1
  = Limited.evaluate_expression frames points points_in_circle f2.
Proof. apply limited_formulas_agree. Qed.

(** X9. The operators obey the laws of sets on arbitrary sub-formulas [f]
    and [g] in parentheses: a difference is the intersection with the
    complement, the complement of a union is the intersection of the
    complements, [^] is the union without the intersection, and the
    complement of a parenthesised complement is the formula itself. This
    holds when the interpreter has frames left for the longest of these
    formulas, seven for each of its opening parentheses (and fourteen
    more). *)
Theorem set_algebra_laws frames points points_in_circle f g ef eg :
  (∀ key, key ∈ set_names → length (points_in_circle key) = points) →
  formula f ef → formula g eg →
  7 * (2 * (parentheses (Grammar.tokens_of ef) + parentheses (Grammar.tokens_of eg))
       + 8) ≤ frames →
  let eval := Limited.evaluate_expression frames points points_in_circle in
  eval (paren f ++ lit "-" ++ paren g)
  = eval (paren f ++ lit "&" ++ (paren g ++ lit "."))
  ∧ eval (paren (paren f ++ lit "U" ++ paren g) ++ lit ".")
    = eval ((paren f ++ lit ".") ++ lit "&" ++ (paren g ++ lit "."))
  ∧ eval (paren f ++ lit "^" ++ paren g)
    = eval (paren (paren f ++ lit "U" ++ paren g) ++ lit "-"
            ++ paren (paren f ++ lit "&" ++ paren g))
  ∧ eval (paren (paren f ++ lit ".") ++ lit ".") = eval (paren f).
Proof.
  intros Hsized Hf Hg Hframes eval. subst eval.
  pose proof (formula_Group _ _ Hf) as Hpf.
  pose proof (formula_Group _ _ Hg) as Hpg.
  pose proof (formula_Negated _ _ Hpf eq_refl) as Hnf.
  pose proof (formula_Negated _ _ Hpg eq_refl) as Hng.
  pose proof (formula_Binary Grammar.Or _ _ _ _ Hpf Hpg ltac:(simpl; lia)
                ltac:(simpl; lia)) as Hor.
  pose proof (formula_Binary Grammar.And _ _ _ _ Hpf Hpg ltac:(simpl; lia)
                ltac:(simpl; lia)) as Hand.
  split_and!.
  - apply (limited_formulas_agree frames _ _ _ _ _ _ Hsized
             (formula_Binary Grammar.Diff _ _ _ _ Hpf Hpg ltac:(simpl; lia)
                ltac:(simpl; lia))
             (formula_Binary Grammar.And _ _ _ _ Hpf Hng ltac:(simpl; lia)
                ltac:(simpl; lia))).
    all: repeat first [rewrite parentheses_Binary | rewrite parentheses_Negated
               | rewrite parentheses_Group];
      (lia || done).
  - apply (limited_formulas_agree frames _ _ _ _ _ _ Hsized
             (formula_Negated _ _ (formula_Group _ _ Hor) eq_refl)
             (formula_Binary Grammar.And _ _ _ _ Hnf Hng ltac:(simpl; lia)
                ltac:(simpl; lia))).
    all: repeat first [rewrite parentheses_Binary | rewrite parentheses_Negated
               | rewrite parentheses_Group];
      try lia.
    intros inside. simpl. apply negb_orb.
  - apply (limited_formulas_agree frames _ _ _ _ _ _ Hsized
             (formula_Binary Grammar.Xor _ _ _ _ Hpf Hpg ltac:(simpl; lia)
                ltac:(simpl; lia))
             (formula_Binary Grammar.Diff _ _ _ _ (formula_Group _ _ Hor)
                (formula_Group _ _ Hand) ltac:(simpl; lia) ltac:(simpl; lia))).
    all: repeat first [rewrite parentheses_Binary | rewrite parentheses_Negated
               | rewrite parentheses_Group];
      try lia.
    intros inside. simpl. by destruct (member inside ef), (member inside eg).
  - apply (limited_formulas_agree frames _ _ _ _ _ _ Hsized
             (formula_Negated _ _ (formula_Group _ _ Hnf) eq_refl) Hpf).
    all: repeat first [rewrite parentheses_Binary | rewrite parentheses_Negated
               | rewrite parentheses_Group];
      try lia.
    intros inside. simpl. apply negb_involutive.
Qed.

Lemma equivalent_formulas_agree_witness :
  Limited.evaluate_expression 100 4
    (λ key, default (np_zeros 4) (sample_masks !! key)) (lit "A - B")
  = Limited.evaluate_expression 100 4
      (λ key, default (np_zeros 4) (sample_masks !! key)) (lit "A & B.").
Proof.
  apply (equivalent_formulas_agree 100 4 _ (lit "A - B")
           (Grammar.Binary Grammar.Diff (Grammar.SetRef (lit "A"))
              (Grammar.SetRef (lit "B")))
           (lit "A & B.")
           (Grammar.Binary Grammar.And (Grammar.SetRef (lit "A"))
              (Grammar.Negated (Grammar.SetRef (lit "B"))))).
  - exact sample_masks_sized.
  - split_and!; [reflexivity|simpl; repeat split; (done || lia)|].
    repeat constructor; apply list_elem_of_In; simpl; tauto.
  - split_and!; [reflexivity|simpl; repeat split; (done || lia)|].
    repeat constructor; apply list_elem_of_In; simpl; tauto.
  - vm_compute. lia.
  - vm_compute. lia.
  - intros inside. reflexivity.
Defined.

Lemma set_algebra_laws_witness :
  let eval :=
    Limited.evaluate_expression 100 4
      (λ key, default (np_zeros 4) (sample_masks !! key)) in
  let f := lit "A" in
  let g := lit "B U C" in
  eval (paren f ++ lit "-" ++ paren g)
  = eval (paren f ++ lit "&" ++ (paren g ++ lit "."))
  ∧ eval (paren (paren f ++ lit "U" ++ paren g) ++ lit ".")
    = eval ((paren f ++ lit ".") ++ lit "&" ++ (paren g ++ lit "."))
  ∧ eval (paren f ++ lit "^" ++ paren g)
    = eval (paren (paren f ++ lit "U" ++ paren g) ++ lit "-"
            ++ paren (paren f ++ lit "&" ++ paren g))
  ∧ eval (paren (paren f ++ lit ".") ++ lit ".") = eval (paren f).
Proof.
  apply (set_algebra_laws 100 4 _ (lit "A") (lit "B U C")
           (Grammar.SetRef (lit "A"))
           (Grammar.Binary Grammar.Or (Grammar.SetRef (lit "B"))
              (Grammar.SetRef (lit "C")))).
  - exact sample_masks_sized.
  - split_and!; [reflexivity|simpl; repeat split; (done || lia)|].
    repeat constructor; apply list_elem_of_In; simpl; tauto.
  - split_and!; [reflexivity|simpl; repeat split; (done || lia)|].
    repeat constructor; apply list_elem_of_In; simpl; tauto.
  - vm_compute. lia.
Defined.

(** ** Termination of the parser *)

(** X21. Parsing ends on every token list: each call and each turn of a
    loop takes up a token, so fuel beyond the number of tokens is never
    used up; with it [_parse_expression] returns or raises, and more fuel
    does not change what it gives. *)
Theorem parsing_terminates fuel tokens pos masks universal :
  length tokens < fuel →
  _parse_expression fuel tokens pos masks universal ≠ OutOfFuel
  ∧ _parse_expression fuel tokens pos masks universal
    = _parse_expression (S (length tokens)) tokens pos masks universal.
Proof.
  intros Hfuel. rewrite _parse_expression_fuel by lia.
  split; [apply _parse_expression_total|done].
Qed.

Lemma parsing_terminates_witness :
  _parse_expression 9 [lit "("; lit "A"; lit "OR"] 0 sample_masks (np_ones 4)
  ≠ OutOfFuel
  ∧ _parse_expression 9 [lit "("; lit "A"; lit "OR"] 0 sample_masks (np_ones 4)
    = _parse_expression (S (length [lit "("; lit "A"; lit "OR"]))
        [lit "("; lit "A"; lit "OR"] 0 sample_masks (np_ones 4).
Proof. apply parsing_terminates. simpl. lia. Defined.

(** * The visualizer *)

Section visualizer_facts.
Local Abbreviation formula_result := evaluate_expression (only parsing).
Import Visualizer.

Ltac simpl_run := cbn [mbind run_bind mret run_ret].

Lemma run_bind_inv {A B} (x : run A) (f : A → run B) (b : B) :
  x ≫= f = Returns b → ∃ a, x = Returns a ∧ f a = Returns b.
Proof. destruct x as [a| |]; simpl; [eauto | discriminate..]. Qed.

(** ** Records *)

Lemma with_stdout_nil self : with_stdout (stdout self ++ []) self = self.
Proof. destruct self. unfold with_stdout. simpl. by rewrite app_nil_r. Qed.

Lemma with_stdout_app self out out' :
  with_stdout (stdout (with_stdout (stdout self ++ out) self) ++ out')
    (with_stdout (stdout self ++ out) self)
  = with_stdout (stdout self ++ out ++ out') self.
Proof. unfold with_stdout. simpl. by rewrite app_assoc. Qed.

(** ** The dict of the sets *)

Lemma for_each_keys body d : (for_each body d).*1 = d.*1.
Proof. unfold for_each. rewrite <- list_fmap_compose. done. Qed.

Lemma for_each_length body d : length (for_each body d) = length d.
Proof. apply length_fmap. Qed.

Lemma for_each_compose body body' d :
  for_each body (for_each body' d) = for_each (λ key entry, body key (body' key entry)) d.
Proof. unfold for_each. rewrite <- list_fmap_compose. done. Qed.

Lemma for_each_ext body body' d :
  (∀ key entry, (key, entry) ∈ d → body key entry = body' key entry) →
  for_each body d = for_each body' d.
Proof.
  intros H. unfold for_each. apply list_fmap_ext. intros i [key entry] Hi. simpl.
  rewrite H; [done|]. by eapply list_elem_of_lookup_2.
Qed.

Lemma for_each_Forall (P : str * SetEntry → Prop) body d :
  (∀ key entry, (key, entry) ∈ d → P (key, body key entry)) →
  Forall P (for_each body d).
Proof.
  intros H. unfold for_each. apply Forall_fmap, Forall_forall.
  intros [key entry] Hin. simpl. by apply H.
Qed.

Lemma getitem_for_each body key d :
  getitem key (for_each body d) = body key <$> getitem key d.
Proof.
  induction d as [|[k entry] d IH]; [done|]. simpl.
  case_decide; [by subst k|done].
Qed.

Lemma getitem_Some key d entry : getitem key d = Some entry → (key, entry) ∈ d.
Proof.
  induction d as [|[k x] d IH]; [done|]. simpl. case_decide as Hk.
  - intros [= ->]. subst k. apply list_elem_of_here.
  - intros Hd. by apply list_elem_of_further, IH.
Qed.

Lemma getitem_is_Some key d : key ∈ d.*1 → is_Some (getitem key d).
Proof.
  induction d as [|[k x] d IH]; simpl.
  - intros H. by apply elem_of_nil in H.
  - case_decide; [by eexists|]. intros [?|?]%elem_of_cons; [congruence|auto].
Qed.

Lemma update_keys key f d : (update key f d).*1 = d.*1.
Proof.
  induction d as [|[k x] d IH]; [done|]. simpl. case_decide; [done|].
  cbn [fmap list_fmap fst]. f_equal. apply IH.
Qed.

Lemma update_Forall (P : str * SetEntry → Prop) key f d :
  (∀ entry, P (key, entry) → P (key, f entry)) →
  Forall P d → Forall P (update key f d).
Proof.
  intros Hf. induction 1 as [|[k x] d Hx Hd IH]; [done|]. simpl.
  case_decide; [subst k|]; constructor; auto.
Qed.

Lemma same_circles_refl d : same_circles d d.
Proof. apply Forall2_same_length_lookup. split; [done|]. intros i x y ? ?.
  by simplify_eq. Qed.

Lemma same_circles_for_each body d :
  (∀ key entry, center (circle (body key entry)) = center (circle entry)
                ∧ radius (circle (body key entry)) = radius (circle entry)) →
  same_circles (for_each body d) d.
Proof.
  intros H. unfold same_circles, for_each. apply Forall2_fmap_l.
  apply Forall_Forall2_diag, Forall_forall. intros [key entry] _. simpl.
  split; [done|]. apply H.
Qed.

Lemma same_circles_getitem d d' key :
  same_circles d d' →
  match getitem key d, getitem key d' with
  | Some entry, Some entry' =>
      center (circle entry) = center (circle entry')
      ∧ radius (circle entry) = radius (circle entry')
  | None, None => True
  | _, _ => False
  end.
Proof.
  induction 1 as [|[k x] [k' x'] d d' (Hk & Hc & Hr) _ IH]; [done|]. simpl in *.
  subst k'. by case_decide.
Qed.

(** ** The masks of the circles *)

Lemma points_in_circle_length self c :
  length (points_in_circle self c) = length (points self).
Proof. apply length_fmap. Qed.

Lemma points_in_circle_congr self self' c c' :
  points self = points self' → center c = center c' → radius c = radius c' →
  points_in_circle self c = points_in_circle self' c'.
Proof. intros Hp Hc Hr. unfold points_in_circle. by rewrite Hp, Hc, Hr. Qed.

Lemma circle_masks_membership_map self a b c :
  membership_map (length (points self))
    (<[lit "A" := points_in_circle self a]>
    (<[lit "B" := points_in_circle self b]>
    (<[lit "C" := points_in_circle self c]> ∅))).
Proof.
  unfold membership_map.
  repeat (apply map_Forall_insert_2; [apply points_in_circle_length|]).
  apply map_Forall_empty.
Qed.

(** ** [evaluate_expression] in a state *)

Lemma evaluate_expression_returns self expression :
  ∃ mask out,
    Visualizer.evaluate_expression self expression
    = Returns (mask, with_stdout (stdout self ++ out) self)
    ∧ length mask = length (points self)
    ∧ evaluation self expression = Returns (mask, out).
Proof.
  unfold evaluation, Visualizer.evaluate_expression.
  assert (Hzeros : ∀ out,
    ∃ mask out',
      Returns (np_zeros (length (points self)),
               with_stdout (stdout self ++ out) self)
      = Returns (mask, with_stdout (stdout self ++ out') self)
      ∧ length mask = length (points self)
      ∧ (Returns (np_zeros (length (points self)),
                  with_stdout (stdout self ++ out) self)
         ≫= λ '(mask, self'),
              Returns (mask, drop (length (stdout self)) (stdout self')))
        = Returns (mask, out')).
  { intros out. exists (np_zeros (length (points self))), out.
    split_and!; [done|apply length_replicate|]. simpl_run. simpl.
    by rewrite drop_app_length. }
  destruct (_ || _).
  { exists (np_zeros (length (points self))), []. rewrite with_stdout_nil.
    split_and!; [done|apply length_replicate|]. simpl_run. by rewrite drop_all. }
  unfold print.
  destruct (getitem (lit "A") (sets self)) as [a|]; [|apply Hzeros].
  destruct (getitem (lit "B") (sets self)) as [b|]; [|apply Hzeros].
  destruct (getitem (lit "C") (sets self)) as [c|]; [|apply Hzeros].
  pose proof (sized__safe_evaluate (length (points self)) expression _
                (circle_masks_membership_map self (circle a) (circle b) (circle c)))
    as Hsized.
  pose proof (_safe_evaluate_total (length (points self)) expression
    (<[lit "A" := points_in_circle self (circle a)]>
    (<[lit "B" := points_in_circle self (circle b)]>
    (<[lit "C" := points_in_circle self (circle c)]> ∅)))) as Htotal.
  destruct (_safe_evaluate _ _ _) as [result|e|]; [| |done].
  - exists result, []. rewrite with_stdout_nil. split_and!; [done..|].
    simpl_run. by rewrite drop_all.
  - apply Hzeros.
Qed.

Lemma evaluation_returns self expression :
  ∃ mask out, evaluation self expression = Returns (mask, out)
    ∧ length mask = length (points self).
Proof.
  destruct (evaluate_expression_returns self expression)
    as (mask & out & _ & Hlen & Hev). eauto.
Qed.

Lemma evaluate_expression_evaluation self expression mask out :
  evaluation self expression = Returns (mask, out) →
  Visualizer.evaluate_expression self expression
  = Returns (mask, with_stdout (stdout self ++ out) self).
Proof.
  destruct (evaluate_expression_returns self expression)
    as (mask' & out' & -> & _ & ->). by intros [= -> ->].
Qed.

Lemma evaluation_congr self self' expression :
  points self = points self' → same_circles (sets self) (sets self') →
  evaluation self expression = evaluation self' expression.
Proof.
  intros Hp Hd. unfold evaluation, Visualizer.evaluate_expression, print.
  rewrite <- !Hp. destruct (_ || _); [simpl_run; by rewrite !drop_all|].
  pose proof (same_circles_getitem _ _ (lit "A") Hd) as HA.
  pose proof (same_circles_getitem _ _ (lit "B") Hd) as HB.
  pose proof (same_circles_getitem _ _ (lit "C") Hd) as HC.
  destruct (getitem (lit "A") (sets self)) as [a|],
    (getitem (lit "A") (sets self')) as [a'|]; try done;
    [|simpl_run; simpl; by rewrite !drop_app_length].
  destruct (getitem (lit "B") (sets self)) as [b|],
    (getitem (lit "B") (sets self')) as [b'|]; try done;
    [|simpl_run; simpl; by rewrite !drop_app_length].
  destruct (getitem (lit "C") (sets self)) as [c|],
    (getitem (lit "C") (sets self')) as [c'|]; try done;
    [|simpl_run; simpl; by rewrite !drop_app_length].
  destruct HA as [HA1 HA2], HB as [HB1 HB2], HC as [HC1 HC2].
  rewrite (points_in_circle_congr self self' (circle a) (circle a')),
    (points_in_circle_congr self self' (circle b) (circle b')),
    (points_in_circle_congr self self' (circle c) (circle c')) by done.
  destruct (_safe_evaluate _ _ _); simpl_run; simpl; [|by rewrite !drop_app_length|done].
  by rewrite !drop_all.
Qed.

(** ** What [update_plot] leaves behind *)

Lemma blank_test expression :
  negb (bool_decide (expression = [])) && negb (bool_decide (strip expression = []))
  = negb (blank expression).
Proof. unfold blank. by rewrite negb_orb. Qed.

Lemma scatter_of_rows (result_points : list (float * float)) self :
  result_scatter self = None →
  (if bool_decide (0 < length result_points)
   then with_result_scatter (Some result_points) self else self)
  = with_result_scatter (scatter_of result_points) self.
Proof.
  intros Hnone. destruct result_points as [|p l].
  - destruct self. simpl in Hnone. by subst.
  - rewrite bool_decide_eq_true_2 by (simpl; lia). done.
Qed.

Lemma title_of_rows expression (result_points : list (float * float)) :
  (if bool_decide (0 < length result_points)
   then (title_prefix ++ expression) ++ count_prefix
        ++ lit (pretty (length result_points))
   else title_prefix ++ expression)
  = title_of expression result_points.
Proof.
  destruct result_points as [|p l]; [done|].
  by rewrite bool_decide_eq_true_2 by (simpl; lia).
Qed.

Lemma update_plot_blank expression self :
  blank (default (current_expression self) expression) = true →
  update_plot expression self
  = Returns
      {| points := points self; text_box := text_box self;
         result_scatter := None;
         current_expression := default (current_expression self) expression;
         title := title self;
         sets := for_each (λ key entry, set_visible true entry) (sets self);
         stdout := stdout self |}.
Proof.
  intros Hblank. unfold update_plot.
  destruct self as [pts box scatter current ttl d out].
  destruct expression as [e|]; simpl in *; rewrite blank_test, Hblank;
    by destruct scatter.
Qed.

Lemma update_plot_formula expression self mask out :
  blank (default (current_expression self) expression) = false →
  evaluation self (default (current_expression self) expression)
  = Returns (mask, out) →
  update_plot expression self
  = Returns
      {| points := points self; text_box := text_box self;
         result_scatter := scatter_of (rows (points self) mask);
         current_expression := default (current_expression self) expression;
         title := title_of (default (current_expression self) expression)
                    (rows (points self) mask);
         sets := for_each
                   (λ key entry,
                      set_visible
                        (bool_decide
                           (key ∈ _get_used_sets
                                    (default (current_expression self) expression)))
                        entry) (sets self);
         stdout := stdout self ++ out |}.
Proof.
  intros Hblank Hev.
  set (e := default (current_expression self) expression) in *.
  set (cleared :=
    {| points := points self; text_box := text_box self; result_scatter := None;
       current_expression := e; title := title self; sets := sets self;
       stdout := stdout self |}).
  assert (Hstart : update_plot expression self
    = (if negb (bool_decide (e = [])) && negb (bool_decide (strip e = [])) then
         let self := _update_circle_visibility e cleared in
         '(result_mask, self) ← Visualizer.evaluate_expression self e;
         result_points ← boolean_index (points self) result_mask;
         let point_count := length result_points in
         let self :=
           if bool_decide (0 < point_count) then
             with_result_scatter (Some result_points) self
           else self in
         let title := title_prefix ++ e in
         let title :=
           if bool_decide (0 < point_count) then
             title ++ count_prefix ++ lit (pretty point_count)
           else title in
         Returns (with_title title self)
       else
         Returns (with_sets (for_each (λ key entry, set_visible true entry)
                               (sets cleared)) cleared))).
  { subst e cleared. unfold update_plot.
    destruct self as [pts box scatter current ttl d so].
    destruct expression as [e|]; simpl; by destruct scatter. }
  rewrite Hstart, blank_test, Hblank. cbn [negb]. cbn zeta.
  assert (Hev' : evaluation (_update_circle_visibility e cleared) e
                 = Returns (mask, out)).
  { rewrite <- Hev. apply evaluation_congr; [done|].
    apply same_circles_for_each. done. }
  rewrite (evaluate_expression_evaluation _ _ _ _ Hev'). simpl_run.
  destruct (evaluation_returns (_update_circle_visibility e cleared) e)
    as (mask' & out' & Hev'' & Hlen).
  rewrite Hev' in Hev''. injection Hev'' as <- <-.
  unfold boolean_index. rewrite decide_True by done. simpl_run.
  fold (rows (points self) mask).
  change (points (with_stdout _ _)) with (points self).
  fold (rows (points self) mask).
  rewrite title_of_rows, scatter_of_rows by done.
  reflexivity.
Qed.

Lemma update_plot_total expression self :
  ∃ self', update_plot expression self = Returns self'
    ∧ points self' = points self ∧ text_box self' = text_box self
    ∧ current_expression self' = default (current_expression self) expression
    ∧ ∃ v : str → bool,
        sets self' = for_each (λ key entry, set_visible (v key) entry) (sets self).
Proof.
  destruct (blank (default (current_expression self) expression)) eqn:Hblank.
  - rewrite (update_plot_blank _ _ Hblank). eexists. split_and!; try done.
    by exists (λ _, true).
  - destruct (evaluation_returns self (default (current_expression self) expression))
      as (mask & out & Hev & _).
    rewrite (update_plot_formula _ _ _ _ Hblank Hev). eexists.
    split_and!; try done. simpl. by eexists (λ key, bool_decide _).
Qed.

(** ** The dict in the three states of a drag *)

Lemma entrywise_keys R d d' : entrywise R d d' → d'.*1 = d.*1.
Proof.
  induction 1 as [|[k x] [k' x'] d d' [Hk _] _ IH]; [done|].
  cbn [fmap list_fmap fst] in *. simpl in Hk. by rewrite Hk, IH.
Qed.

Lemma entrywise_Forall R (P : str * SetEntry → Prop) d d' :
  (∀ key entry entry', R entry entry' → P (key, entry) → P (key, entry')) →
  entrywise R d d' → Forall P d → Forall P d'.
Proof.
  intros HR. induction 1 as [|[k x] [k' x'] d d' [Hk Hx] _ IH]; [done|].
  simpl in *. subst k'. intros [HP Hd]%Forall_cons. constructor; eauto.
Qed.

Lemma entrywise_refl R d : (∀ entry, R entry entry) → entrywise R d d.
Proof. intros HR. apply Forall_Forall2_diag, Forall_forall. by intros [k x] _. Qed.

Lemma entrywise_impl (R R' : SetEntry → SetEntry → Prop) d d' :
  (∀ entry entry', R entry entry' → R' entry entry') →
  entrywise R d d' → entrywise R' d d'.
Proof.
  intros HR H. eapply Forall2_impl; [exact H|].
  intros [k x] [k' x'] [Hk Hx]. split; auto.
Qed.

Lemma entrywise_trans (R R' R'' : SetEntry → SetEntry → Prop) d d' d'' :
  (∀ x y z, R x y → R' y z → R'' x z) →
  entrywise R d d' → entrywise R' d' d'' → entrywise R'' d d''.
Proof.
  intros HR H. revert d''. induction H as [|[k x] [k' x'] d d' [Hk Hx] _ IH];
    intros d'' H'.
  - inversion H'. constructor.
  - inversion H' as [|? [k'' x''] ? ? [Hk' Hx'] Hd']; subst. simpl in *.
    constructor; [|by apply IH]. simpl. split; [congruence|eauto].
Qed.

Lemma entrywise_for_each R body d :
  (∀ key entry, R entry (body key entry)) → entrywise R d (for_each body d).
Proof.
  intros HR. unfold entrywise, for_each. apply Forall2_fmap_r.
  apply Forall_Forall2_diag, Forall_forall. intros [k x] _. simpl. auto.
Qed.

Lemma entrywise_insert R d i key entry entry' :
  (∀ entry, R entry entry) →
  d !! i = Some (key, entry) → R entry entry' →
  entrywise R d (<[i := (key, entry')]> d).
Proof.
  intros Hrefl Hi HR. unfold entrywise.
  apply Forall2_same_length_lookup. split; [by rewrite length_insert|].
  intros j [k x] [k' x'] Hj Hj'. destruct (decide (i = j)) as [->|Hne].
  - rewrite list_lookup_insert_eq in Hj' by (by eapply lookup_lt_Some).
    by simplify_eq.
  - rewrite list_lookup_insert_ne in Hj' by done. by simplify_eq.
Qed.

Lemma on_press_loop_find contains event d :
  on_press_loop contains event d
  = match list_find (λ item, contains (circle item.2) event = true) d with
    | Some (i, (key, entry)) => <[i := (key, grabbed event entry)]> d
    | None => d
    end.
Proof.
  induction d as [|[key entry] d IH]; [done|]. cbn [on_press_loop list_find].
  destruct (contains (circle entry) event) eqn:Hc.
  - by rewrite decide_True.
  - rewrite decide_False by (simpl; congruence). rewrite IH.
    destruct (list_find _ d) as [[i [k x]]|]; simpl; done.
Qed.

Lemma on_motion_loop_find event d :
  on_motion_loop event d
  = match list_find (λ item, dragging item.2 = true) d with
    | Some (i, (key, entry)) => Some (<[i := (key, dragged event entry)]> d)
    | None => None
    end.
Proof.
  induction d as [|[key entry] d IH]; [done|]. cbn [on_motion_loop list_find].
  destruct (dragging entry) eqn:Hd.
  - by rewrite decide_True.
  - rewrite decide_False by (simpl; congruence). rewrite IH.
    destruct (list_find _ d) as [[i [k x]]|]; simpl; done.
Qed.

Lemma with_sets_same self : with_sets (sets self) self = self.
Proof. by destruct self. Qed.

(** ** The state of the program and the evaluator of formulas *)

Lemma keys_set_names self :
  keys self = set_names →
  ∃ a b c, sets self = [(lit "A", a); (lit "B", b); (lit "C", c)].
Proof.
  unfold keys, set_names.
  destruct (sets self) as [|[k1 a] [|[k2 b] [|[k3 c] [|]]]]; simpl; try done.
  intros [= -> -> ->]. by exists a, b, c.
Qed.

Lemma evaluation_formula_result self expression :
  keys self = set_names →
  evaluation self expression
  = match formula_result (length (points self)) (circle_mask self) expression with
    | Ok (mask, None) => Returns (mask, [])
    | Ok (mask, Some e) => Returns (mask, [error_prefix ++ message e])
    | _ => Unfinished
    end.
Proof.
  intros (a & b & c & Hsets)%keys_set_names.
  unfold evaluation, Visualizer.evaluate_expression, formula_result, circle_mask, print.
  rewrite Hsets.
  change (getitem (lit "A") [(lit "A", a); (lit "B", b); (lit "C", c)]) with (Some a).
  change (getitem (lit "B") [(lit "A", a); (lit "B", b); (lit "C", c)]) with (Some b).
  change (getitem (lit "C") [(lit "A", a); (lit "B", b); (lit "C", c)]) with (Some c).
  destruct (_ || _); [simpl_run; by rewrite drop_all|]. cbn zeta.
  destruct (_safe_evaluate _ _ _); simpl_run; [by rewrite drop_all| |done].
  simpl. by rewrite drop_app_length.
Qed.

Lemma selected_evaluation self expression mask out :
  keys self = set_names →
  evaluation self expression = Returns (mask, out) →
  selected self expression = rows (points self) mask.
Proof.
  intros Hkeys. rewrite (evaluation_formula_result _ _ Hkeys). unfold selected.
  destruct (formula_result _ _ _) as [[m [e|]]| |]; try done; by intros [= -> _].
Qed.

Lemma rows_zeros (a : list (float * float)) n : rows a (np_zeros n) = [].
Proof.
  unfold rows, np_zeros. revert n. induction a as [|p a IH]; intros [|n]; try done.
  simpl. rewrite filter_cons_False by done. apply IH.
Qed.

Lemma selected_blank self expression :
  blank expression = true → selected self expression = [].
Proof.
  intros Hblank. unfold selected, formula_result. unfold blank in Hblank.
  rewrite Hblank. apply rows_zeros.
Qed.

Lemma formula_result_ext points (f g : list N → list bool) expression :
  (∀ key, key ∈ set_names → f key = g key) →
  formula_result points f expression = formula_result points g expression.
Proof.
  intros H. unfold formula_result.
  by rewrite !(H (lit "A")), !(H (lit "B")), !(H (lit "C"))
    by (apply list_elem_of_In; simpl; tauto).
Qed.

Lemma circle_mask_congr self self' key :
  points self = points self' → same_circles (sets self) (sets self') →
  circle_mask self key = circle_mask self' key.
Proof.
  intros Hp Hd. unfold circle_mask.
  pose proof (same_circles_getitem _ _ key Hd) as H.
  destruct (getitem key (sets self)), (getitem key (sets self')); try done.
  destruct H. by apply points_in_circle_congr.
Qed.

Lemma selected_congr self self' expression :
  points self = points self' → same_circles (sets self) (sets self') →
  selected self expression = selected self' expression.
Proof.
  intros Hp Hd. unfold selected. rewrite <- Hp.
  rewrite (formula_result_ext _ (circle_mask self) (circle_mask self')); [done|].
  intros key _. by apply circle_mask_congr.
Qed.

Lemma entrywise_same_circles R d d' :
  (∀ entry entry', R entry entry' → circle entry' = circle entry) →
  entrywise R d d' → same_circles d d'.
Proof.
  intros HR H. eapply Forall2_impl; [exact H|].
  intros [k x] [k' x'] [Hk Hx]. split; [done|]. simpl in *.
  by rewrite (HR _ _ Hx).
Qed.

(** ** What the handlers keep *)

Lemma labelled_set_visible key v entry :
  labelled (key, entry) → labelled (key, set_visible v entry).
Proof. by intros (Hp & _ & Hr). Qed.

Lemma labelled_move_to key p entry :
  labelled (key, entry) → labelled (key, move_to p entry).
Proof. by intros (_ & Hv & Hr). Qed.

Lemma labelled_same_look key entry entry' :
  same_look entry entry' → labelled (key, entry) → labelled (key, entry').
Proof. intros [Hc Ht]. unfold labelled. simpl. by rewrite Hc, Ht. Qed.

Lemma well_formed_same_look grid self self' :
  points self' = points self → entrywise same_look (sets self) (sets self') →
  well_formed grid self → well_formed grid self'.
Proof.
  intros Hp Hd (Hgrid & Hkeys & Hl). split_and!.
  - congruence.
  - unfold keys in *. by rewrite (entrywise_keys _ _ _ Hd).
  - eapply entrywise_Forall; [|exact Hd|exact Hl].
    intros key entry entry'. apply labelled_same_look.
Qed.

Lemma up_to_date_same_look self self' :
  points self' = points self →
  current_expression self' = current_expression self →
  result_scatter self' = result_scatter self →
  entrywise same_look (sets self) (sets self') →
  up_to_date self → up_to_date self'.
Proof.
  intros Hp He Hs Hd [Hscatter Hvisible]. split.
  - rewrite Hs, He, Hscatter. f_equal. apply selected_congr; [done|].
    eapply entrywise_same_circles; [|exact Hd]. by intros entry entry' [-> _].
  - rewrite He. eapply entrywise_Forall; [|exact Hd|exact Hvisible].
    intros key entry entry' [Hc _]. simpl. by rewrite Hc.
Qed.

Lemma well_formed_update_plot grid expression self self' :
  update_plot expression self = Returns self' →
  well_formed grid self → well_formed grid self'.
Proof.
  intros Hup (Hgrid & Hkeys & Hl).
  destruct (update_plot_total expression self)
    as (self'' & Hup' & Hp & _ & _ & v & Hsets).
  rewrite Hup in Hup'. injection Hup' as <-. split_and!.
  - congruence.
  - unfold keys in *. by rewrite Hsets, for_each_keys.
  - rewrite Hsets. apply for_each_Forall. intros key entry Hin.
    apply labelled_set_visible. rewrite Forall_forall in Hl. by apply Hl.
Qed.

Lemma up_to_date_update_plot expression self self' :
  update_plot expression self = Returns self' →
  keys self = set_names → up_to_date self'.
Proof.
  intros Hup Hkeys.
  destruct (blank (default (current_expression self) expression)) eqn:Hblank.
  - rewrite (update_plot_blank _ _ Hblank) in Hup. injection Hup as <-.
    split; simpl.
    + by rewrite selected_blank.
    + apply for_each_Forall. intros key entry _. simpl.
      unfold visible_for. by rewrite Hblank.
  - destruct (evaluation_returns self (default (current_expression self) expression))
      as (mask & out & Hev & _).
    rewrite (update_plot_formula _ _ _ _ Hblank Hev) in Hup. injection Hup as <-.
    split; simpl.
    + f_equal. rewrite <- (selected_evaluation self _ mask out Hkeys Hev).
      symmetry. apply selected_congr; [done|]. simpl.
      by apply same_circles_for_each.
    + apply for_each_Forall. intros key entry _. simpl.
      unfold visible_for. by rewrite Hblank.
Qed.

(** *** Press and release *)

Lemma on_press_same_look contains event self :
  points (on_press contains event self) = points self
  ∧ text_box (on_press contains event self) = text_box self
  ∧ result_scatter (on_press contains event self) = result_scatter self
  ∧ current_expression (on_press contains event self) = current_expression self
  ∧ title (on_press contains event self) = title self
  ∧ stdout (on_press contains event self) = stdout self
  ∧ entrywise same_look (sets self) (sets (on_press contains event self)).
Proof.
  assert (Hrefl : entrywise same_look (sets self) (sets self)).
  { by apply entrywise_refl. }
  unfold on_press. destruct (inaxes event) as [[| |]|]; try done.
  split_and!; try done. simpl. rewrite on_press_loop_find.
  destruct (list_find _ _) as [[i [key entry]]|] eqn:Hfind; [|done].
  apply list_find_Some in Hfind as (Hi & _ & _).
  by eapply entrywise_insert.
Qed.

Lemma on_release_same_look event self :
  entrywise same_look (sets self) (sets (on_release event self)).
Proof. simpl. by apply entrywise_for_each. Qed.

(** *** Motion *)

Lemma labelled_relabelled key entry entry' :
  relabelled entry entry' → labelled (key, entry) → labelled (key, entry').
Proof. intros (Hr & Hp & Hv) (_ & _ & Hr'). unfold labelled. simpl. by rewrite Hr. Qed.

Lemma well_formed_relabelled grid self d :
  entrywise (λ entry entry', entry' = entry ∨ relabelled entry entry') (sets self) d →
  well_formed grid self → well_formed grid (with_sets d self).
Proof.
  intros Hd (Hgrid & Hkeys & Hl). split_and!; [done|..].
  - unfold keys in *. simpl. by rewrite (entrywise_keys _ _ _ Hd).
  - simpl. eapply entrywise_Forall; [|exact Hd|exact Hl].
    intros key entry entry' [->|Hre]; [done|]. by apply labelled_relabelled.
Qed.

Lemma on_motion_well_formed grid event self self' :
  on_motion event self = Returns self' →
  well_formed grid self → well_formed grid self'.
Proof.
  unfold on_motion. intros Hm Hwf.
  destruct (inaxes event) as [[| |]|]; try (by injection Hm as <-).
  rewrite on_motion_loop_find in Hm.
  destruct (list_find _ _) as [[i [key entry]]|] eqn:Hfind;
    [|by injection Hm as <-].
  apply list_find_Some in Hfind as (Hi & _ & _).
  eapply well_formed_update_plot; [exact Hm|].
  apply well_formed_relabelled; [|done].
  eapply entrywise_insert; [by left|exact Hi|]. right.
  destruct Hwf as (_ & _ & Hl). rewrite Forall_forall in Hl.
  destruct (Hl (key, entry)) as (_ & Hv & _); [by eapply list_elem_of_lookup_2|].
  done.
Qed.

Lemma on_motion_up_to_date event self self' :
  on_motion event self = Returns self' →
  keys self = set_names → up_to_date self → up_to_date self'.
Proof.
  unfold on_motion. intros Hm Hkeys Hup.
  destruct (inaxes event) as [[| |]|]; try (by injection Hm as <-).
  rewrite on_motion_loop_find in Hm.
  destruct (list_find _ _) as [[i [key entry]]|] eqn:Hfind;
    [|by injection Hm as <-].
  apply list_find_Some in Hfind as (Hi & _ & _).
  eapply up_to_date_update_plot; [exact Hm|].
  unfold keys in *. simpl. rewrite <- Hkeys.
  eapply (entrywise_keys (λ _ _, True)), entrywise_insert; done.
Qed.

Lemma on_motion_total event self : ∃ self', on_motion event self = Returns self'.
Proof.
  unfold on_motion. destruct (inaxes event) as [[| |]|]; try by eexists.
  destruct (on_motion_loop _ _); [|by eexists].
  destruct (update_plot_total None (with_sets l self)) as (self' & -> & _).
  by eexists.
Qed.

(** *** Reset *)

Lemma reset_loop_set_names a b c :
  reset_loop SET_CONFIG [(lit "A", a); (lit "B", b); (lit "C", c)]
  = Returns [(lit "A", move_to ((-2)%float, 0%float) a);
             (lit "B", move_to (2%float, 0%float) b);
             (lit "C", move_to (0%float, 2%float) c)].
Proof. reflexivity. Qed.

(** ** Drawing the plot again *)

Lemma update_plot_again expression expression' self self' :
  update_plot expression self = Returns self' →
  default (current_expression self') expression' = current_expression self' →
  ∃ out, stdout self' = stdout self ++ out
    ∧ update_plot expression' self'
      = Returns (with_stdout (stdout self' ++ out) self').
Proof.
  intros Hup He.
  destruct (blank (default (current_expression self) expression)) eqn:Hblank.
  - rewrite (update_plot_blank _ _ Hblank) in Hup. injection Hup as <-.
    exists []. split; [by rewrite app_nil_r|]. simpl in He.
    rewrite update_plot_blank by (simpl; by rewrite He).
    simpl. rewrite He, for_each_compose, app_nil_r. done.
  - destruct (evaluation_returns self (default (current_expression self) expression))
      as (mask & out & Hev & _).
    rewrite (update_plot_formula _ _ _ _ Hblank Hev) in Hup. injection Hup as <-.
    exists out. split; [done|]. simpl in He.
    rewrite (update_plot_formula _ _ mask out); simpl; rewrite ?He; [|done|].
    + rewrite for_each_compose. done.
    + rewrite <- Hev. apply evaluation_congr; [done|]. simpl.
      by apply same_circles_for_each.
Qed.

Lemma circle_mask_length self key :
  keys self = set_names → key ∈ set_names →
  length (circle_mask self key) = length (points self).
Proof.
  intros Hkeys Hkey. unfold circle_mask.
  destruct (getitem_is_Some key (sets self)) as [entry ->].
  { unfold keys in Hkeys. by rewrite Hkeys. }
  apply points_in_circle_length.
Qed.

Lemma default_formula :
  formula DEFAULT_EXPRESSION
    (Grammar.Binary Grammar.Or (Grammar.SetRef (lit "A")) (Grammar.SetRef (lit "B"))).
Proof.
  split_and!; [reflexivity|simpl; repeat split; (done || lia)|].
  repeat constructor; apply list_elem_of_In; simpl; tauto.
Qed.

Lemma evaluation_formula self f e :
  keys self = set_names → formula f e →
  ∃ mask, evaluation self f = Returns (mask, [])
    ∧ length mask = length (points self)
    ∧ ∀ i, i < length (points self) →
        mask !! i = Some (member (inside_at (circle_mask self) i) e).
Proof.
  intros Hkeys Hf. rewrite (evaluation_formula_result _ _ Hkeys).
  destruct (formula_pointwise (length (points self)) (circle_mask self) f e)
    as (mask & -> & Hlen & Hmask); [|done|by exists mask].
  intros key Hkey. by apply circle_mask_length.
Qed.

Lemma update_plot_formula_again self self' f e :
  keys self = set_names → formula f e →
  update_plot (Some f) self = Returns self' →
  update_plot (Some f) self' = Returns self' ∧ stdout self' = stdout self.
Proof.
  intros Hkeys Hf Hup.
  assert (Hcur : current_expression self' = f).
  { destruct (update_plot_total (Some f) self) as (s & Hs & _ & _ & Hc & _).
    rewrite Hup in Hs. by injection Hs as <-. }
  destruct (update_plot_again (Some f) (Some f) self self' Hup) as (out & Hout & Hagain).
  { by rewrite Hcur. }
  assert (out = []) as ->.
  { destruct (evaluation_formula self f e Hkeys Hf) as (mask & Hev & _).
    assert (Hblank : blank f = false).
    { destruct Hf as (Htok & _).
      destruct (Grammar.tokens_of e) as [|t ts] eqn:Ht;
        [by apply tokens_of_nonempty in Ht|].
      apply (_tokenize_nonblank _ _ _ Htok). }
    rewrite (update_plot_formula (Some f) self mask []) in Hup by done.
    injection Hup as <-. simpl in Hout. by eapply app_inv_head. }
  rewrite with_stdout_nil in Hagain. by rewrite app_nil_r in Hout.
Qed.

Lemma reset_event_eq submits event self a b c self' :
  sets self = [(lit "A", a); (lit "B", b); (lit "C", c)] →
  update_plot (Some DEFAULT_EXPRESSION)
    (with_text_box DEFAULT_EXPRESSION
       (with_sets [(lit "A", move_to ((-2)%float, 0%float) a);
                   (lit "B", move_to (2%float, 0%float) b);
                   (lit "C", move_to (0%float, 2%float) c)] self))
  = Returns self' →
  reset_event submits event self = Returns self'.
Proof.
  intros Hsets Hup. unfold reset_event. rewrite Hsets, reset_loop_set_names.
  simpl_run. unfold set_val, on_formula_submit.
  destruct (submits _ _); simpl_run; [|done].
  rewrite Hup. simpl_run.
  refine (proj1 (update_plot_formula_again _ _ _ _ _ default_formula Hup)).
  reflexivity.
Qed.

(** ** The sample visualizer *)

Lemma sample_state_init : __init__ sample_grid = Returns sample_state.
Proof. vm_compute. reflexivity. Qed.

Lemma sample_state_reachable :
  reachable sample_contains sample_submits sample_grid sample_state.
Proof. apply reachable_init, sample_state_init. Qed.

(** ** The plot *)

(** X10. [update_plot] returns in every state and for every argument: the
    mask it indexes the points with always has their length, so no
    [IndexError] arises, and the evaluation ends. It leaves the grid and
    the text box alone, makes the formula the current one, and changes
    nothing of the sets but what is shown. *)
Theorem update_plot_returns expression self :
  ∃ self', update_plot expression self = Returns self'
    ∧ points self' = points self ∧ text_box self' = text_box self
    ∧ current_expression self' = default (current_expression self) expression
    ∧ entrywise (λ entry entry', ∃ v, entry' = set_visible v entry)
        (sets self) (sets self').
Proof.
  destruct (update_plot_total expression self)
    as (self' & Hup & Hp & Hbox & Hcur & v & Hsets).
  exists self'. split_and!; try done. rewrite Hsets.
  apply entrywise_for_each. intros key entry. by exists (v key).
Qed.



(** ** The mouse *)

(** X12. A press outside the main axes, or on no circle, changes nothing.
    Any other press grabs one set and no more, the first in the order A, B,
    C whose circle contains the pointer, also where circles overlap: it
    marks the set as dragged and records the offset of its centre from the
    pointer. No press moves a circle or redraws the plot. *)
Theorem on_press_grabs_first contains event self :
  on_press contains event self
  = match inaxes event,
          list_find (λ item, contains (circle item.2) event = true) (sets self) with
    | Some MainAxes, Some (i, (key, entry)) =>
        with_sets (<[i := (key, grabbed event entry)]> (sets self)) self
    | _, _ => self
    end.
Proof.
  unfold on_press. destruct (inaxes event) as [[| |]|]; try done.
  rewrite on_press_loop_find.
  destruct (list_find _ _) as [[i [key entry]]|]; [done|apply with_sets_same].
Qed.

(** X13. A motion outside the main axes, or while no set is dragged,
    changes nothing and does not evaluate the formula. Any other motion
    moves one circle and no more, the first dragged set in the order A, B,
    C, to the pointer plus the recorded offset, puts its label on the new
    centre, and redraws the plot for the current formula. *)
Theorem on_motion_moves_first_dragged event self :
  on_motion event self
  = match inaxes event,
          list_find (λ item, dragging item.2 = true) (sets self) with
    | Some MainAxes, Some (i, (key, entry)) =>
        update_plot None
          (with_sets
             (<[i := (key, move_to ((xdata event + (offset entry).1)%float,
                                    (ydata event + (offset entry).2)%float) entry)]>
                (sets self)) self)
    | _, _ => Returns self
    end.
Proof.
  unfold on_motion. destruct (inaxes event) as [[| |]|]; try done.
  rewrite on_motion_loop_find.
  by destruct (list_find _ _) as [[i [key entry]]|].
Qed.

Lemma list_find_insert {A} (P : A → Prop) `{∀ x, Decision (P x)} (l : list A) i x y :
  l !! i = Some y → P x → (∀ j z, l !! j = Some z → j < i → ¬ P z) →
  list_find P (<[i := x]> l) = Some (i, x).
Proof.
  intros Hi Hx Hbefore. apply list_find_Some. split_and!; [|done|].
  - apply list_lookup_insert_eq. by eapply lookup_lt_Some.
  - intros j z Hj Hlt. rewrite list_lookup_insert_ne in Hj by lia. eauto.
Qed.

(** X14. A drag follows the pointer: when no set is dragged, a press on a
    circle followed by a motion puts the centre of the grabbed circle, and
    its label, at the pointer plus the offset the centre had from the
    pointer at the press, and redraws the plot; the other sets stay. *)
Theorem drag_follows_pointer contains press motion self i key entry :
  inaxes press = Some MainAxes → inaxes motion = Some MainAxes →
  Forall (λ item, dragging item.2 = false) (sets self) →
  list_find (λ item, contains (circle item.2) press = true) (sets self)
  = Some (i, (key, entry)) →
  on_motion motion (on_press contains press self)
  = update_plot None
      (with_sets
         (<[i := (key,
                  move_to
                    ((xdata motion + ((center (circle entry)).1 - xdata press))%float,
                     (ydata motion + ((center (circle entry)).2 - ydata press))%float)
                    (grabbed press entry))]> (sets self)) self).
Proof.
  intros Hpress Hmotion Hnone Hfind.
  unfold on_press, on_motion. rewrite Hpress, Hmotion, on_press_loop_find, Hfind.
  rewrite on_motion_loop_find. cbn [sets with_sets].
  apply list_find_Some in Hfind as (Hi & _ & _).
  rewrite (list_find_insert _ _ i (key, grabbed press entry) (key, entry)); [|done..|].
  - rewrite list_insert_insert_eq. done.
  - intros j z Hj _. rewrite Forall_forall in Hnone.
    rewrite (Hnone z) by (by eapply list_elem_of_lookup_2). done.
Qed.

Lemma drag_follows_pointer_witness :
  on_motion sample_motion (on_press sample_contains sample_press sample_state)
  = update_plot None
      (with_sets
         (<[0 := (lit "A",
                  move_to ((0 + ((-2) - (-1.5)))%float, (1 + (0 - 0.5))%float)
                    (grabbed sample_press
                       (sample_entry ((-2)%float, 0%float) true)))]>
            (sets sample_state)) sample_state).
Proof.
  apply (drag_follows_pointer sample_contains sample_press sample_motion
           sample_state 0 (lit "A") (sample_entry ((-2)%float, 0%float) true)).
  - reflexivity.
  - reflexivity.
  - repeat constructor.
  - vm_compute. reflexivity.
Defined.

(** X15. The release of the button ends every drag, and touches nothing
    else; after it no motion of the mouse moves a circle or evaluates the
    formula, whatever the pointer does, until the next press. *)
Theorem release_ends_drag event motion self :
  on_motion motion (on_release event self) = Returns (on_release event self)
  ∧ sets (on_release event self) = for_each (λ _ entry, released entry) (sets self)
  ∧ on_release event self = with_sets (sets (on_release event self)) self.
Proof.
  split_and!; [|done..].
  unfold on_motion. destruct (inaxes motion) as [[| |]|]; try done.
  rewrite on_motion_loop_find.
  destruct (list_find _ _) as [[i [key entry]]|] eqn:Hfind; [|done].
  apply list_find_Some in Hfind as (Hi & Hd & _). simpl in Hi.
  unfold for_each in Hi. rewrite list_lookup_fmap in Hi.
  destruct (sets self !! i) as [[k x]|]; simpl in Hi; [|done].
  injection Hi as <- <-. done.
Qed.

(** ** The reset button *)

Lemma reset_event_returns submits event grid self :
  well_formed grid self →
  ∃ a b c self',
    sets self = [(lit "A", a); (lit "B", b); (lit "C", c)]
    ∧ update_plot (Some DEFAULT_EXPRESSION)
        (with_text_box DEFAULT_EXPRESSION
           (with_sets [(lit "A", move_to ((-2)%float, 0%float) a);
                       (lit "B", move_to (2%float, 0%float) b);
                       (lit "C", move_to (0%float, 2%float) c)] self))
      = Returns self'
    ∧ reset_event submits event self = Returns self'
    ∧ well_formed grid self' ∧ up_to_date self'.
Proof.
  intros (Hgrid & Hkeys & Hl).
  destruct (keys_set_names _ Hkeys) as (a & b & c & Hsets).
  destruct (update_plot_total (Some DEFAULT_EXPRESSION)
    (with_text_box DEFAULT_EXPRESSION
       (with_sets [(lit "A", move_to ((-2)%float, 0%float) a);
                   (lit "B", move_to (2%float, 0%float) b);
                   (lit "C", move_to (0%float, 2%float) c)] self)))
    as (self' & Hup & _).
  exists a, b, c, self'. split_and!; [done..| | |].
  - by apply (reset_event_eq _ _ _ a b c).
  - eapply well_formed_update_plot; [exact Hup|]. split_and!; [done..|].
    simpl. rewrite Hsets in Hl.
    apply Forall_cons in Hl as [Ha Hl]. apply Forall_cons in Hl as [Hb Hl].
    apply Forall_cons in Hl as [Hc _].
    repeat constructor; by apply labelled_move_to.
  - by eapply up_to_date_update_plot.
Qed.

(** X16. The reset button puts the three circles and their labels back on
    the positions of [SET_CONFIG], makes ['A U B'] the formula of the plot
    and of the text box, prints nothing and redraws the plot, and it does
    so whether or not the text box submits the text it is given. It does
    not end a drag: the flags and offsets of the sets stay as they are. *)
Theorem reset_event_restores event grid self :
  well_formed grid self →
  ∃ self',
    (∀ submits, reset_event submits event self = Returns self')
    ∧ Forall2 (λ (item : str * SetEntry) (config : str * Config),
                 item.1 = config.1
                 ∧ center (circle item.2) = pos config.2
                 ∧ position (text item.2) = pos config.2) (sets self') SET_CONFIG
    ∧ current_expression self' = DEFAULT_EXPRESSION
    ∧ text_box self' = DEFAULT_EXPRESSION
    ∧ stdout self' = stdout self
    ∧ entrywise (λ entry entry',
                   dragging entry' = dragging entry ∧ offset entry' = offset entry)
        (sets self) (sets self')
    ∧ up_to_date self'.
Proof.
  intros Hwf.
  destruct (reset_event_returns (λ _ _, false) event grid self Hwf)
    as (a & b & c & self' & Hsets & Hup & _ & _ & Hfresh).
  destruct (update_plot_total (Some DEFAULT_EXPRESSION)
    (with_text_box DEFAULT_EXPRESSION
       (with_sets [(lit "A", move_to ((-2)%float, 0%float) a);
                   (lit "B", move_to (2%float, 0%float) b);
                   (lit "C", move_to (0%float, 2%float) c)] self)))
    as (s & Hs & _ & Hbox & Hcur & v & Hd).
  rewrite Hup in Hs. injection Hs as <-.
  exists self'. split_and!; try done.
  - intros submits. by apply (reset_event_eq _ _ _ a b c).
  - rewrite Hd. simpl. repeat constructor.
  - refine (proj2 (update_plot_formula_again _ _ _ _ _ default_formula Hup)).
    reflexivity.
  - rewrite Hd, Hsets. simpl. repeat constructor.
Qed.

Lemma sample_state_well_formed : well_formed sample_grid sample_state.
Proof.
  split_and!; [reflexivity..|]. repeat constructor.
Defined.

Lemma reset_event_restores_witness :
  ∃ self',
    (∀ submits, reset_event submits sample_press sample_state = Returns self')
    ∧ Forall2 (λ (item : str * SetEntry) (config : str * Config),
                 item.1 = config.1
                 ∧ center (circle item.2) = pos config.2
                 ∧ position (text item.2) = pos config.2) (sets self') SET_CONFIG
    ∧ current_expression self' = DEFAULT_EXPRESSION
    ∧ text_box self' = DEFAULT_EXPRESSION
    ∧ stdout self' = stdout sample_state
    ∧ entrywise (λ entry entry',
                   dragging entry' = dragging entry ∧ offset entry' = offset entry)
        (sets sample_state) (sets self')
    ∧ up_to_date self'.
Proof.
  apply (reset_event_restores sample_press sample_grid sample_state).
  exact sample_state_well_formed.
Defined.

(** ** Every state of the program *)

Lemma init_well_formed grid self :
  __init__ grid = Returns self → well_formed grid self ∧ up_to_date self.
Proof.
  unfold __init__. intros Hup. split.
  - eapply well_formed_update_plot; [exact Hup|].
    split_and!; [reflexivity..|]. repeat constructor.
  - by eapply up_to_date_update_plot.
Qed.

Lemma step_well_formed contains submits grid self self' :
  step contains submits self self' →
  well_formed grid self ∧ up_to_date self →
  well_formed grid self' ∧ up_to_date self'.
Proof.
  intros Hstep [Hwf Hup].
  destruct Hstep as [text self' H|event|event self' H|event|event self' H].
  - unfold on_formula_submit in H. split; [by eapply well_formed_update_plot|].
    eapply up_to_date_update_plot; [exact H|]. apply Hwf.
  - destruct (on_press_same_look contains event self)
      as (Hp & _ & Hs & Hc & _ & _ & Hd).
    split; [by eapply well_formed_same_look|by eapply up_to_date_same_look].
  - split; [by eapply on_motion_well_formed|].
    eapply on_motion_up_to_date; [exact H| |done]. apply Hwf.
  - pose proof (on_release_same_look event self) as Hd.
    split.
    + by apply (well_formed_same_look grid self).
    + by apply (up_to_date_same_look self).
  - destruct (reset_event_returns submits event grid self Hwf)
      as (a & b & c & s & _ & _ & Hs & Hwf' & Hup').
    rewrite H in Hs. by injection Hs as <-.
Qed.

Lemma reachable_invariant contains submits grid self :
  reachable contains submits grid self → well_formed grid self ∧ up_to_date self.
Proof.
  induction 1 as [self Hinit|self self' _ IH Hstep].
  - by apply init_well_formed.
  - by eapply step_well_formed.
Qed.

(** X17. In every state the program reaches, the sets are A, B and C in
    this order over the grid of the construction, every label sits on the
    centre of its circle and is visible exactly when the circle is, and
    every radius is 1.5. *)
Theorem reachable_well_formed contains submits grid self :
  reachable contains submits grid self → well_formed grid self.
Proof. intros H. by apply (reachable_invariant contains submits). Qed.

Lemma reachable_well_formed_witness : well_formed sample_grid sample_state.
Proof.
  apply (reachable_well_formed sample_contains sample_submits).
  apply reachable_init. vm_compute. reflexivity.
Defined.



(** X19. No handler fails in a state the program reaches: a submitted
    text, a motion of the mouse and a click on the reset button each
    return a next state, without [IndexError] or [KeyError] and with the
    evaluation ended; a press and a release cannot fail. So every event has
    a next state. *)
Theorem reachable_no_crash contains submits grid self :
  reachable contains submits grid self →
  (∀ text, ∃ self', on_formula_submit text self = Returns self')
  ∧ (∀ event, ∃ self', on_motion event self = Returns self')
  ∧ (∀ event, ∃ self', reset_event submits event self = Returns self').
Proof.
  intros [Hwf _]%reachable_invariant. split_and!.
  - intros text. destruct (update_plot_total (Some text) self) as (s & Hs & _).
    by exists s.
  - intros event. apply on_motion_total.
  - intros event.
    destruct (reset_event_returns submits event grid self Hwf)
      as (a & b & c & s & _ & _ & Hs & _). by exists s.
Qed.

Lemma reachable_no_crash_witness :
  (∀ text, ∃ self', on_formula_submit text sample_state = Returns self')
  ∧ (∀ event, ∃ self', on_motion event sample_state = Returns self')
  ∧ (∀ event, ∃ self', reset_event sample_submits event sample_state = Returns self').
Proof.
  apply (reachable_no_crash sample_contains sample_submits sample_grid).
  apply reachable_init. vm_compute. reflexivity.
Defined.

(** ** The picture is the set *)

Lemma rows_fmap (f : float * float → bool) (a : list (float * float)) :
  rows a (f <$> a) = filter (λ p, f p = true) a.
Proof.
  unfold rows. induction a as [|p a IH]; [done|]. cbn [fmap list_fmap zip zip_with].
  destruct (f p) eqn:Hp.
  - rewrite (filter_cons_True _ (p, true)) by done.
    rewrite (filter_cons_True (λ p, f p = true)) by done.
    cbn [fmap list_fmap fst]. f_equal. apply IH.
  - rewrite (filter_cons_False _ (p, false)) by done.
    rewrite (filter_cons_False (λ p, f p = true)) by (by rewrite Hp). apply IH.
Qed.

Lemma inside_at_circle_mask self i p key :
  points self !! i = Some p →
  inside_at (circle_mask self) i key = in_circle self p key.
Proof.
  intros Hp. unfold inside_at, circle_mask, in_circle.
  destruct (getitem key (sets self)) as [entry|]; [|done].
  unfold points_in_circle. rewrite list_lookup_fmap, Hp. done.
Qed.

Lemma selected_formula self f e :
  keys self = set_names → formula f e →
  selected self f = filter (λ p, member (in_circle self p) e = true) (points self).
Proof.
  intros Hkeys Hf.
  destruct (evaluation_formula self f e Hkeys Hf) as (mask & Hev & Hlen & Hmask).
  rewrite (selected_evaluation _ _ _ _ Hkeys Hev), <- rows_fmap. f_equal.
  apply list_eq. intros i. rewrite list_lookup_fmap.
  destruct (points self !! i) as [p|] eqn:Hp; simpl.
  - rewrite Hmask by (by eapply lookup_lt_Some). f_equal.
    apply member_ext. intros key _. by apply inside_at_circle_mask.
  - apply lookup_ge_None. apply lookup_ge_None in Hp. lia.
Qed.

Lemma formula_result_rows self f e :
  keys self = set_names → formula f e →
  ∃ mask,
    formula_result (length (points self)) (circle_mask self) f = Ok (mask, None)
    ∧ rows (points self) mask
      = filter (λ p, member (in_circle self p) e = true) (points self).
Proof.
  intros Hkeys Hf.
  destruct (formula_pointwise (length (points self)) (circle_mask self) f e)
    as (mask & Hev & Hlen & Hmask); [|done|].
  { intros key Hkey. by apply circle_mask_length. }
  exists mask. split; [done|]. rewrite <- rows_fmap. f_equal.
  apply list_eq. intros i. rewrite list_lookup_fmap.
  destruct (points self !! i) as [p|] eqn:Hp; simpl.
  - rewrite Hmask by (by eapply lookup_lt_Some). f_equal.
    apply member_ext. intros key _. by apply inside_at_circle_mask.
  - apply lookup_ge_None. apply lookup_ge_None in Hp. lia.
Qed.

(** X20. What the program shows is the set the formula describes: in
    every state the program reaches whose current formula is the text of a
    formula of the grammar over A, B and C with at most a hundred opening
    parentheses, the scatter holds exactly the grid points for which the
    Boolean combination the formula stands for holds of lying in the three
    circles where they are now, in the order of the grid, and there is no
    scatter when there is no such point. A hundred parentheses keep the
    evaluation within the recursion limit of the interpreter: with 714
    frames left, which the 1000 of the interpreter leave to a handler, the
    evaluation under the limit gives the mask of these points and no
    error. *)
Theorem scatter_is_the_set contains submits grid self e :
  reachable contains submits grid self →
  formula (current_expression self) e →
  parentheses (Grammar.tokens_of e) ≤ 100 →
  result_scatter self
  = scatter_of (filter (λ p, member (in_circle self p) e = true) grid)
  ∧ ∀ frames, 714 ≤ frames →
      ∃ mask,
        Limited.evaluate_expression frames (length grid) (circle_mask self)
          (current_expression self) = Ok (mask, None)
        ∧ rows grid mask = filter (λ p, member (in_circle self p) e = true) grid.
Proof.
  intros [(Hgrid & Hkeys & _) [Hscatter _]]%reachable_invariant Hf Hdepth. split.
  - by rewrite Hscatter, (selected_formula _ _ e Hkeys Hf), Hgrid.
  - intros frames Hframes.
    destruct (formula_result_rows self _ e Hkeys Hf) as (mask & Hev & Hrows).
    exists mask. rewrite <- Hgrid. split; [|done].
    rewrite (limited_formula _ _ _ _ e) by (done || lia). by rewrite Hev.
Qed.

Lemma scatter_is_the_set_witness :
  result_scatter sample_state
  = scatter_of
      (filter (λ p, member (in_circle sample_state p)
                      (Grammar.Binary Grammar.Or (Grammar.SetRef (lit "A"))
                         (Grammar.SetRef (lit "B"))) = true) sample_grid)
  ∧ ∀ frames, 714 ≤ frames →
      ∃ mask,
        Limited.evaluate_expression frames (length sample_grid)
          (circle_mask sample_state) (current_expression sample_state)
        = Ok (mask, None)
        ∧ rows sample_grid mask
          = filter (λ p, member (in_circle sample_state p)
                           (Grammar.Binary Grammar.Or (Grammar.SetRef (lit "A"))
                              (Grammar.SetRef (lit "B"))) = true) sample_grid.
Proof.
  apply (scatter_is_the_set sample_contains sample_submits).
  - apply reachable_init. vm_compute. reflexivity.
  - split_and!; [reflexivity|simpl; repeat split; (done || lia)|].
    repeat constructor; apply list_elem_of_In; simpl; tauto.
  - vm_compute. lia.
Defined.

End visualizer_facts.
